(** * backup.py: a shallow embedding and its verified properties

    The script reads a JSON configuration, builds [Source] and [Target]
    objects, prints a status report, prepares the target directory and
    calls rsync once per source.

    Python values coming out of [json.load] are an inductive type, the
    class attributes [Source.identifiers] and [Source.padding] are fields
    of an explicit program state, and everything the script does to the
    outside (stdout, stdin, du, rsync, makedirs) goes through a small
    state-and-error monad that records a trace of events.

    Modelling assumptions, stated once:
    - characters are code points below 256 ([ascii]);
    - the interpreter runs with assertions enabled (no [-O]);
    - du and rsync are installed and no argument handed to them holds a
      NUL character, so a subprocess call reports an exit status
      instead of failing to start;
    - nothing else touches the filesystem while the script runs;
    - [getargs] (argparse) is not modelled: [main] takes the namespace
      that [getargs] returns, so what argparse does on its own (exit
      status 2 on a usage error, 0 on [--help]) comes before everything
      stated here about [main]. *)

From Stdlib Require Import ZArith Ascii String.
From stdpp Require Import gmap strings list.

Set Warnings "-register-all,-clear-no-such-hyp".
Local Open Scope Z_scope.

(** ** Python values *)

Inductive PyVal : Type :=
| PNone
| PBool (b : bool)
| PInt (z : Z)
| PFloat (lit : string)
| PStr (s : string)
| PList (l : list PyVal)
| PDict (d : list (string * PyVal)).

(** Exceptions the script can raise.  An [AssertionError] carries the
    [assert] statement it comes from. *)
Inductive assert_site : Type :=
| AssertConfig    (* readconfig, "basic sanity" *)
| AssertCreate    (* Target.create: assert not self.exists() *)
| AssertSanity.   (* main: assert target.sanity() *)

Inductive exn : Type :=
| AssertionError (site : assert_site)
| KeyError (key : string)
| TypeError
| AttributeError
| ValueError
| IndexError
| EOFError
| CalledProcessError
| OSError.

Inductive result (A : Type) : Type :=
| Ok (a : A)
| Exit (code : Z)      (* sys.exit(code) *)
| Raise (e : exn).     (* uncaught exception *)
Arguments Ok {A} a.
Arguments Exit {A} code.
Arguments Raise {A} e.

(** Exit status of the interpreter: an uncaught exception ends the
    process with status 1. *)
Definition status {A} (r : result A) : Z :=
  match r with
  | Ok _ => 0
  | Exit code => code
  | Raise _ => 1
  end.

(** ** String primitives *)

Module PyStr.

Definition nl : string := String "010" "".
Definition tab : string := String "009" "".
Definition nul : string := String "000" "".

(** [str.isspace] on one character. *)
Definition isspace (c : ascii) : bool :=
  let n := nat_of_ascii c in
  bool_decide (n ∈ [9; 10; 11; 12; 13; 28; 29; 30; 31; 32; 133; 160]%nat).

Fixpoint lstrip (s : string) : string :=
  match s with
  | String c s' => if isspace c then lstrip s' else s
  | EmptyString => EmptyString
  end.

Definition rstrip (s : string) : string := String.rev (lstrip (String.rev s)).

(** [s.strip()] *)
Definition strip (s : string) : string := rstrip (lstrip s).

(** [s.endswith(suffix)] *)
Definition endswith (s suffix : string) : bool :=
  String.prefix (String.rev suffix) (String.rev s).

(** [s[:-1]] *)
Fixpoint drop_last (s : string) : string :=
  match s with
  | String c EmptyString => EmptyString
  | String c s' => String c (drop_last s')
  | EmptyString => EmptyString
  end.

(** [s.rfind("/")]: index of the last slash, -1 when there is none. *)
Fixpoint rfind_slash (s : string) : Z :=
  match s with
  | String c s' =>
      let r := rfind_slash s' in
      if 0 <=? r then r + 1
      else if Ascii.eqb c "/" then 0 else -1
  | EmptyString => -1
  end.

(** [s[i:]] *)
Fixpoint drop (i : nat) (s : string) : string :=
  match i, s with
  | S i', String _ s' => drop i' s'
  | _, _ => s
  end.

(** [sep.join(l)] *)
Fixpoint join (sep : string) (l : list string) : string :=
  match l with
  | [] => ""
  | [x] => x
  | x :: l' => x +:+ sep +:+ join sep l'
  end.

Fixpoint spaces (n : nat) : string :=
  match n with
  | O => ""
  | S n' => String " " (spaces n')
  end.

(** ["{:<{pad}}".format(s)] for a non-negative [pad] *)
Definition ljust (s : string) (pad : nat) : string :=
  s +:+ spaces (pad - String.length s).

(** ["{:>{pad}}".format(s)] for a non-negative [pad] *)
Definition rjust (s : string) (pad : nat) : string :=
  spaces (pad - String.length s) +:+ s.

Fixpoint take_word (s : string) : string :=
  match s with
  | String c s' => if isspace c then "" else String c (take_word s')
  | EmptyString => ""
  end.

(** [s.split()[0]]: the first whitespace-delimited token, if any. *)
Definition first_word (s : string) : option string :=
  match lstrip s with
  | EmptyString => None
  | w => Some (take_word w)
  end.

(** Iterating over a string yields its characters. *)
Fixpoint chars (s : string) : list string :=
  match s with
  | String c s' => String c "" :: chars s'
  | EmptyString => []
  end.

End PyStr.

(** [os.path] (posixpath) *)
Module OsPath.

(** [i = p.rfind("/") + 1; return p[i:]] *)
Definition basename (p : string) : string :=
  PyStr.drop (Z.to_nat (PyStr.rfind_slash p + 1)) p.

(** [os.path.join(a, b)] with two arguments. *)
Definition join (a b : string) : string :=
  if String.prefix "/" b then b
  else if bool_decide (a = "") || PyStr.endswith a "/" then a +:+ b
  else a +:+ "/" +:+ b.

End OsPath.

Module Color.

Definition esc : string := String "027" "".

Definition sequences : list (string * string) :=
  [ ("red",    esc +:+ "[91;1m");
    ("green",  esc +:+ "[92;1m");
    ("yellow", esc +:+ "[93;1m");
    ("blue",   esc +:+ "[94;1m");
    ("purple", esc +:+ "[95;1m");
    ("cyan",   esc +:+ "[96;1m");
    ("end",    esc +:+ "[0m") ].

Fixpoint seq_of (c : string) (l : list (string * string)) : string :=
  match l with
  | (k, v) :: l' => if bool_decide (k = c) then v else seq_of c l'
  | [] => ""
  end.

Definition colorize (c s : string) : string :=
  seq_of c sequences +:+ s +:+ seq_of "end" sequences.

Definition red := colorize "red".
Definition green := colorize "green".
Definition yellow := colorize "yellow".
Definition blue := colorize "blue".
Definition purple := colorize "purple".
Definition cyan := colorize "cyan".

End Color.

(** ** The world, the program state and the monad *)

(** The os module refuses a path with a NUL character before it asks
    the system: [os.access] raises [ValueError] (embedded null byte). *)
Fixpoint has_nul (p : string) : bool :=
  match p with
  | String c p' => Ascii.eqb c "000" || has_nul p'
  | EmptyString => false
  end.

(** What the filesystem answers to the probes the script makes. *)
Record filesystem : Type := mkFs {
  fs_access_r : string → bool;              (* access(2) with R_OK *)
  fs_access_w : string → bool;              (* access(2) with W_OK *)
  fs_exists : string → bool;                (* os.path.exists(p) *)
  fs_du : list string → option string       (* stdout of du, None on a non-zero exit *)
}.

(** [os.access(p, os.R_OK)] and [os.access(p, os.W_OK)] return [True]:
    the call got as far as the system, and the system said yes. *)
Definition fs_readable (f : filesystem) (p : string) : bool :=
  negb (has_nul p) && fs_access_r f p.

Definition fs_writable (f : filesystem) (p : string) : bool :=
  negb (has_nul p) && fs_access_w f p.

(** What [open(f)] followed by [json.load] gives. *)
Inductive load_result : Type :=
| Loaded (v : PyVal)
| OpenFailed        (* OSError *)
| DecodeFailed.     (* ValueError: the file is not well-formed JSON *)

(** The part of the environment that the script cannot change. *)
Record world : Type := mkWorld {
  w_json : string → load_result;            (* open(f) and json.load *)
  w_str : PyVal → string;                   (* str() of a value that is not a str *)
  w_makedirs : string → option filesystem;  (* None: os.makedirs raises *)
  w_rsync : nat → list string → Z           (* exit status of the n-th rsync *)
}.

Inductive event : Type :=
| EvStdout (text : string)                  (* text written to stdout *)
| EvInput (prompt : string)                 (* input(prompt): one line read *)
| EvDu (args : list string)                 (* subprocess.check_output *)
| EvRsync (args : list string)              (* subprocess.call *)
| EvMakedirs (path : string).               (* os.makedirs *)

Record state : Type := mkState {
  identifiers : gmap string string;         (* Source.identifiers *)
  padding : nat;                            (* Source.padding *)
  fs : filesystem;
  stdin : list string;                      (* lines still to be read *)
  rsync_calls : nat;
  trace : list event
}.

Definition M (A : Type) : Type := world → state → result A * state.

Definition ret {A} (a : A) : M A := λ _ st, (Ok a, st).

Definition bind {A B} (m : M A) (k : A → M B) : M B :=
  λ w st,
    match m w st with
    | (Ok a, st') => k a w st'
    | (Exit code, st') => (Exit code, st')
    | (Raise e, st') => (Raise e, st')
    end.

Notation "'do' x <- m ; k" := (bind m (λ x, k))
  (at level 10, x name, m at level 100, k at level 200).
Notation "'do' ' pat <- m ; k" := (bind m (λ x, match x with pat => k end))
  (at level 10, pat pattern, m at level 100, k at level 200).
Notation "'run' m ; k" := (bind m (λ _, k))
  (at level 10, m at level 100, k at level 200).

Definition raise {A} (e : exn) : M A := λ _ st, (Raise e, st).
Definition sys_exit {A} (code : Z) : M A := λ _ st, (Exit code, st).

Definition get_state : M state := λ _ st, (Ok st, st).
Definition get_world : M world := λ w st, (Ok w, st).

Definition emit (e : event) : M unit :=
  λ _ st, (Ok tt, mkState (identifiers st) (padding st) (fs st) (stdin st)
                          (rsync_calls st) (trace st ++ [e])).

(** [print(s)] and [print(s, end=...)] *)
Definition print_end (s end_ : string) : M unit := emit (EvStdout (s +:+ end_)).
Definition print (s : string) : M unit := print_end s PyStr.nl.

(** [input(prompt)] *)
Definition input (prompt : string) : M string :=
  λ _ st,
    match stdin st with
    | line :: rest =>
        (Ok line, mkState (identifiers st) (padding st) (fs st) rest
                          (rsync_calls st) (trace st ++ [EvInput prompt]))
    | [] => (Raise EOFError, st)
    end.

(** [subprocess.check_output(args).decode("utf-8")] *)
Definition check_output (args : list string) : M string :=
  run emit (EvDu args);
  do st <- get_state;
  match fs_du (fs st) args with
  | Some out => ret out
  | None => raise CalledProcessError
  end.

(** [subprocess.call(args)] *)
Definition subprocess_call (args : list string) : M Z :=
  λ w st,
    (Ok (w_rsync w (rsync_calls st) args),
     mkState (identifiers st) (padding st) (fs st) (stdin st)
             (S (rsync_calls st)) (trace st ++ [EvRsync args])).

(** [os.makedirs(path)]; on success the directory exists. *)
Definition makedirs (path : string) : M unit :=
  λ w st,
    let st' := mkState (identifiers st) (padding st) (fs st) (stdin st)
                       (rsync_calls st) (trace st ++ [EvMakedirs path]) in
    match w_makedirs w path with
    | Some fs' =>
        let fs'' := mkFs (fs_access_r fs') (fs_access_w fs')
                         (λ p, bool_decide (p = path) || fs_exists fs' p)
                         (fs_du fs') in
        (Ok tt, mkState (identifiers st') (padding st') fs'' (stdin st')
                        (rsync_calls st') (trace st'))
    | None => (Raise OSError, st')
    end.

(** [os.access(path, mode)], [answer] being the probe of the mode. *)
Definition os_access (answer : filesystem → string → bool) (path : string)
  : M bool :=
  if has_nul path then raise ValueError
  else do st <- get_state; ret (answer (fs st) path).

(** [try: m except: h] with a bare [except], which also catches
    [SystemExit]. *)
Definition try_except {A} (m : M A) (h : M A) : M A :=
  λ w st,
    match m w st with
    | (Ok a, st') => (Ok a, st')
    | (_, st') => h w st'
    end.

(** Loops over a list: [for x in l: f(x)], without and with an update
    of the objects visited. *)
Fixpoint for_each {A} (f : A → M unit) (l : list A) : M unit :=
  match l with
  | [] => ret tt
  | x :: l' => run f x; for_each f l'
  end.

Fixpoint for_each_upd {A} (f : A → M A) (l : list A) : M (list A) :=
  match l with
  | [] => ret []
  | x :: l' => do x' <- f x; do l'' <- for_each_upd f l'; ret (x' :: l'')
  end.

(** [d[key]] on a dict kept in insertion order. *)
Fixpoint dict_lookup (d : list (string * PyVal)) (key : string) : option PyVal :=
  match d with
  | (k, v) :: d' => if bool_decide (k = key) then Some v else dict_lookup d' key
  | [] => None
  end.

Definition dict_get (d : list (string * PyVal)) (key : string) : M PyVal :=
  match dict_lookup d key with
  | Some v => ret v
  | None => raise (KeyError key)
  end.

(** The values a [for] loop visits. *)
Definition py_iter (v : PyVal) : M (list PyVal) :=
  match v with
  | PList l => ret l
  | PDict d => ret (map (λ kv, PStr (fst kv)) d)
  | PStr s => ret (map PStr (PyStr.chars s))
  | _ => raise TypeError
  end.

(** ** The script *)

(** The namespace returned by [getargs()]. *)
Record Args : Type := mkArgs {
  config : string;
  autoconfirm : bool
}.

Definition err {A} (s : string) : M A :=
  run print (Color.red "Error:" +:+ " " +:+ s);
  sys_exit 1.

Definition trim_trailing_slash (s : string) : string :=
  if PyStr.endswith s "/" then PyStr.drop_last s else s.

Definition confirm (s : string) (skipped : bool) : M unit :=
  if skipped then ret tt
  else
    do ans <- input (s +:+ " [y/N] ");
    if negb (bool_decide (ans = "y")) then
      run print "Operation aborted.";
      sys_exit 3
    else ret tt.

Module Source.

(** A [Source] instance.  [attrs] holds the instance attributes that
    are not set by [__init__]. *)
Record t : Type := mk {
  excludes : list PyVal;
  path : string;
  idn : string;
  unique : bool;
  attrs : gmap string string
}.

(** Names found on the class and on [object]. *)
Definition class_attrs : list string :=
  [ "identifiers"; "padding"; "readable"; "unique_idn"; "err"; "size";
    "update_padding"; "show"; "exclude"; "__init__"; "__dict__";
    "__module__"; "__weakref__"; "__class__"; "__delattr__"; "__dir__";
    "__doc__"; "__eq__"; "__format__"; "__ge__"; "__getattribute__";
    "__getstate__"; "__gt__"; "__hash__"; "__init_subclass__"; "__le__";
    "__lt__"; "__ne__"; "__new__"; "__reduce__"; "__reduce_ex__";
    "__repr__"; "__setattr__"; "__sizeof__"; "__str__";
    "__subclasshook__" ].

(** [hasattr(self, name)] *)
Definition hasattr (self : t) (name : string) : bool :=
  bool_decide (name ∈ ["excludes"; "path"; "idn"; "unique"])
  || bool_decide (is_Some (attrs self !! name))
  || bool_decide (name ∈ class_attrs).

Definition setattr (self : t) (name value : string) : t :=
  mk (excludes self) (path self) (idn self) (unique self)
     (<[name := value]> (attrs self)).

Definition readable (self : t) : M bool :=
  os_access fs_readable (path self).

Definition unique_idn (self : t) : M bool := ret (unique self).

(** The list [errs] built by [err]. *)
Definition errs (self : t) : M (list string) :=
  do r <- readable self;
  let errs := if negb r then ["not readable"] else [] in
  do u <- unique_idn self;
  if negb u then
    do st <- get_state;
    match identifiers st !! idn self with
    | Some first => ret (errs ++ [idn self +:+ " conflicts with " +:+ first])
    | None => raise (KeyError (idn self))
    end
  else ret errs.

Definition err (self : t) : M string :=
  do errs <- errs self;
  ret (PyStr.join "," errs).

(** The loop of [size] that extends [args]. *)
Fixpoint size_args (self : t) (excls : list PyVal) (args : list string)
  : M (list string) :=
  match excls with
  | [] => ret args
  | PStr excl :: rest =>
      size_args self rest (args ++ ["--exclude"; path self +:+ "/" +:+ excl])
  | _ :: _ => raise TypeError
  end.

(** Inside the class body the attribute [self.__size] is the mangled
    name [_Source__size]; the string given to [hasattr] is not
    mangled. *)
Definition size (self : t) : M (string * t) :=
  do self <-
    (if negb (hasattr self "__size") then
       do args <- size_args self (excludes self) ["du"; "-sh"; path self];
       do tmp <- check_output args;
       match PyStr.first_word tmp with
       | Some tok => ret (setattr self "_Source__size" tok)
       | None => raise IndexError
       end
     else ret self);
  match attrs self !! "_Source__size" with
  | Some v => ret (v, self)
  | None => raise AttributeError
  end.

Definition update_padding (self : t) : M unit :=
  λ _ st,
    let padding' := (String.length (path self) * 3 / 2)%nat in
    if (padding st <? padding')%nat then
      (Ok tt, mkState (identifiers st) padding' (fs st) (stdin st)
                      (rsync_calls st) (trace st))
    else (Ok tt, st).

Definition show_excludes (self : t) : M string :=
  do w <- get_world;
  ret (if (0 <? length (excludes self))%nat then
         PyStr.tab +:+ "excluding" +:+ PyStr.nl
         +:+ String.concat ""
               (map (λ excl,
                     PyStr.tab +:+ PyStr.tab
                     +:+ match excl with PStr e => e | _ => w_str w excl end
                     +:+ PyStr.nl)
                    (excludes self))
       else "").

Definition show (self : t) (size_ : bool) : M t :=
  do st <- get_state;
  let output := Color.yellow (PyStr.ljust (path self) (padding st)) in
  do e <- err self;
  do '(output, self) <-
    (if negb (bool_decide (e = "")) then ret (output +:+ Color.red e, self)
     else
       let output := output +:+ Color.green "ok" in
       if size_ then
         do '(sz, self) <- size self;
         ret (output +:+ PyStr.rjust sz (padding st), self)
       else ret (output, self));
  let output := output +:+ PyStr.nl in
  do excl <- show_excludes self;
  run print_end (output +:+ excl) "";
  ret self.

Definition exclude (self : t) (s : PyVal) : t :=
  mk (excludes self ++ [s]) (path self) (idn self) (unique self) (attrs self).

(** [Source(s)] *)
Definition init (s : PyVal) : M t :=
  match s with
  | PStr p =>
      let path := trim_trailing_slash p in
      let idn := OsPath.basename path in
      run update_padding (mk [] path idn false ∅);
      λ _ st,
        if bool_decide (is_Some (identifiers st !! idn)) then
          (Ok (mk [] path idn false ∅), st)
        else
          (Ok (mk [] path idn true ∅),
           mkState (<[idn := p]> (identifiers st)) (padding st) (fs st)
                   (stdin st) (rsync_calls st) (trace st))
  | _ => raise AttributeError   (* s.endswith *)
  end.

End Source.

Module Target.

Record t : Type := mk { path : string }.

Definition writable (self : t) : M bool :=
  os_access fs_writable (path self).

Definition exists_ (self : t) : M bool :=
  do st <- get_state;
  ret (fs_exists (fs st) (path self)).

Definition sanity (self : t) : M bool :=
  do e <- exists_ self;
  if e then writable self else ret false.

Definition create (self : t) : M unit :=
  do e <- exists_ self;
  if e then raise (AssertionError AssertCreate)
  else
    run confirm ("Target " +:+ Color.cyan (path self)
                 +:+ " does not exist - create?") false;
    try_except (makedirs (path self))
               (err ("could not create " +:+ Color.cyan (path self))).

Definition showSource (self : t) (source : Source.t) : M unit :=
  let location := OsPath.join (path self) (Source.idn source) in
  do st <- get_state;
  let output := Color.blue (PyStr.ljust location (padding st)) in
  do output <-
    (if negb (fs_exists (fs st) location) then
       ret (output +:+ Color.green "to be created")
     else
       let output := output +:+ Color.purple "exists" in
       do size <- check_output ["du"; "-sh"; location];
       match PyStr.first_word size with
       | Some size =>
           (* a negative width is a sign in the format specifier *)
           if (padding st <? 4)%nat then raise ValueError
           else ret (output +:+ PyStr.rjust size (padding st - 4))
       | None => raise IndexError
       end);
  print output.

(** The loop of [rsync] that extends [args]. *)
Fixpoint rsync_args (source : Source.t) (excls : list PyVal)
  (args : list string) : M (list string) :=
  match excls with
  | [] => ret args
  | PStr excl :: rest =>
      rsync_args source rest
        (args ++ ["--exclude"; Source.idn source +:+ "/" +:+ excl])
  | _ :: _ => raise TypeError
  end.

Definition rsync (self : t) (source : Source.t) : M unit :=
  let location := OsPath.join (path self) (Source.idn source) in
  run print (Color.purple "backup.py" +:+ ": Syncing "
             +:+ Color.yellow (Source.path source) +:+ " => "
             +:+ Color.blue location);
  do args <- rsync_args source (Source.excludes source)
               ["rsync"; "-i"; "--info=progress2"; "-a"; "--links";
                "--delete"; "--delete-excluded"];
  let args := args ++ [Source.path source; path self] in
  do _ <- subprocess_call args;
  ret tt.

(** [Target(s)] *)
Definition init (s : PyVal) : M t :=
  match s with
  | PStr s => ret (mk (PyStr.strip s))
  | _ => raise AttributeError   (* s.strip *)
  end.

End Target.

Definition makelist (l : PyVal) : PyVal :=
  match l with
  | PStr _ => PList [l]
  | _ => l
  end.

Definition getpath (item : PyVal) : M PyVal :=
  match item with
  | PDict d => dict_get d "path"
  | _ => ret item
  end.

Definition getexclude (item : PyVal) : M PyVal :=
  match item with
  | PDict d => do e <- dict_get d "exclude"; ret (makelist e)
  | _ => ret (PList [])
  end.

(** The body of the loop of [readconfig] for one entry. *)
Definition readconfig_item (item : PyVal) : M Source.t :=
  do p <- getpath item;
  do source <- Source.init p;
  do excl <- getexclude item;
  do excls <- py_iter excl;
  ret (fold_left Source.exclude excls source).

Fixpoint readconfig_loop (items : list PyVal) (sources : list Source.t)
  : M (list Source.t) :=
  match items with
  | [] => ret sources
  | item :: rest =>
      do source <- readconfig_item item;
      readconfig_loop rest (sources ++ [source])
  end.

(** The value of the expression checked by the [assert] of
    [readconfig]; [and] evaluates its operands left to right and stops
    at the first false one. *)
Definition readconfig_check (config : PyVal) : M bool :=
  match config with
  | PDict d =>
      if bool_decide (length d = 2%nat) then
        do s <- dict_get d "sources";
        match s with
        | PList _ =>
            do t <- dict_get d "target";
            ret (match t with PStr _ => true | _ => false end)
        | _ => ret false
        end
      else ret false
  | _ => raise AttributeError   (* config.keys *)
  end.

(** [config[key]] once the check has passed. *)
Definition subscript (config : PyVal) (key : string) : M PyVal :=
  match config with
  | PDict d => dict_get d key
  | _ => raise TypeError
  end.

Definition json_load (configfile : string) : M PyVal :=
  do w <- get_world;
  match w_json w configfile with
  | Loaded v => ret v
  | OpenFailed => raise OSError
  | DecodeFailed => raise ValueError
  end.

Definition readconfig (configfile : string) : M (list Source.t * Target.t) :=
  do config <- json_load configfile;
  do ok <- readconfig_check config;
  if negb ok then raise (AssertionError AssertConfig)
  else
    do l <- subscript config "sources";
    do items <- py_iter l;
    do sources <- readconfig_loop items [];
    do t <- subscript config "target";
    do target <- Target.init t;
    ret (sources, target).

(** The body of the second loop of [main]. *)
Definition main_check (source : Source.t) : M unit :=
  do e <- Source.err source;
  if negb (bool_decide (e = "")) then
    err "one or more sources failed sanity check"
  else ret tt.

(** [main] up to and including the final confirmation. *)
Definition main_prepare (args : Args) : M (list Source.t * Target.t) :=
  do '(sources, target) <- readconfig (config args);
  do sources <- for_each_upd (λ source, Source.show source true) sources;
  run for_each main_check sources;
  do e <- Target.exists_ target;
  run (if negb e then Target.create target else ret tt);
  do wr <- Target.writable target;
  run (if negb wr then err "target not writable" else ret tt);
  do sane <- Target.sanity target;
  run (if negb sane then raise (AssertionError AssertSanity) else ret tt);
  run print (PyStr.nl +:+ "Locations to be synced:");
  run for_each (Target.showSource target) sources;
  run confirm "Proceed?" false;
  ret (sources, target).

(** The sync phase: the last loop of [main] and the final message. *)
Definition main_sync (sources : list Source.t) (target : Target.t) : M unit :=
  run for_each (Target.rsync target) sources;
  print (Color.purple "All done!").

(** [main()], given the namespace returned by [getargs()].  The field
    [autoconfirm] is not read anywhere in the function. *)
Definition main (args : Args) : M unit :=
  do '(sources, target) <- main_prepare args;
  main_sync sources target.

(** A run of the script from a fresh interpreter. *)
Definition initial_state (f : filesystem) (lines : list string) : state :=
  mkState ∅ 0 f lines 0 [].

(** ** Scenarios used as concrete inputs *)

Module Scenario.

Definition du_line : string := "4.0K" +:+ PyStr.tab +:+ "x" +:+ PyStr.nl.

(** [/data/photos] is readable, [/backup] exists and is writable, du
    succeeds everywhere. *)
Definition fsA : filesystem :=
  mkFs (λ p, bool_decide (p = "/data/photos"))
       (λ p, bool_decide (p = "/backup"))
       (λ p, bool_decide (p ∈ ["/backup"; "/data/photos"]))
       (λ _, Some du_line).

Definition world_of (doc : PyVal) : world :=
  mkWorld (λ _, Loaded doc) (λ _, "?") (λ _, None) (λ _ _, 0).

(** Scenario A of the specification. *)
Definition docA : PyVal :=
  PDict [("sources", PList [PStr "/data/photos"]); ("target", PStr "/backup")].

(** Two sources with the same final component. *)
Definition docC : PyVal :=
  PDict [("sources",
          PList [PStr "/a/archive";
                 PDict [("path", PStr "/b/archive/"); ("exclude", PStr "tmp")]]);
         ("target", PStr "/backup")].

(** A third top-level key. *)
Definition docExtra : PyVal :=
  PDict [("sources", PList []); ("target", PStr "/backup"); ("verbose", PBool true)].


(** [/ok] is readable but du exits with a non-zero status on it;
    [/bad] is not readable. *)
Definition fsDu : filesystem :=
  mkFs (λ p, bool_decide (p = "/ok"))
       (λ p, bool_decide (p = "/backup"))
       (λ p, bool_decide (p ∈ ["/backup"; "/ok"; "/bad"]))
       (λ _, None).

Definition docDu : PyVal :=
  PDict [("sources", PList [PStr "/ok"; PStr "/bad"]); ("target", PStr "/backup")].

(** rsync fails on every source. *)
Definition world_rsync_fails (doc : PyVal) : world :=
  mkWorld (λ _, Loaded doc) (λ _, "?") (λ _, None) (λ _ _, 23).

(** Two sources, the second with two exclusion patterns. *)
Definition fsTwo : filesystem :=
  mkFs (λ p, bool_decide (p ∈ ["/data/photos"; "/home/docs"]))
       (λ p, bool_decide (p = "/backup"))
       (λ p, bool_decide (p ∈ ["/backup"; "/data/photos"; "/home/docs"]))
       (λ _, Some du_line).

Definition docTwo : PyVal :=
  PDict [("sources",
          PList [PStr "/data/photos";
                 PDict [("path", PStr "/home/docs/");
                        ("exclude", PList [PStr "*.tmp"; PStr "cache"])]]);
         ("target", PStr "/backup")].

(** The target is missing and can be created. *)
Definition fsMissing : filesystem :=
  mkFs (λ p, bool_decide (p = "/data/photos"))
       (λ _, false)
       (λ p, bool_decide (p = "/data/photos"))
       (λ _, Some du_line).

Definition fsCreated : filesystem :=
  mkFs (λ p, bool_decide (p = "/data/photos"))
       (λ p, bool_decide (p = "/backup"))
       (λ p, bool_decide (p = "/data/photos"))
       (λ _, Some du_line).

Definition world_creates (doc : PyVal) : world :=
  mkWorld (λ _, Loaded doc) (λ _, "?") (λ _, Some fsCreated) (λ _ _, 0).

(** Two calls of [size] on the same object. *)
Definition size_twice (self : Source.t) : M (string * string) :=
  do '(a, self) <- Source.size self;
  do '(b, self) <- Source.size self;
  ret (a, b).

Definition photos : Source.t := Source.mk [] "/data/photos" "photos" true ∅.

(** Two sources with the same final component, which holds a NUL
    character (written \u0000 in the JSON file). *)
Definition docNul : PyVal :=
  PDict [("sources", PList [PStr ("/a/x" +:+ PyStr.nul); PStr ("/b/x" +:+ PyStr.nul)]);
         ("target", PStr "/backup")].

(** The second source of [docNul], as [readconfig] constructs it. *)
Definition nul_dup : Source.t :=
  Source.mk [] ("/b/x" +:+ PyStr.nul) ("x" +:+ PyStr.nul) false ∅.

End Scenario.

(** The schema in the words of the specification: exactly the two
    top-level keys [sources], a list, and [target], a string. *)
Definition conforms (doc : PyVal) : Prop :=
  ∃ d l t, doc = PDict d
    ∧ map fst d ≡ₚ ["sources"; "target"]
    ∧ dict_lookup d "sources" = Some (PList l)
    ∧ dict_lookup d "target" = Some (PStr t).

(** The path given by a source entry: the entry itself when it is a
    string, its [path] field when it is an object. *)
Definition item_path (item : PyVal) : option string :=
  match item with
  | PStr p => Some p
  | PDict d =>
      match dict_lookup d "path" with
      | Some (PStr p) => Some p
      | _ => None
      end
  | _ => None
  end.

(** The pieces of a path between its slashes. *)
Fixpoint split_slash (p : string) : list string :=
  match p with
  | String c p' =>
      if Ascii.eqb c "/" then "" :: split_slash p'
      else match split_slash p' with
           | x :: l => String c x :: l
           | [] => [String c ""]
           end
  | EmptyString => [""]
  end.

(** The final path component "after trailing-slash stripping", in the
    words of the specification: a path that ends in a slash has an empty
    last piece, which goes with that slash; the component is the last
    piece of what is left. *)
Definition final_component (p : string) : string :=
  match rev (split_slash p) with
  | "" :: c :: _ => c
  | c :: _ => c
  | [] => ""
  end.

(** The uniqueness flags of sources constructed one after the other,
    starting from a registry whose keys are [seen]. *)
Fixpoint flags_ok (seen : gset string) (sources : list Source.t) : Prop :=
  match sources with
  | [] => True
  | s :: rest =>
      Source.unique s = bool_decide (Source.idn s ∉ seen)
      ∧ flags_ok ({[Source.idn s]} ∪ seen) rest
  end.

(** ** What a computation may do to the state *)

(** Events that change nothing outside the process. *)
Definition quiet (e : event) : Prop :=
  match e with
  | EvStdout _ | EvDu _ => True
  | _ => False
  end.

Definition not_rsync (e : event) : Prop :=
  match e with
  | EvRsync _ => False
  | _ => True
  end.

(** [st'] extends the trace of [st] by events that satisfy [P]. *)
Definition extends (P : event → Prop) (st st' : state) : Prop :=
  ∃ evs, trace st' = trace st ++ evs ∧ Forall P evs.

Definition same_store (st st' : state) : Prop :=
  identifiers st' = identifiers st ∧ padding st' = padding st
  ∧ fs st' = fs st ∧ stdin st' = stdin st ∧ rsync_calls st' = rsync_calls st.

(** A computation that only reads the store and only writes to stdout
    or runs du. *)
Definition Reads {A} (m : M A) : Prop :=
  ∀ w st, same_store st (snd (m w st)) ∧ extends quiet st (snd (m w st)).

(** A computation all of whose events satisfy [P]. *)
Definition Emits (P : event → Prop) {A} (m : M A) : Prop :=
  ∀ w st, extends P st (snd (m w st)).

(** A computation whose exit codes satisfy [R] and whose uncaught
    exceptions satisfy [E]. *)
Definition Returns (R : Z → Prop) (E : exn → Prop) {A} (m : M A) : Prop :=
  ∀ w st,
    match fst (m w st) with
    | Ok _ => True
    | Exit code => R code
    | Raise e => E e
    end.

(** Two objects that differ at most in the attributes added after
    construction. *)
Definition same_fields (s s' : Source.t) : Prop :=
  Source.path s' = Source.path s ∧ Source.idn s' = Source.idn s
  ∧ Source.unique s' = Source.unique s ∧ Source.excludes s' = Source.excludes s.

(** The strings of a list of values. *)
Definition strs_of (l : list PyVal) : list string :=
  omap (λ v, match v with PStr s => Some s | _ => None end) l.

Definition is_str (v : PyVal) : Prop :=
  match v with PStr _ => True | _ => False end.

(** The command line of du for a source. *)
Definition du_cmd (src : Source.t) : list string :=
  ["du"; "-sh"; Source.path src]
  ++ concat (map (λ excl, ["--exclude"; Source.path src +:+ "/" +:+ excl])
               (strs_of (Source.excludes src))).

(** The command line of rsync for a source. *)
Definition rsync_cmd (target : Target.t) (src : Source.t) : list string :=
  ["rsync"; "-i"; "--info=progress2"; "-a"; "--links"; "--delete";
   "--delete-excluded"]
  ++ concat (map (λ excl, ["--exclude"; Source.idn src +:+ "/" +:+ excl])
               (strs_of (Source.excludes src)))
  ++ [Source.path src; Target.path target].

(** du succeeds on a source and prints at least one word. *)
Definition sizing_succeeds (f : filesystem) (src : Source.t) : Prop :=
  Forall is_str (Source.excludes src)
  ∧ ∃ out tok, fs_du f (du_cmd src) = Some out ∧ PyStr.first_word out = Some tok.

(** A text that begins with the path column of a source. *)
Definition report_of (self : Source.t) (pad : nat) (text : string) : Prop :=
  ∃ rest, text = Color.yellow (PyStr.ljust (Source.path self) pad) +:+ rest.

(** The line printed by [err]. *)
Definition error_line (msg : string) : string :=
  (Color.red "Error:" +:+ " " +:+ msg) +:+ PyStr.nl.

(** An exception that is not an [AssertionError]. *)
Definition not_assertion (e : exn) : Prop :=
  match e with AssertionError _ => False | _ => True end.

(** An exception that is not the failure of one of the two assertions
    on the target. *)
Definition not_target_assertion (e : exn) : Prop :=
  e ≠ AssertionError AssertCreate ∧ e ≠ AssertionError AssertSanity.

(** A source does not pass its readiness check: [os.access] does not
    answer [True] on its path, or its identifier is not unique. *)
Definition fails (f : filesystem) (src : Source.t) : Prop :=
  fs_readable f (Source.path src) = false ∨ Source.unique src = false.

Definition failsb (f : filesystem) (src : Source.t) : bool :=
  negb (fs_readable f (Source.path src)) || negb (Source.unique src).

(** A source entry the loader can turn into a [Source]: a string, or
    an object whose [path] is a string and whose [exclude] is a string,
    a list or an object. *)
Definition well_formed_item (item : PyVal) : bool :=
  match item with
  | PStr _ => true
  | PDict d =>
      match dict_lookup d "path", dict_lookup d "exclude" with
      | Some (PStr _), Some (PStr _ | PList _ | PDict _) => true
      | _, _ => false
      end
  | _ => false
  end.

(** A computation whose every exit, with its code and the trace at that
    point, satisfies [P]. *)
Definition Exits (P : Z → list event → Prop) {A} (m : M A) : Prop :=
  ∀ w st,
    match m w st with
    | (Exit code, st') => P code (trace st')
    | _ => True
    end.

(** How the script announces an exit: status 1 after a line of [err],
    status 3 after the line of a declined prompt. *)
Definition announced (code : Z) (tr : list event) : Prop :=
  (code = 1 ∧ ∃ msg tr', tr = tr' ++ [EvStdout (error_line msg)])
  ∨ (code = 3 ∧ ∃ tr', tr = tr' ++ [EvStdout ("Operation aborted." +:+ PyStr.nl)]).

(** A computation that writes no event. *)
Definition Silent {A} (m : M A) : Prop :=
  ∀ w st, trace (snd (m w st)) = trace st.

(** A computation that leaves the filesystem and stdin alone. *)
Definition Keeps {A} (m : M A) : Prop :=
  ∀ w st, fs (snd (m w st)) = fs st ∧ stdin (snd (m w st)) = stdin st.

Definition not_makedirs (e : event) : Prop :=
  match e with
  | EvMakedirs _ => False
  | _ => True
  end.

(** The events of one kind in a trace. *)
Definition du_events (tr : list event) : list (list string) :=
  omap (λ e, match e with EvDu args => Some args | _ => None end) tr.

Definition rsync_events (tr : list event) : list (list string) :=
  omap (λ e, match e with EvRsync args => Some args | _ => None end) tr.

Definition stdout_events (tr : list event) : list string :=
  omap (λ e, match e with EvStdout text => Some text | _ => None end) tr.

Definition input_events (tr : list event) : list string :=
  omap (λ e, match e with EvInput prompt => Some prompt | _ => None end) tr.

Definition makedirs_events (tr : list event) : list string :=
  omap (λ e, match e with EvMakedirs p => Some p | _ => None end) tr.
(** A computation that calls [os.makedirs] at most once, and then on
    [p]. *)
Definition AtMost (p : string) {A} (m : M A) : Prop :=
  ∀ w st, ∃ l, (l = [] ∨ l = [p])
    ∧ makedirs_events (trace (snd (m w st))) = makedirs_events (trace st) ++ l.

(** A computation that, started where [p] exists, does not call
    [os.makedirs] and leaves the filesystem as it is. *)
Definition Guarded (p : string) {A} (m : M A) : Prop :=
  ∀ w st, fs_exists (fs st) p = true →
    makedirs_events (trace (snd (m w st))) = makedirs_events (trace st)
    ∧ fs (snd (m w st)) = fs st.

(** [showSource] can report the destination of a source: either the
    destination does not exist, or du succeeds on it, prints a word,
    and the column is wide enough for the format width not to be
    negative. *)
Definition destination_ok (f : filesystem) (pad : nat) (target : Target.t)
    (src : Source.t) : Prop :=
  let location := OsPath.join (Target.path target) (Source.idn src) in
  fs_exists f location = false
  ∨ (∃ out size, fs_du f ["du"; "-sh"; location] = Some out
                 ∧ PyStr.first_word out = Some size
                 ∧ (4 ≤ pad)%nat).

(** A string made of whitespace only. *)
Fixpoint all_space (s : string) : bool :=
  match s with
  | String c s' => PyStr.isspace c && all_space s'
  | EmptyString => true
  end.

Example basename_ex :
  OsPath.basename "/data/photos" = "photos" ∧ OsPath.basename "photos" = "photos"
  ∧ OsPath.basename "/a/" = "" ∧ OsPath.join "/b" "x" = "/b/x"
  ∧ OsPath.join "/b/" "x" = "/b/x" ∧ OsPath.join "" "x" = "x".
Proof. repeat split; reflexivity. Qed.

Example strip_ex :
  PyStr.strip "  /backup " = "/backup" ∧ PyStr.first_word ("4.0K" +:+ PyStr.tab +:+ "/a" +:+ PyStr.nl) = Some "4.0K"
  ∧ PyStr.first_word "  " = None ∧ PyStr.ljust "abc" 6 = "abc   " ∧ PyStr.rjust "abc" 2 = "abc".
Proof. repeat split; reflexivity. Qed.

(** * Properties *)

(** ** The confirmation gate *)

Lemma confirm_skipped s w st : confirm s true w st = (Ok tt, st).
Proof. reflexivity. Qed.

Lemma confirm_eof s w st : stdin st = [] → fst (confirm s false w st) = Raise EOFError.
Proof. intros H. unfold confirm, bind, input. by rewrite H. Qed.

Lemma err_status {A} msg w st : status (fst (@err A msg w st)) = 1.
Proof. reflexivity. Qed.

(** C7: with [skipped] false the gate reads one line; it proceeds exactly
    when that line is ["y"], and on any other line (the empty one too)
    the process exits with status 3, which is neither the status of
    [err] nor that of an uncaught exception (both 1). *)
Theorem confirm_interactive (s ans : string) (rest : list string) (w : world) (st : state) :
  stdin st = ans :: rest →
  (fst (confirm s false w st) = Ok tt ↔ ans = "y")
  ∧ (ans ≠ "y" →
       fst (confirm s false w st) = Exit 3
       ∧ status (fst (confirm s false w st)) = 3
       ∧ trace (snd (confirm s false w st))
         = trace st ++ [EvInput (s +:+ " [y/N] "); EvStdout ("Operation aborted." +:+ PyStr.nl)])
  ∧ stdin (snd (confirm s false w st)) = rest
  ∧ (∀ msg w' st', status (fst (@err unit msg w' st')) = 1)
  ∧ (∀ e, status (@Raise unit e) = 1)
  ∧ 3 ≠ 1.
Proof.
  intros Hin. unfold confirm, bind, input. rewrite Hin. simpl.
  case_bool_decide as Hy; simpl.
  - split; [done|]. split; [done|]. by repeat split.
  - split; [split; [discriminate|done]|].
    split; [|by repeat split].
    intros _. by rewrite <- app_assoc.
Qed.

Lemma confirm_interactive_witness :
  fst (confirm "Proceed?" false (Scenario.world_of Scenario.docA)
         (initial_state Scenario.fsA [""])) = Exit 3.
Proof.
  pose proof (confirm_interactive "Proceed?" "" [] (Scenario.world_of Scenario.docA)
                (initial_state Scenario.fsA [""]) eq_refl) as (_ & H & _).
  apply H. discriminate.
Defined.

(** ** The command-line flag *)

Lemma main_ignores_autoconfirm c b1 b2 : main (mkArgs c b1) = main (mkArgs c b2).
Proof. reflexivity. Qed.

(** C1, at the failing input: with [--autoconfirm] given, the target in
    place and the only source sane, the run still prompts, reads the line
    and exits with status 3 on the answer "n". *)
Theorem autoconfirm_still_prompts :
  let r := main (mkArgs "backup.json" true) (Scenario.world_of Scenario.docA)
                (initial_state Scenario.fsA ["n"]) in
  fst r = Exit 3
  ∧ input_events (trace (snd r)) = ["Proceed? [y/N] "]
  ∧ stdin (snd r) = []
  ∧ rsync_events (trace (snd r)) = [].
Proof. vm_compute. repeat split; reflexivity. Qed.

(** ** Size computation *)

Lemma hasattr_size self :
  Source.hasattr self "__size" = bool_decide (is_Some (Source.attrs self !! "__size")).
Proof. unfold Source.hasattr. by destruct (bool_decide (is_Some _)). Qed.

(** Every call of [size] on an object that has no attribute literally
    named [__size] runs du, whether or not an earlier call has stored
    its result. *)
Lemma size_runs_du self w st v self' st' :
  Source.attrs self !! "__size" = None →
  Source.size self w st = (Ok (v, self'), st') →
  Source.attrs self' !! "__size" = None
  ∧ Source.path self' = Source.path self
  ∧ Source.excludes self' = Source.excludes self
  ∧ ∃ args, Source.size_args self (Source.excludes self)
              ["du"; "-sh"; Source.path self] w st = (Ok args, st)
            ∧ trace st' = trace st ++ [EvDu args].
Proof.
  intros Hno. unfold Source.size. rewrite hasattr_size, Hno. simpl.
  unfold bind at 1 2.
  assert (Hargs : ∀ excls args0 r st0,
    Source.size_args self excls args0 w st = (r, st0) → st0 = st).
  { induction excls as [|[] rest IH]; simpl; intros args0 r st0 H;
      try (by inversion H). eauto. }
  destruct (Source.size_args self _ _ w st) as [[args| |] st0] eqn:Ha;
    try discriminate.
  apply Hargs in Ha as Hst. subst st0.
  unfold bind, check_output, bind, emit, get_state. simpl.
  destruct (fs_du (fs st) args) as [out|]; simpl; try discriminate.
  destruct (PyStr.first_word out) as [tok|]; simpl; try discriminate.
  rewrite lookup_insert_eq. intros [= <- <- <-]. simpl.
  split; [by rewrite lookup_insert_ne|]. repeat split. eauto.
Qed.

(** C2, at the failing input: two calls of [size] on one [Source] run
    du twice. *)
Theorem size_not_memoized :
  let r := Scenario.size_twice Scenario.photos (Scenario.world_of Scenario.docA)
             (initial_state Scenario.fsA []) in
  fst r = Ok ("4.0K", "4.0K")
  ∧ du_events (trace (snd r))
    = [["du"; "-sh"; "/data/photos"]; ["du"; "-sh"; "/data/photos"]].
Proof. vm_compute. split; reflexivity. Qed.

(** ** The configuration loader *)

Lemma init_str p w st :
  ∃ u st',
    Source.init (PStr p) w st
    = (Ok (Source.mk [] (trim_trailing_slash p)
             (OsPath.basename (trim_trailing_slash p)) u ∅), st')
    ∧ u = negb (bool_decide (is_Some (identifiers st !! OsPath.basename (trim_trailing_slash p))))
    ∧ (u = false → identifiers st' = identifiers st)
    ∧ (u = true → identifiers st'
                  = <[OsPath.basename (trim_trailing_slash p) := p]> (identifiers st))
    ∧ fs st' = fs st ∧ stdin st' = stdin st ∧ trace st' = trace st
    ∧ rsync_calls st' = rsync_calls st.
Proof.
  unfold Source.init, bind, Source.update_padding. simpl.
  destruct (_ <? _)%nat; simpl; case_bool_decide; simpl;
    eexists _, _; (split; [reflexivity|]); simpl; repeat split; done.
Qed.

Lemma fold_exclude excls src :
  fold_left Source.exclude excls src
  = Source.mk (Source.excludes src ++ excls) (Source.path src) (Source.idn src)
      (Source.unique src) (Source.attrs src).
Proof.
  revert src. induction excls as [|e rest IH]; intros src; simpl.
  - rewrite app_nil_r. by destruct src.
  - rewrite IH. simpl. by rewrite <- app_assoc.
Qed.



(** A conforming document passes the check of [readconfig]. *)
Lemma conforms_check doc w st :
  conforms doc → readconfig_check doc w st = (Ok true, st).
Proof.
  intros (d & l & t & -> & Hperm & Hs & Ht). unfold readconfig_check.
  apply Permutation_length in Hperm. rewrite length_map in Hperm.
  rewrite bool_decide_eq_true_2 by done.
  unfold bind, dict_get. by rewrite Hs, Ht.
Qed.

Lemma check_conforms doc w st st' :
  readconfig_check doc w st = (Ok true, st') → conforms doc.
Proof.
  destruct doc as [| | | | | |d]; try discriminate.
  unfold readconfig_check. case_bool_decide as Hlen; [|discriminate].
  unfold bind, dict_get.
  destruct (dict_lookup d "sources") as [[| | | | |l|]|] eqn:Hs; try discriminate.
  destruct (dict_lookup d "target") as [[| | | |t| |]|] eqn:Ht; try discriminate.
  intros _. exists d, l, t. repeat split; try done.
  destruct d as [|[k1 v1] [|[k2 v2] [|? ?]]]; try discriminate.
  simpl in *. repeat case_bool_decide; simplify_eq; try done.
  apply perm_swap.
Qed.

(** C8: a document that does not have exactly the keys [sources] (a
    list) and [target] (a string) makes [readconfig] raise, and the state
    it leaves is the one it started from: no [Source], no [Target], no
    entry in the identifier registry. *)
Theorem readconfig_rejects (f : string) (doc : PyVal) (w : world) (st : state) :
  w_json w f = Loaded doc →
  ¬ conforms doc →
  ∃ e, readconfig f w st = (Raise e, st)
       ∧ (e = AssertionError AssertConfig ∨ e = AttributeError
          ∨ e = KeyError "sources" ∨ e = KeyError "target").
Proof.
  intros Hj Hn. unfold readconfig, json_load, get_world.
  unfold bind at 1 2. rewrite Hj. unfold ret at 1.
  unfold bind at 1.
  destruct (readconfig_check doc w st) as [[[|]| |] st'] eqn:Hc.
  - by apply check_conforms in Hc.
  - simpl. unfold raise.
    assert (st' = st) as ->; [|eauto].
    destruct doc; try discriminate. unfold readconfig_check in Hc.
    case_bool_decide; [|by inversion Hc].
    unfold bind, dict_get in Hc.
    destruct (dict_lookup d "sources") as [[]|]; try (by inversion Hc).
    destruct (dict_lookup d "target") as [[]|]; by inversion Hc.
  - exfalso. destruct doc; try discriminate. unfold readconfig_check in Hc.
    case_bool_decide; [|by inversion Hc].
    unfold bind, dict_get in Hc.
    destruct (dict_lookup d "sources") as [[]|]; try (by inversion Hc).
    destruct (dict_lookup d "target") as [[]|]; by inversion Hc.
  - destruct doc; try (inversion Hc; subst; eauto 10; fail).
    unfold readconfig_check in Hc.
    case_bool_decide; [|by inversion Hc].
    unfold bind, dict_get in Hc.
    destruct (dict_lookup d "sources") as [[]|]; try (inversion Hc; subst; eauto 10; fail).
    destruct (dict_lookup d "target") as [[]|]; inversion Hc; subst; eauto 10.
Qed.

Lemma docExtra_not_conforms : ¬ conforms Scenario.docExtra.
Proof.
  intros (d & l & t & [= <-] & Hperm & _). by apply Permutation_length in Hperm.
Defined.

Lemma readconfig_rejects_witness :
  ∃ e, readconfig "backup.json" (Scenario.world_of Scenario.docExtra)
         (initial_state Scenario.fsA [])
       = (Raise e, initial_state Scenario.fsA [])
       ∧ (e = AssertionError AssertConfig ∨ e = AttributeError
          ∨ e = KeyError "sources" ∨ e = KeyError "target").
Proof.
  apply (readconfig_rejects "backup.json" Scenario.docExtra); [reflexivity|].
  exact docExtra_not_conforms.
Defined.

(** ** Source validation *)

Lemma string_length_app (s1 s2 : string) :
  String.length (s1 +:+ s2) = (String.length s1 + String.length s2)%nat.
Proof. induction s1 as [|c s1 IH]; simpl; [done|by rewrite IH]. Qed.

Lemma conflict_not_readable (i first : string) :
  i +:+ " conflicts with " +:+ first ≠ "not readable".
Proof.
  intros H. apply (f_equal String.length) in H.
  rewrite !string_length_app in H. simpl in H. lia.
Qed.

Lemma conflict_nonempty (i first : string) :
  i +:+ " conflicts with " +:+ first ≠ "".
Proof.
  intros H. apply (f_equal String.length) in H.
  rewrite !string_length_app in H. simpl in H. lia.
Qed.

(** [os.access] answers on a path without NUL and raises on a path
    with one. *)
Lemma os_access_ok answer p w st :
  has_nul p = false → os_access answer p w st = (Ok (answer (fs st) p), st).
Proof. intros H. unfold os_access. by rewrite H. Qed.

Lemma os_access_nul answer p w st :
  has_nul p = true → os_access answer p w st = (Raise ValueError, st).
Proof. intros H. unfold os_access. by rewrite H. Qed.

Lemma readable_no_nul f p : fs_readable f p = true → has_nul p = false.
Proof. unfold fs_readable. by destruct (has_nul p). Qed.

Lemma writable_no_nul f p : fs_writable f p = true → has_nul p = false.
Proof. unfold fs_writable. by destruct (has_nul p). Qed.

(** The reasons [err] collects, as a function of the two checks. *)
Lemma errs_eq self first w st :
  has_nul (Source.path self) = false →
  identifiers st !! Source.idn self = Some first →
  Source.errs self w st
  = (Ok ((if fs_readable (fs st) (Source.path self) then [] else ["not readable"])
         ++ (if Source.unique self then []
             else [Source.idn self +:+ " conflicts with " +:+ first])), st).
Proof.
  intros Hnul Hreg. unfold Source.errs, Source.readable. unfold bind at 1.
  rewrite os_access_ok by done.
  unfold bind, Source.unique_idn, get_state, ret.
  simpl. destruct (fs_readable _ _), (Source.unique self); simpl; by rewrite ?Hreg.
Qed.

(** On a path with a NUL character [err] collects nothing: the call of
    [os.access] raises, whatever the uniqueness flag. *)
Lemma errs_nul self w st :
  has_nul (Source.path self) = true →
  Source.errs self w st = (Raise ValueError, st)
  ∧ Source.err self w st = (Raise ValueError, st).
Proof.
  intros Hnul.
  assert (Source.errs self w st = (Raise ValueError, st)) as He.
  { unfold Source.errs, Source.readable. unfold bind at 1.
    by rewrite os_access_nul. }
  split; [done|]. unfold Source.err, bind. by rewrite He.
Qed.

(** The reasons and the string [err] makes of them. *)
Lemma errs_spec (self : Source.t) (first : string) (w : world) (st : state) :
  has_nul (Source.path self) = false →
  identifiers st !! Source.idn self = Some first →
  let r := fs_readable (fs st) (Source.path self) in
  let conflict := Source.idn self +:+ " conflicts with " +:+ first in
  ∃ errs,
    Source.errs self w st = (Ok errs, st)
    ∧ Source.err self w st = (Ok (PyStr.join "," errs), st)
    ∧ ("not readable" ∈ errs ↔ r = false)
    ∧ (conflict ∈ errs ↔ Source.unique self = false)
    ∧ (r = false → Source.unique self = false →
       PyStr.join "," errs = "not readable" +:+ "," +:+ conflict)
    ∧ (PyStr.join "," errs = "" ↔ errs = [])
    ∧ (errs = [] ↔ r = true ∧ Source.unique self = true).
Proof.
  intros Hnul Hreg r conflict. eexists. split; [by apply errs_eq|].
  split; [unfold Source.err, bind; by rewrite (errs_eq _ first)|].
  pose proof (conflict_not_readable (Source.idn self) first) as Hne.
  pose proof (conflict_nonempty (Source.idn self) first) as Hnn.
  fold conflict in Hne, Hnn. subst r.
  destruct (fs_readable _ _), (Source.unique self); simpl;
    repeat split; intros; try done;
    repeat match goal with
      | H : _ ∈ _ :: _ |- _ => apply elem_of_cons in H as [?|?]
      | H : _ ∈ [] |- _ => by apply elem_of_nil in H
      | H : _ ∧ _ |- _ => destruct H
      end; try done; try (by constructor); try (by left); try (by right; left).
Qed.

(** C9, as the code has it: on a path without NUL character the two
    checks of [err] are made independently of each other; an unreadable
    path gives the reason "not readable" whatever the uniqueness flag, a
    non-unique identifier gives the conflict reason whatever the
    readability, both reasons are joined by a comma, and the result is
    empty (the source is "ok") exactly when no reason was collected. *)
Theorem err_reasons (self : Source.t) (first : string) (w : world) (st : state) :
  has_nul (Source.path self) = false →
  identifiers st !! Source.idn self = Some first →
  let r := fs_readable (fs st) (Source.path self) in
  let conflict := Source.idn self +:+ " conflicts with " +:+ first in
  ∃ errs,
    Source.errs self w st = (Ok errs, st)
    ∧ Source.err self w st = (Ok (PyStr.join "," errs), st)
    ∧ ("not readable" ∈ errs ↔ r = false)
    ∧ (conflict ∈ errs ↔ Source.unique self = false)
    ∧ (r = false → Source.unique self = false →
       PyStr.join "," errs = "not readable" +:+ "," +:+ conflict)
    ∧ (PyStr.join "," errs = "" ↔ errs = [])
    ∧ (errs = [] ↔ r = true ∧ Source.unique self = true).
Proof. exact (errs_spec self first w st). Qed.

Lemma err_reasons_witness :
  ∃ errs,
    Source.errs (Source.mk [] "/b/archive" "archive" false ∅)
      (Scenario.world_of Scenario.docC)
      (mkState {["archive" := "/a/archive"]} 15 Scenario.fsA [] 0 [])
    = (Ok errs, mkState {["archive" := "/a/archive"]} 15 Scenario.fsA [] 0 [])
    ∧ PyStr.join "," errs = "not readable,archive conflicts with /a/archive".
Proof.
  destruct (err_reasons (Source.mk [] "/b/archive" "archive" false ∅) "/a/archive"
              (Scenario.world_of Scenario.docC)
              (mkState {["archive" := "/a/archive"]} 15 Scenario.fsA [] 0 []))
    as (errs & H1 & _ & _ & _ & H5 & _).
  - reflexivity.
  - reflexivity.
  - exists errs. split; [exact H1|]. by apply H5.
Defined.

(** C9 fails on a path with a NUL character, which a JSON string can
    carry: the source is a duplicate, and [err] raises [ValueError] in
    [os.access] instead of reporting the conflict. *)
Lemma nul_path_no_reasons :
  Source.unique Scenario.nul_dup = false
  ∧ has_nul (Source.path Scenario.nul_dup) = true
  ∧ Source.err Scenario.nul_dup (Scenario.world_of Scenario.docNul)
      (mkState {[Source.idn Scenario.nul_dup := "/a/x" +:+ PyStr.nul]} 7
         Scenario.fsA [] 0 [])
    = (Raise ValueError,
       mkState {[Source.idn Scenario.nul_dup := "/a/x" +:+ PyStr.nul]} 7
         Scenario.fsA [] 0 []).
Proof. repeat split; reflexivity. Qed.

(** ** Strings and paths *)

Lemma string_app_assoc (a b c : string) : (a +:+ b) +:+ c = a +:+ (b +:+ c).
Proof.
  induction a as [|x a IH]; [done|].
  change (String x ((a +:+ b) +:+ c) = String x (a +:+ (b +:+ c))).
  by rewrite IH.
Qed.

Lemma string_app_nil_r (s : string) : s +:+ "" = s.
Proof.
  induction s as [|c s IH]; [done|].
  change (String c (s +:+ "") = String c s). by rewrite IH.
Qed.

Lemma rev_app_app (s1 s2 acc : string) :
  String.rev_app (s1 +:+ s2) acc = String.rev_app s2 (String.rev_app s1 acc).
Proof.
  revert acc. induction s1 as [|c s1 IH]; intros acc; [done|].
  change (String.rev_app (s1 +:+ s2) (String c acc)
          = String.rev_app s2 (String.rev_app s1 (String c acc))).
  apply IH.
Qed.

Lemma rev_app_rev (s acc : string) : String.rev_app s acc = String.rev s +:+ acc.
Proof.
  revert acc. induction s as [|c s IH]; intros acc; [done|].
  unfold String.rev. simpl. rewrite (IH (String c acc)), (IH (String c "")).
  by rewrite string_app_assoc.
Qed.

Lemma rev_rev_app (s a b : string) :
  String.rev_app (String.rev_app s a) b = String.rev_app a (s +:+ b).
Proof.
  revert a. induction s as [|c s IH]; intros a; [done|].
  simpl. rewrite IH. done.
Qed.

Lemma rev_involutive (s : string) : String.rev (String.rev s) = s.
Proof. unfold String.rev. rewrite rev_rev_app. simpl. apply string_app_nil_r. Qed.

Lemma prefix_slash_cons (b : ascii) (r : string) :
  String.prefix "/" (String b r) = true ↔ b = "/"%char.
Proof.
  change (String.prefix "/" (String b r))
    with (if ascii_dec "/" b then String.prefix "" r else false).
  destruct (ascii_dec "/" b) as [<-|Hne]; [by destruct r|].
  split; [done|]. intros ->. by destruct Hne.
Qed.

Lemma endswith_slash_iff (s : string) :
  PyStr.endswith s "/" = true ↔ ∃ t, s = t +:+ "/".
Proof.
  unfold PyStr.endswith. change (String.rev "/") with "/". split.
  - destruct (String.rev s) as [|b r] eqn:Hrev; [done|].
    intros ->%prefix_slash_cons.
    exists (String.rev r). rewrite <- (rev_involutive s), Hrev.
    unfold String.rev at 1. apply (rev_app_rev r "/").
  - intros [t ->]. unfold String.rev. rewrite rev_app_app.
    by apply prefix_slash_cons.
Qed.

Lemma drop_last_snoc (t : string) (c : ascii) :
  PyStr.drop_last (t +:+ String c "") = t.
Proof.
  induction t as [|x t IH]; [done|].
  change (PyStr.drop_last (String x (t +:+ String c "")) = String x t).
  simpl. rewrite IH. by destruct t.
Qed.

Lemma trim_snoc_slash (t : string) : trim_trailing_slash (t +:+ "/") = t.
Proof.
  unfold trim_trailing_slash.
  rewrite (proj2 (endswith_slash_iff _)) by eauto. apply drop_last_snoc.
Qed.

Lemma rfind_slash_ge (s : string) : -1 ≤ PyStr.rfind_slash s.
Proof.
  induction s as [|c s IH]; simpl; [lia|].
  destruct (0 <=? PyStr.rfind_slash s) eqn:H; [lia|]. destruct (Ascii.eqb c "/"); lia.
Qed.

Lemma basename_no_slash (p : string) : PyStr.rfind_slash (OsPath.basename p) = -1.
Proof.
  unfold OsPath.basename. induction p as [|c p IH]; [done|].
  pose proof (rfind_slash_ge p) as Hge. simpl.
  destruct (0 <=? PyStr.rfind_slash p) eqn:H.
  - apply Z.leb_le in H.
    replace (Z.to_nat (PyStr.rfind_slash p + 1 + 1))
      with (S (Z.to_nat (PyStr.rfind_slash p + 1))) by lia.
    simpl. exact IH.
  - apply Z.leb_gt in H. assert (PyStr.rfind_slash p = -1) as Hp by lia.
    destruct (Ascii.eqb c "/") eqn:Hc; simpl; [done|].
    rewrite Hp. simpl. by rewrite Hc.
Qed.

Lemma rfind_slash_split (d b : string) :
  PyStr.rfind_slash b = -1 →
  PyStr.rfind_slash (d +:+ "/" +:+ b) = Z.of_nat (String.length d).
Proof.
  intros Hb. induction d as [|c d IH].
  - change (PyStr.rfind_slash (String "/" b) = 0). simpl. by rewrite Hb.
  - change (PyStr.rfind_slash (String c (d +:+ "/" +:+ b))
            = Z.of_nat (S (String.length d))).
    simpl PyStr.rfind_slash. rewrite IH.
    destruct (0 <=? Z.of_nat (String.length d)) eqn:H; [lia|].
    apply Z.leb_gt in H. lia.
Qed.

Lemma drop_app (d s : string) : PyStr.drop (String.length d) (d +:+ s) = s.
Proof. induction d as [|c d IH]; [by destruct s|exact IH]. Qed.

Lemma basename_split (d b : string) :
  PyStr.rfind_slash b = -1 → OsPath.basename (d +:+ "/" +:+ b) = b.
Proof.
  intros Hb. unfold OsPath.basename. rewrite rfind_slash_split by done.
  replace (Z.to_nat (Z.of_nat (String.length d) + 1))
    with (String.length (d +:+ "/")) by (rewrite string_length_app; simpl; lia).
  rewrite <- string_app_assoc. apply drop_app.
Qed.

Lemma basename_plain (p : string) :
  PyStr.rfind_slash p = -1 → OsPath.basename p = p.
Proof. intros Hp. unfold OsPath.basename. rewrite Hp. by destruct p. Qed.


(** A path has no slash, or splits at its last one. *)
Lemma slash_decompose (p : string) :
  PyStr.rfind_slash p = -1
  ∨ ∃ d b, p = d +:+ "/" +:+ b ∧ PyStr.rfind_slash b = -1.
Proof.
  induction p as [|c p IH]; [by left|].
  destruct IH as [Hp|(d & b & -> & Hb)].
  - destruct (Ascii.eqb c "/") eqn:Hc.
    + apply Ascii.eqb_eq in Hc as ->. right. by exists "", p.
    + left. simpl. by rewrite Hp, Hc.
  - right. by exists (String c d), b.
Qed.

Lemma no_slash_not_endswith (b : string) :
  PyStr.rfind_slash b = -1 → PyStr.endswith b "/" = false.
Proof.
  intros Hb. apply not_true_is_false. intros [t ->]%endswith_slash_iff.
  rewrite <- (string_app_nil_r (t +:+ "/")), string_app_assoc in Hb.
  rewrite rfind_slash_split in Hb by done. lia.
Qed.

Lemma split_not_endswith (d b : string) :
  PyStr.rfind_slash b = -1 → b ≠ "" →
  PyStr.endswith (d +:+ "/" +:+ b) "/" = false.
Proof.
  intros Hb Hne. apply not_true_is_false. intros [t Ht]%endswith_slash_iff.
  pose proof (f_equal PyStr.rfind_slash Ht) as Hr.
  rewrite rfind_slash_split in Hr by done.
  rewrite <- (string_app_nil_r (t +:+ "/")), string_app_assoc in Hr.
  rewrite rfind_slash_split in Hr by done.
  apply (f_equal String.length) in Ht. rewrite !string_length_app in Ht.
  simpl in Ht. destruct b; [done|]. simpl in Ht. lia.
Qed.

Lemma has_nul_app (a b : string) : has_nul (a +:+ b) = has_nul a || has_nul b.
Proof.
  induction a as [|c a IH]; [done|].
  change (Ascii.eqb c "000" || has_nul (a +:+ b)
          = (Ascii.eqb c "000" || has_nul a) || has_nul b).
  rewrite IH. by destruct (Ascii.eqb c "000").
Qed.

(** Stripping the slash neither adds nor removes a NUL character. *)
Lemma has_nul_trim (p : string) : has_nul (trim_trailing_slash p) = has_nul p.
Proof.
  unfold trim_trailing_slash. destruct (PyStr.endswith p "/") eqn:He; [|done].
  apply endswith_slash_iff in He as [t ->].
  rewrite drop_last_snoc, has_nul_app. simpl. by rewrite orb_false_r.
Qed.

(** *** The identifier is the final component of the specification *)

Lemma split_slash_cons (s : string) : ∃ x l, split_slash s = x :: l.
Proof.
  induction s as [|c s (x & l & IH)]; [by exists "", []|].
  simpl. destruct (Ascii.eqb c "/"); [eauto|]. rewrite IH. eauto.
Qed.

Lemma split_slash_plain (b : string) :
  PyStr.rfind_slash b = -1 → split_slash b = [b].
Proof.
  induction b as [|c b IH]; [done|]. simpl.
  pose proof (rfind_slash_ge b).
  destruct (0 <=? PyStr.rfind_slash b) eqn:H0; [lia|].
  destruct (Ascii.eqb c "/"); [lia|].
  intros _. rewrite IH; [done|]. apply Z.leb_gt in H0. lia.
Qed.

Lemma split_slash_app (d b : string) :
  split_slash (d +:+ "/" +:+ b) = split_slash d ++ split_slash b.
Proof.
  induction d as [|c d IH]; [done|].
  change (split_slash (String c (d +:+ "/" +:+ b))
          = split_slash (String c d) ++ split_slash b).
  simpl. rewrite IH. destruct (Ascii.eqb c "/"); [done|].
  by destruct (split_slash_cons d) as (x & l & ->).
Qed.

(** The last piece of a path is its basename. *)
Lemma split_slash_last (p : string) :
  ∃ l, split_slash p = l ++ [OsPath.basename p].
Proof.
  destruct (slash_decompose p) as [Hp|(d & b & -> & Hb)].
  - exists []. by rewrite split_slash_plain, basename_plain.
  - exists (split_slash d).
    by rewrite split_slash_app, (split_slash_plain b), basename_split.
Qed.

(** The identifier computed by [Source.__init__], by [s[:-1]] and
    [os.path.basename], is the final component in the sense of the
    specification. *)
Lemma idn_final_component (p : string) :
  OsPath.basename (trim_trailing_slash p) = final_component p.
Proof.
  unfold final_component.
  destruct (slash_decompose p) as [Hp|(d & b & -> & Hb)].
  - unfold trim_trailing_slash. rewrite no_slash_not_endswith by done.
    rewrite split_slash_plain, basename_plain by done. by destruct p.
  - rewrite split_slash_app, (split_slash_plain b), List.rev_app_distr by done.
    simpl. destruct b as [|c b].
    + rewrite trim_snoc_slash.
      destruct (split_slash_last d) as (l & ->).
      by rewrite List.rev_app_distr.
    + unfold trim_trailing_slash. rewrite split_not_endswith by done.
      by apply basename_split.
Qed.

(** ** Identifier uniqueness *)

(** What loading one entry does to the object and to the state. *)
Lemma readconfig_item_ok item w st src st' :
  readconfig_item item w st = (Ok src, st') →
  ∃ p, item_path item = Some p
    ∧ Source.path src = trim_trailing_slash p
    ∧ Source.idn src = OsPath.basename (trim_trailing_slash p)
    ∧ Source.attrs src = ∅
    ∧ Source.unique src = bool_decide (Source.idn src ∉ dom (identifiers st))
    ∧ dom (identifiers st') = {[Source.idn src]} ∪ dom (identifiers st)
    ∧ identifiers st ⊆ identifiers st'
    ∧ fs st' = fs st ∧ stdin st' = stdin st ∧ trace st' = trace st
    ∧ rsync_calls st' = rsync_calls st.
Proof.
  unfold readconfig_item. unfold bind at 1.
  destruct (getpath item w st) as [[pv| |] st0] eqn:Hp; try discriminate.
  assert (st0 = st ∧ ((∃ p, pv = PStr p ∧ item_path item = Some p)
                      ∨ (∀ p, pv ≠ PStr p))) as [-> Hpv].
  { destruct item; simpl in Hp; unfold ret, dict_get in Hp;
      try (inversion Hp; subst; split; [done|]; (by right) || (left; eauto); fail).
    simpl. destruct (dict_lookup d "path") as [[]|]; inversion Hp; subst;
      (split; [done|]); (by right) || (left; eauto). }
  destruct Hpv as [(p & -> & Hip) | Hnot].
  2:{ unfold bind. destruct pv; try discriminate. by destruct (Hnot s). }
  destruct (init_str p w st) as (u & st1 & Hi & Hu & Hf & Ht & Hfs & Hin & Htr & Hrc).
  unfold bind at 1. rewrite Hi.
  unfold bind at 1.
  destruct (getexclude item w st1) as [[ex| |] st2] eqn:Hex; try discriminate.
  assert (st2 = st1) as ->.
  { destruct item; simpl in Hex; unfold ret, bind, dict_get in Hex;
      try (by inversion Hex).
    destruct (dict_lookup d "exclude"); by inversion Hex. }
  unfold bind.
  destruct (py_iter ex w st1) as [[exl| |] st3] eqn:Hit; try discriminate.
  assert (st3 = st1) as ->.
  { destruct ex; simpl in Hit; by inversion Hit. }
  unfold ret. intros [= <- <-]. rewrite fold_exclude. simpl.
  exists p. repeat split; try done.
  - rewrite Hu. rewrite <- (bool_decide_ext _ _ (elem_of_dom _ _)).
    by rewrite bool_decide_not.
  - destruct u.
    + rewrite (Ht eq_refl). by rewrite dom_insert_L.
    + rewrite (Hf eq_refl). symmetry in Hu. apply negb_false_iff in Hu.
      apply bool_decide_eq_true_1, elem_of_dom in Hu. set_solver.
  - destruct u.
    + rewrite (Ht eq_refl). apply insert_subseteq.
      symmetry in Hu. apply negb_true_iff, bool_decide_eq_false_1 in Hu.
      by apply eq_None_not_Some.
    + by rewrite (Hf eq_refl).
Qed.

Lemma readconfig_loop_ok items : ∀ acc w st sources st',
  readconfig_loop items acc w st = (Ok sources, st') →
  ∃ news, sources = acc ++ news
    ∧ Forall2 (λ item src, ∃ p, item_path item = Some p
                 ∧ Source.path src = trim_trailing_slash p
                 ∧ Source.idn src = OsPath.basename (trim_trailing_slash p)
                 ∧ Source.attrs src = ∅) items news
    ∧ flags_ok (dom (identifiers st)) news
    ∧ dom (identifiers st') = list_to_set (Source.idn <$> news) ∪ dom (identifiers st)
    ∧ identifiers st ⊆ identifiers st'
    ∧ fs st' = fs st ∧ stdin st' = stdin st ∧ trace st' = trace st
    ∧ rsync_calls st' = rsync_calls st.
Proof.
  induction items as [|item rest IH]; intros acc w st sources st'; simpl.
  - intros [= <- <-]. exists []. rewrite app_nil_r.
    repeat split; try done; try (by constructor). set_solver.
  - unfold bind.
    destruct (readconfig_item item w st) as [[src| |] st1] eqn:Hitem; try discriminate.
    intros Hloop. apply IH in Hloop as (news & -> & Hf2 & Hflags & Hdom & Hsub & Hfs & Hin & Htr & Hrc).
    apply readconfig_item_ok in Hitem
      as (p & Hp & Hpath & Hidn & Hattrs & Hu & Hdom1 & Hsub1 & Hfs1 & Hin1 & Htr1 & Hrc1).
    exists (src :: news). rewrite <- app_assoc. simpl.
    repeat split; try congruence.
    + constructor; eauto.
    + rewrite Hdom, Hdom1. set_solver.
    + by etrans.
Qed.

Lemma flags_ok_lookup sources : ∀ seen j sj,
  flags_ok seen sources → sources !! j = Some sj →
  Source.unique sj = true
  ↔ ((Source.idn sj ∉ seen)
     ∧ ∀ i si, (i < j)%nat → sources !! i = Some si →
               Source.idn si ≠ Source.idn sj).
Proof.
  induction sources as [|s rest IH]; intros seen j sj Hfl Hj; [done|].
  destruct Hfl as [Hu Hrest]. destruct j as [|j]; simpl in Hj.
  - injection Hj as ->. rewrite Hu, bool_decide_eq_true.
    split; [|by intros [? _]]. intros ?. split; [done|]. intros; lia.
  - rewrite (IH _ _ _ Hrest Hj). split.
    + intros [Hnot Hall]. split; [set_solver|].
      intros [|i] si Hi Hsi; simpl in Hsi.
      * injection Hsi as ->. set_solver.
      * apply (Hall i); [lia|done].
    + intros [Hnot Hall]. split.
      * apply not_elem_of_union. split; [|done].
        apply not_elem_of_singleton. intros Heq.
        by apply (Hall 0%nat s); [lia|done|].
      * intros i si Hi Hsi. apply (Hall (S i)); [lia|done].
Qed.

(** A successful [readconfig] is a run of its loop over the entries of
    a conforming document. *)
Lemma readconfig_ok f w st sources target st' :
  readconfig f w st = (Ok (sources, target), st') →
  ∃ d items t,
    w_json w f = Loaded (PDict d)
    ∧ conforms (PDict d)
    ∧ dict_lookup d "sources" = Some (PList items)
    ∧ dict_lookup d "target" = Some (PStr t)
    ∧ readconfig_loop items [] w st = (Ok sources, st')
    ∧ target = Target.mk (PyStr.strip t).
Proof.
  unfold readconfig, json_load, get_world. unfold bind at 1 2.
  destruct (w_json w f) as [doc| |] eqn:Hj; try discriminate.
  unfold ret at 1. unfold bind at 1.
  destruct (readconfig_check doc w st) as [[[|]| |] st0] eqn:Hc; try discriminate.
  pose proof (check_conforms _ _ _ _ Hc) as Hconf.
  destruct Hconf as (d & items & t & -> & Hperm & Hs & Ht).
  rewrite (conforms_check (PDict d) w st) in Hc
    by (exists d, items, t; done).
  injection Hc as <-. simpl.
  unfold bind, dict_get. rewrite Hs. unfold ret at 1. simpl. unfold ret at 1.
  destruct (readconfig_loop items [] w st) as [[srcs| |] st1] eqn:Hloop;
    try discriminate.
  rewrite Ht. unfold ret. intros [= <- <- <-].
  exists d, items, t. repeat split; try done.
  by exists d, items, t.
Qed.

(** The sources of a successful [readconfig] are those of the
    configuration, in its order. *)
Lemma readconfig_order f w st0 sources target st1 :
  readconfig f w st0 = (Ok (sources, target), st1) →
  ∃ d items,
    w_json w f = Loaded (PDict d)
    ∧ dict_lookup d "sources" = Some (PList items)
    ∧ Forall2 (λ item src, ∃ p, item_path item = Some p
                 ∧ Source.path src = trim_trailing_slash p
                 ∧ Source.idn src = OsPath.basename (trim_trailing_slash p)
                 ∧ Source.attrs src = ∅) items sources.
Proof.
  intros Hread.
  apply readconfig_ok in Hread as (d & items & t & Hj & _ & Hs & _ & Hloop & _).
  apply readconfig_loop_ok in Hloop as (news & Hnews & Hf2 & _).
  simpl in Hnews. subst news. by exists d, items.
Qed.

(** The paths of the entries, and the sources in their terms. *)
Lemma item_paths items sources :
  Forall2 (λ item src, ∃ p, item_path item = Some p
             ∧ Source.path src = trim_trailing_slash p
             ∧ Source.idn src = OsPath.basename (trim_trailing_slash p)
             ∧ Source.attrs src = ∅) items sources →
  ∃ paths, Forall2 (λ item p, item_path item = Some p) items paths
    ∧ Forall2 (λ p src, Source.path src = trim_trailing_slash p
                 ∧ Source.idn src = final_component p) paths sources.
Proof.
  induction 1 as [|item src items sources (p & Hp & Hpath & Hidn & _) _ (paths & H1 & H2)].
  - exists []. split; constructor.
  - exists (p :: paths). split; constructor; try done.
    split; [done|]. by rewrite Hidn, idn_final_component.
Qed.

(** C4, as the code has it: in a fresh process the sources are those of
    the configuration, in its order, and the identifier of each is the
    final component of its configured path.  A source whose final
    component is that of an earlier entry is flagged non-unique when it
    is constructed; a source that is the first with its final component
    is flagged unique.  When the path has no NUL character, the
    readiness report of the former carries the conflict reason and is
    not "ok", and that of the latter carries no conflict reason. *)
Theorem duplicate_identifiers (f : string) (w : world) (st0 st1 : state)
    (sources : list Source.t) (target : Target.t) :
  identifiers st0 = ∅ →
  readconfig f w st0 = (Ok (sources, target), st1) →
  ∃ d items paths,
    w_json w f = Loaded (PDict d)
    ∧ dict_lookup d "sources" = Some (PList items)
    ∧ Forall2 (λ item p, item_path item = Some p) items paths
    ∧ Forall2 (λ p src, Source.idn src = final_component p) paths sources
    ∧ ∀ j pj sj, paths !! j = Some pj → sources !! j = Some sj →
        let dup := ∃ i pi, (i < j)%nat ∧ paths !! i = Some pi
                           ∧ final_component pi = final_component pj in
        (dup → Source.unique sj = false)
        ∧ (¬ dup → Source.unique sj = true)
        ∧ ∀ st, identifiers st = identifiers st1 → has_nul pj = false →
            ∃ first errs,
              identifiers st !! final_component pj = Some first
              ∧ Source.errs sj w st = (Ok errs, st)
              ∧ Source.err sj w st = (Ok (PyStr.join "," errs), st)
              ∧ (dup → final_component pj +:+ " conflicts with " +:+ first ∈ errs
                       ∧ PyStr.join "," errs ≠ "")
              ∧ (¬ dup → final_component pj +:+ " conflicts with " +:+ first ∉ errs).
Proof.
  intros Hempty Hread.
  apply readconfig_ok in Hread as (d & items & t & Hj & _ & Hs & _ & Hloop & _).
  apply readconfig_loop_ok in Hloop
    as (news & Hnews & Hf2 & Hflags & Hdom & _).
  simpl in Hnews. subst news. rewrite Hempty, dom_empty_L in Hflags, Hdom.
  destruct (item_paths _ _ Hf2) as (paths & Hip & Hps).
  exists d, items, paths. do 3 (split; [done|]).
  split; [eapply Forall2_impl; [exact Hps|]; by intros ? ? [_ ?]|].
  intros j pj sj Hpj Hsj dup.
  destruct (Forall2_lookup_lr _ _ _ _ _ _ Hps Hpj Hsj) as [Hpathj Hidnj].
  pose proof (flags_ok_lookup _ _ _ _ Hflags Hsj) as Hflag.
  assert (dup ↔ ∃ i si, (i < j)%nat ∧ sources !! i = Some si
                        ∧ Source.idn si = Source.idn sj) as Hdup.
  { split.
    - intros (i & pi & Hi & Hpi & Heq).
      destruct (Forall2_lookup_l _ _ _ _ _ Hps Hpi) as (si & Hsi & _ & Hidni).
      exists i, si. repeat split; try done. by rewrite Hidni, Hidnj.
    - intros (i & si & Hi & Hsi & Heq).
      destruct (Forall2_lookup_r _ _ _ _ _ Hps Hsi) as (pi & Hpi & _ & Hidni).
      exists i, pi. repeat split; try done. by rewrite <- Hidni, <- Hidnj. }
  assert (dup → Source.unique sj = false) as Hu1.
  { intros (i & si & Hi & Hsi & Heq)%Hdup.
    destruct (Source.unique sj); [|done].
    destruct Hflag as [[_ Hall] _]; [done|]. by destruct (Hall i si). }
  assert (¬ dup → Source.unique sj = true) as Hu2.
  { intros Hnd. apply Hflag. split; [set_solver|].
    intros i si Hi Hsi Heq. apply Hnd, Hdup. by exists i, si. }
  do 2 (split; [done|]).
  intros st Hst Hnul.
  assert (is_Some (identifiers st !! Source.idn sj)) as [first Hfirst].
  { apply elem_of_dom. rewrite Hst, Hdom. apply elem_of_union_l, elem_of_list_to_set.
    apply list_elem_of_fmap. exists sj. split; [done|].
    by apply list_elem_of_lookup_2 with j. }
  assert (has_nul (Source.path sj) = false) as Hnul'
    by by rewrite Hpathj, has_nul_trim.
  destruct (errs_spec sj first w st Hnul' Hfirst)
    as (errs & He1 & He2 & _ & Hconf & _ & Hjoin & Hnil).
  rewrite <- Hidnj. exists first, errs. do 3 (split; [done|]). split.
  - intros Hd. split; [by apply Hconf, Hu1|].
    intros Hempty'. apply Hjoin, Hnil in Hempty' as [_ Hu'].
    rewrite (Hu1 Hd) in Hu'. discriminate Hu'.
  - intros Hnd Hin. apply Hconf in Hin. rewrite (Hu2 Hnd) in Hin. discriminate Hin.
Qed.

Lemma duplicate_identifiers_witness :
  ∃ first errs,
    Source.errs (Source.mk [PStr "tmp"] "/b/archive" "archive" false ∅)
      (Scenario.world_of Scenario.docC)
      (mkState {["archive" := "/a/archive"]} 15 Scenario.fsA [] 0 [])
    = (Ok errs, mkState {["archive" := "/a/archive"]} 15 Scenario.fsA [] 0 [])
    ∧ "archive" +:+ " conflicts with " +:+ first ∈ errs.
Proof.
  destruct (duplicate_identifiers "backup.json" (Scenario.world_of Scenario.docC)
              (initial_state Scenario.fsA [])
              (mkState {["archive" := "/a/archive"]} 15 Scenario.fsA [] 0 [])
              [Source.mk [] "/a/archive" "archive" true ∅;
               Source.mk [PStr "tmp"] "/b/archive" "archive" false ∅]
              (Target.mk "/backup") eq_refl eq_refl)
    as (d & items & paths & Hj & Hs & Hip & _ & H).
  injection Hj as <-. injection Hs as <-.
  inversion Hip as [|? p0 ? paths0 Hp0 Hip0]; subst.
  inversion Hip0 as [|? p1 ? paths1 Hp1 Hip1]; subst.
  inversion Hip1; subst.
  injection Hp0 as <-. injection Hp1 as <-.
  destruct (H 1%nat _ _ eq_refl eq_refl) as (_ & _ & Herr).
  destruct (Herr _ eq_refl eq_refl) as (first & errs & _ & He & _ & Hdup & _).
  exists first, errs. split; [exact He|].
  apply Hdup. exists 0%nat, "/a/archive". repeat split. lia.
Defined.

(** C4 fails on paths with a NUL character, which a JSON string can
    carry: the two entries of the configuration share their final
    component and the second source is flagged non-unique, but its
    readiness check raises [ValueError] in [os.access] and reports no
    conflict. *)
Lemma nul_duplicate_raises :
  let w := Scenario.world_of Scenario.docNul in
  let r := readconfig "backup.json" w (initial_state Scenario.fsA []) in
  final_component ("/a/x" +:+ PyStr.nul) = final_component ("/b/x" +:+ PyStr.nul)
  ∧ fst r = Ok ([Source.mk [] ("/a/x" +:+ PyStr.nul) ("x" +:+ PyStr.nul) true ∅;
                 Scenario.nul_dup], Target.mk "/backup")
  ∧ Source.unique Scenario.nul_dup = false
  ∧ fst (Source.err Scenario.nul_dup w (snd r)) = Raise ValueError.
Proof. vm_compute. repeat split; reflexivity. Qed.

(** ** Framing *)

Lemma extends_refl P st : extends P st st.
Proof. exists []. by rewrite app_nil_r. Qed.

Lemma extends_trans P st1 st2 st3 :
  extends P st1 st2 → extends P st2 st3 → extends P st1 st3.
Proof.
  intros (e1 & H1 & F1) (e2 & H2 & F2). exists (e1 ++ e2).
  rewrite H2, H1, app_assoc. split; [done|]. by apply Forall_app.
Qed.

Lemma extends_mono (P Q : event → Prop) st st' :
  (∀ e, P e → Q e) → extends P st st' → extends Q st st'.
Proof. intros HPQ (evs & H & F). exists evs. split; [done|]. by eapply Forall_impl. Qed.

Lemma same_store_refl st : same_store st st.
Proof. by repeat split. Qed.

Lemma same_store_trans st1 st2 st3 :
  same_store st1 st2 → same_store st2 st3 → same_store st1 st3.
Proof. unfold same_store. intros (?&?&?&?&?) (?&?&?&?&?). repeat split; congruence. Qed.

Lemma Reads_Emits {A} (m : M A) : Reads m → Emits quiet m.
Proof. intros H w st. apply H. Qed.

Lemma Emits_mono (P Q : event → Prop) {A} (m : M A) :
  (∀ e, P e → Q e) → Emits P m → Emits Q m.
Proof. intros HPQ H w st. eapply extends_mono; [exact HPQ|apply H]. Qed.

Lemma Reads_ret {A} (a : A) : Reads (ret a).
Proof. intros w st. split; [apply same_store_refl|apply extends_refl]. Qed.

Lemma Reads_raise {A} e : Reads (@raise A e).
Proof. intros w st. split; [apply same_store_refl|apply extends_refl]. Qed.

Lemma Reads_exit {A} c : Reads (@sys_exit A c).
Proof. intros w st. split; [apply same_store_refl|apply extends_refl]. Qed.

Lemma Reads_get_state : Reads get_state.
Proof. intros w st. split; [apply same_store_refl|apply extends_refl]. Qed.

Lemma Reads_get_world : Reads get_world.
Proof. intros w st. split; [apply same_store_refl|apply extends_refl]. Qed.

Lemma Reads_emit e : quiet e → Reads (emit e).
Proof.
  intros He w st. split; [by repeat split|].
  exists [e]. split; [done|]. by constructor.
Qed.

Lemma Reads_bind {A B} (m : M A) (k : A → M B) :
  Reads m → (∀ a, Reads (k a)) → Reads (bind m k).
Proof.
  intros Hm Hk w st. unfold bind. specialize (Hm w st).
  destruct (m w st) as [[a| |] st1]; simpl in *; try done.
  destruct (Hk a w st1) as [Hs He]. destruct Hm as [Hs1 He1].
  split; [by eapply same_store_trans|by eapply extends_trans].
Qed.

Lemma Emits_bind P {A B} (m : M A) (k : A → M B) :
  Emits P m → (∀ a, Emits P (k a)) → Emits P (bind m k).
Proof.
  intros Hm Hk w st. unfold bind. specialize (Hm w st).
  destruct (m w st) as [[a| |] st1]; simpl in *; try done.
  eapply extends_trans; [exact Hm|apply Hk].
Qed.

Lemma Reads_print_end s e : Reads (print_end s e).
Proof. by apply Reads_emit. Qed.

Lemma Reads_print s : Reads (print s).
Proof. apply Reads_print_end. Qed.

Lemma Reads_check_output args : Reads (check_output args).
Proof.
  apply Reads_bind; [by apply Reads_emit|]. intros _.
  apply Reads_bind; [apply Reads_get_state|]. intros st.
  destruct (fs_du _ _); [apply Reads_ret|apply Reads_raise].
Qed.

Lemma Reads_for_each {A} (f : A → M unit) l :
  (∀ x, Reads (f x)) → Reads (for_each f l).
Proof.
  intros Hf. induction l as [|x l IH]; simpl; [apply Reads_ret|].
  apply Reads_bind; [apply Hf|done].
Qed.

Lemma Reads_for_each_upd {A} (f : A → M A) l :
  (∀ x, Reads (f x)) → Reads (for_each_upd f l).
Proof.
  intros Hf. induction l as [|x l IH]; simpl; [apply Reads_ret|].
  apply Reads_bind; [apply Hf|]. intros x'.
  apply Reads_bind; [done|]. intros l'. apply Reads_ret.
Qed.

Lemma Reads_err {A} msg : Reads (@err A msg).
Proof. apply Reads_bind; [apply Reads_print|]. intros _. apply Reads_exit. Qed.

Lemma Reads_os_access answer p : Reads (os_access answer p).
Proof.
  unfold os_access. destruct (has_nul p); [apply Reads_raise|].
  apply Reads_bind; [apply Reads_get_state|]. intros st. apply Reads_ret.
Qed.

(** Steps through a computation built from the primitives above. *)
Ltac reads :=
  repeat first
    [ apply Reads_ret | apply Reads_raise | apply Reads_exit
    | apply Reads_get_state | apply Reads_get_world | apply Reads_os_access
    | apply Reads_print_end | apply Reads_print | apply Reads_check_output
    | apply Reads_err
    | apply Reads_bind; [|intros ?]
    | match goal with
      | |- Reads (match ?x with _ => _ end) => destruct x
      end ].

Lemma Reads_source_errs self : Reads (Source.errs self).
Proof. unfold Source.errs, Source.readable, Source.unique_idn. reads. Qed.

Lemma Reads_source_err self : Reads (Source.err self).
Proof. unfold Source.err. reads. Qed.

Lemma Reads_size_args self excls : ∀ args, Reads (Source.size_args self excls args).
Proof. induction excls as [|[] rest IH]; intros args; simpl; reads; apply IH. Qed.

Lemma Reads_size self : Reads (Source.size self).
Proof. unfold Source.size. reads; apply Reads_size_args. Qed.

Lemma Reads_show self b : Reads (Source.show self b).
Proof.
  unfold Source.show, Source.show_excludes. reads; apply Reads_size_args.
Qed.

Lemma Reads_showSource target source : Reads (Target.showSource target source).
Proof. unfold Target.showSource. reads. Qed.

(** ** Outcomes *)

Lemma bind_ok {A B} (m : M A) (k : A → M B) w st a st' :
  m w st = (Ok a, st') → bind m k w st = k a w st'.
Proof. intros H. unfold bind. by rewrite H. Qed.

Lemma bind_exit {A B} (m : M A) (k : A → M B) w st c st' :
  m w st = (Exit c, st') → bind m k w st = (Exit c, st').
Proof. intros H. unfold bind. by rewrite H. Qed.

Lemma bind_raise {A B} (m : M A) (k : A → M B) w st e st' :
  m w st = (Raise e, st') → bind m k w st = (Raise e, st').
Proof. intros H. unfold bind. by rewrite H. Qed.

Section Returns.
Context (R : Z → Prop) (E : exn → Prop).

Lemma Returns_ret {A} (a : A) : Returns R E (ret a).
Proof. by intros w st. Qed.

Lemma Returns_raise {A} e : E e → Returns R E (@raise A e).
Proof. by intros He w st. Qed.

Lemma Returns_exit {A} c : R c → Returns R E (@sys_exit A c).
Proof. by intros Hc w st. Qed.

Lemma Returns_get_state : Returns R E get_state.
Proof. by intros w st. Qed.

Lemma Returns_get_world : Returns R E get_world.
Proof. by intros w st. Qed.

Lemma Returns_emit e : Returns R E (emit e).
Proof. by intros w st. Qed.

Lemma Returns_call args : Returns R E (subprocess_call args).
Proof. by intros w st. Qed.

Lemma Returns_bind {A B} (m : M A) (k : A → M B) :
  Returns R E m → (∀ a, Returns R E (k a)) → Returns R E (bind m k).
Proof.
  intros Hm Hk w st. unfold bind. specialize (Hm w st).
  destruct (m w st) as [[a| |] st1]; simpl in *; try done. apply Hk.
Qed.

Lemma Returns_for_each {A} (f : A → M unit) l :
  (∀ x, Returns R E (f x)) → Returns R E (for_each f l).
Proof.
  intros Hf. induction l as [|x l IH]; simpl; [apply Returns_ret|].
  apply Returns_bind; [apply Hf|done].
Qed.

Lemma Returns_for_each_upd {A} (f : A → M A) l :
  (∀ x, Returns R E (f x)) → Returns R E (for_each_upd f l).
Proof.
  intros Hf. induction l as [|x l IH]; simpl; [apply Returns_ret|].
  apply Returns_bind; [apply Hf|]. intros x'.
  apply Returns_bind; [done|]. intros l'. apply Returns_ret.
Qed.

Lemma Returns_input prompt : E EOFError → Returns R E (input prompt).
Proof. intros He w st. unfold input. by destruct (stdin st). Qed.

Lemma Returns_makedirs p : E OSError → Returns R E (makedirs p).
Proof. intros He w st. unfold makedirs. by destruct (w_makedirs w p). Qed.

Lemma Returns_os_access answer p : E ValueError → Returns R E (os_access answer p).
Proof. intros He w st. unfold os_access. by destruct (has_nul p). Qed.

End Returns.

(** Steps through a computation; what is left are the side conditions
    on the exit codes and exceptions that can really occur. *)
Ltac returns :=
  repeat
    match goal with
    | |- Returns _ _ (ret _) => apply Returns_ret
    | |- Returns _ _ get_state => apply Returns_get_state
    | |- Returns _ _ get_world => apply Returns_get_world
    | |- Returns _ _ (emit _) => apply Returns_emit
    | |- Returns _ _ (print_end _ _) => apply Returns_emit
    | |- Returns _ _ (print _) => apply Returns_emit
    | |- Returns _ _ (subprocess_call _) => apply Returns_call
    | |- Returns _ _ (raise _) => apply Returns_raise
    | |- Returns _ _ (sys_exit _) => apply Returns_exit
    | |- Returns _ _ (input _) => apply Returns_input
    | |- Returns _ _ (makedirs _) => apply Returns_makedirs
    | |- Returns _ _ (os_access _ _) => apply Returns_os_access
    | |- Returns _ _ (for_each _ _) => apply Returns_for_each; intros ?
    | |- Returns _ _ (for_each_upd _ _) => apply Returns_for_each_upd; intros ?
    | |- Returns _ _ (bind _ _) => apply Returns_bind; [|intros ?]
    | |- Returns _ _ (match ?x with _ => _ end) => destruct x
    end.

Lemma Returns_size_args R E self excls :
  E TypeError → ∀ args, Returns R E (Source.size_args self excls args).
Proof.
  intros He. induction excls as [|v rest IH]; intros args; simpl;
    [apply Returns_ret|].
  destruct v; try (by apply Returns_raise). apply IH.
Qed.

(** [show] never exits and raises no [AssertionError]. *)
Lemma Returns_show self b : Returns (λ _, False) not_assertion (Source.show self b).
Proof.
  unfold Source.show, Source.show_excludes, Source.err, Source.errs, Source.size,
    Source.readable, Source.unique_idn, check_output, print_end.
  returns; try done. by apply Returns_size_args.
Qed.

Lemma Returns_source_err self :
  Returns (λ _, False) (λ e, e = KeyError (Source.idn self) ∨ e = ValueError)
    (Source.err self).
Proof.
  unfold Source.err, Source.errs, Source.readable, Source.unique_idn.
  returns; auto.
Qed.

(** ** The report of one source *)

Lemma size_args_str self excls : ∀ args w st,
  Forall is_str excls →
  Source.size_args self excls args w st
  = (Ok (args ++ concat (map (λ excl, ["--exclude"; Source.path self +:+ "/" +:+ excl])
                           (strs_of excls))), st).
Proof.
  induction excls as [|v rest IH]; intros args w st Hall; simpl.
  - by rewrite app_nil_r.
  - inversion Hall as [|? ? Hv Hrest]; subst. destruct v; try done.
    rewrite IH by done. simpl. by rewrite <- app_assoc.
Qed.

Lemma size_args_inv self excls : ∀ args w st r st',
  Source.size_args self excls args w st = (Ok r, st') → Forall is_str excls.
Proof.
  induction excls as [|v rest IH]; intros args w st r st' H; [constructor|].
  destruct v; try discriminate. constructor; [done|]. by eapply IH.
Qed.

Lemma rsync_args_str source excls : ∀ args w st,
  Forall is_str excls →
  Target.rsync_args source excls args w st
  = (Ok (args ++ concat (map (λ excl, ["--exclude"; Source.idn source +:+ "/" +:+ excl])
                           (strs_of excls))), st).
Proof.
  induction excls as [|v rest IH]; intros args w st Hall; simpl.
  - by rewrite app_nil_r.
  - inversion Hall as [|? ? Hv Hrest]; subst. destruct v; try done.
    rewrite IH by done. simpl. by rewrite <- app_assoc.
Qed.

Lemma fails_failsb f src : fails f src ↔ failsb f src = true.
Proof.
  unfold fails, failsb.
  destruct (fs_readable _ _), (Source.unique src); simpl; naive_solver.
Qed.

(** A source that passes its checks has a path [os.access] accepts. *)
Lemma not_fails_no_nul f src : ¬ fails f src → has_nul (Source.path src) = false.
Proof.
  intros Hn. apply (readable_no_nul f).
  destruct (fs_readable f (Source.path src)) eqn:Hr; [done|]. destruct Hn. by left.
Qed.

(** When [err] returns, [os.access] has accepted the path. *)
Lemma source_err_no_nul self w st e st' :
  Source.err self w st = (Ok e, st') → has_nul (Source.path self) = false.
Proof.
  intros He. destruct (has_nul (Source.path self)) eqn:Hnul; [|done].
  destruct (errs_nul self w st Hnul) as [_ Hr]. congruence.
Qed.

(** [err] returns the empty string exactly on the sources that pass
    both checks. *)
Lemma source_err_eq self w st :
  has_nul (Source.path self) = false →
  is_Some (identifiers st !! Source.idn self) →
  ∃ e, Source.err self w st = (Ok e, st) ∧ (e = "" ↔ ¬ fails (fs st) self).
Proof.
  intros Hnul [first Hfirst].
  destruct (errs_spec self first w st Hnul Hfirst) as (errs & _ & He & _ & _ & _ & Hj & Hn).
  exists (PyStr.join "," errs). split; [done|].
  rewrite Hj, Hn. unfold fails.
  destruct (fs_readable _ _), (Source.unique self); naive_solver.
Qed.

Lemma size_same_fields self w st v self' st' :
  Source.size self w st = (Ok (v, self'), st') → same_fields self self'.
Proof.
  unfold Source.size. unfold bind at 1.
  destruct (negb (Source.hasattr self "__size")).
  - unfold bind at 1.
    destruct (Source.size_args _ _ _ w st) as [[args| |] st0]; try discriminate.
    unfold bind at 1.
    destruct (check_output args w st0) as [[tmp| |] st1]; try discriminate.
    destruct (PyStr.first_word tmp); simpl; [|discriminate].
    rewrite lookup_insert_eq. by intros [= <- <- <-].
  - simpl. destruct (Source.attrs self !! "_Source__size"); [|discriminate].
    by intros [= <- <- <-].
Qed.

Lemma size_ok self w st :
  Source.attrs self !! "__size" = None →
  sizing_succeeds (fs st) self →
  ∃ tok, Source.size self w st
         = (Ok (tok, Source.setattr self "_Source__size" tok),
            mkState (identifiers st) (padding st) (fs st) (stdin st)
                    (rsync_calls st) (trace st ++ [EvDu (du_cmd self)])).
Proof.
  intros Hno (Hstr & out & tok & Hdu & Hword). exists tok.
  unfold Source.size. rewrite hasattr_size, Hno. simpl.
  unfold bind at 1 2. rewrite size_args_str by done. fold (du_cmd self).
  unfold bind, check_output, bind, emit, get_state. simpl.
  rewrite Hdu. simpl. rewrite Hword. simpl. by rewrite lookup_insert_eq.
Qed.

(** When the registry knows the identifier and du works on a source
    that passes the checks, [show] prints exactly one report. *)
Lemma show_ok self w st :
  Source.attrs self !! "__size" = None →
  is_Some (identifiers st !! Source.idn self) →
  has_nul (Source.path self) = false →
  (¬ fails (fs st) self → sizing_succeeds (fs st) self) →
  ∃ self' st' evs text,
    Source.show self true w st = (Ok self', st')
    ∧ same_fields self self'
    ∧ Source.attrs self' !! "__size" = None
    ∧ trace st' = trace st ++ evs
    ∧ stdout_events evs = [text]
    ∧ report_of self (padding st) text.
Proof.
  intros Hno Hreg Hnul Hsz.
  destruct (source_err_eq self w st Hnul Hreg) as (e & He & Hempty).
  unfold Source.show.
  rewrite (bind_ok get_state _ w st st st eq_refl).
  rewrite (bind_ok _ _ w st e st He).
  case_bool_decide as Hec; simpl.
  - apply Hempty, Hsz in Hec. destruct (size_ok self w st Hno Hec) as (tok & Hsize).
    unfold bind at 1 2. rewrite Hsize. unfold ret at 1.
    unfold bind, Source.show_excludes, get_world, ret, print_end, emit. simpl.
    eexists _, _, [EvDu (du_cmd self); EvStdout _], _.
    split; [reflexivity|]. simpl.
    split; [done|]. split; [by rewrite lookup_insert_ne|].
    split; [by rewrite <- app_assoc|]. split; [reflexivity|].
    eexists. rewrite !string_app_assoc. reflexivity.
  - unfold bind, Source.show_excludes, get_world, ret, print_end, emit. simpl.
    eexists _, _, [EvStdout _], _.
    split; [reflexivity|]. simpl.
    split; [done|]. split; [done|]. split; [done|]. split; [reflexivity|].
    eexists. rewrite !string_app_assoc. reflexivity.
Qed.

(** A [show] that returns leaves the fields of the object alone, and
    has run du on a source that passes the checks, so that all its
    exclusion patterns are strings. *)
Lemma show_inv self w st self' st' :
  Source.attrs self !! "__size" = None →
  is_Some (identifiers st !! Source.idn self) →
  Source.show self true w st = (Ok self', st') →
  same_fields self self'
  ∧ Source.attrs self' !! "__size" = None
  ∧ has_nul (Source.path self) = false
  ∧ (¬ fails (fs st) self → Forall is_str (Source.excludes self)).
Proof.
  intros Hno Hreg.
  destruct (has_nul (Source.path self)) eqn:Hnul.
  { unfold Source.show.
    rewrite (bind_ok get_state _ w st st st eq_refl).
    erewrite bind_raise; [discriminate|]. by apply errs_nul. }
  destruct (source_err_eq self w st Hnul Hreg) as (e & He & Hempty).
  unfold Source.show.
  rewrite (bind_ok get_state _ w st st st eq_refl).
  rewrite (bind_ok _ _ w st e st He).
  case_bool_decide as Hec; simpl.
  - unfold bind at 1 2.
    destruct (Source.size self w st) as [[[sz self0]| |] st0] eqn:Hsize;
      try discriminate.
    unfold ret at 1.
    unfold bind, Source.show_excludes, get_world, ret, print_end, emit. simpl.
    intros [= <- <-].
    pose proof (size_same_fields _ _ _ _ _ _ Hsize) as Hsame.
    apply size_runs_du in Hsize as (Hno' & _ & _ & args & Hargs & _); [|done].
    apply size_args_inv in Hargs. done.
  - unfold bind, Source.show_excludes, get_world, ret, print_end, emit. simpl.
    intros [= <- <-]. repeat split; try done. intros Hnf. by apply Hempty in Hnf.
Qed.

(** ** The two loops over the sources *)

Lemma stdout_events_app evs1 evs2 :
  stdout_events (evs1 ++ evs2) = stdout_events evs1 ++ stdout_events evs2.
Proof. apply omap_app. Qed.

Lemma quiet_no_effects evs :
  Forall quiet evs →
  input_events evs = [] ∧ makedirs_events evs = [] ∧ rsync_events evs = [].
Proof.
  induction 1 as [|e evs He _ IH]; [done|]. destruct e; try done.
Qed.

Lemma fails_same_fields f s s' : same_fields s s' → fails f s' ↔ fails f s.
Proof. intros (Hp & _ & Hu & _). unfold fails. by rewrite Hp, Hu. Qed.

Lemma show_loop_ok sources : ∀ w st,
  Forall (λ src, Source.attrs src !! "__size" = None
               ∧ is_Some (identifiers st !! Source.idn src)
               ∧ has_nul (Source.path src) = false
               ∧ (¬ fails (fs st) src → sizing_succeeds (fs st) src)) sources →
  ∃ sources' st' evs,
    for_each_upd (λ source, Source.show source true) sources w st = (Ok sources', st')
    ∧ Forall2 same_fields sources sources'
    ∧ same_store st st'
    ∧ trace st' = trace st ++ evs
    ∧ Forall quiet evs
    ∧ Forall2 (λ src text, report_of src (padding st) text) sources (stdout_events evs).
Proof.
  induction sources as [|src rest IH]; intros w st Hall; simpl.
  - exists [], st, []. rewrite app_nil_r.
    repeat split; try done; constructor.
  - inversion Hall as [|? ? (Hno & Hreg & Hnul & Hsz) Hrest]; subst.
    destruct (show_ok src w st Hno Hreg Hnul Hsz)
      as (src' & st1 & evs1 & text & Hshow & Hsame & _ & Htr1 & Hout1 & Hrep).
    destruct (Reads_show src true w st) as [Hstore (evs1' & Htr1' & Hq1)].
    rewrite Hshow in Hstore, Htr1'. simpl in *.
    rewrite Htr1 in Htr1'. apply app_inv_head in Htr1'. subst evs1'.
    destruct Hstore as (Hi & Hp & Hf & Hin & Hrc).
    destruct (IH w st1) as (rest' & st2 & evs2 & Hloop & Hsame2 & Hstore2 & Htr2 & Hq2 & Hrep2).
    { rewrite Hi, Hf. exact Hrest. }
    rewrite (bind_ok _ _ w st src' st1 Hshow).
    rewrite (bind_ok _ _ w st1 rest' st2 Hloop).
    exists (src' :: rest'), st2, (evs1 ++ evs2). unfold ret.
    split; [done|]. split; [by constructor|].
    split; [eapply same_store_trans; [|exact Hstore2]; by repeat split|].
    split; [by rewrite Htr2, Htr1, app_assoc|].
    split; [by apply Forall_app|].
    rewrite stdout_events_app, Hout1. simpl. constructor; [done|].
    by rewrite <- Hp.
Qed.

Lemma show_loop_inv sources : ∀ w st sources' st',
  Forall (λ src, Source.attrs src !! "__size" = None
               ∧ is_Some (identifiers st !! Source.idn src)) sources →
  for_each_upd (λ source, Source.show source true) sources w st = (Ok sources', st') →
  Forall2 same_fields sources sources'
  ∧ Forall (λ src, has_nul (Source.path src) = false) sources
  ∧ Forall (λ src, ¬ fails (fs st) src → Forall is_str (Source.excludes src)) sources.
Proof.
  induction sources as [|src rest IH]; intros w st sources' st' Hall; simpl.
  - intros [= <- <-]. repeat split; constructor.
  - inversion Hall as [|? ? (Hno & Hreg) Hrest]; subst.
    unfold bind at 1.
    destruct (Source.show src true w st) as [[src'| |] st1] eqn:Hshow; try discriminate.
    destruct (Reads_show src true w st) as [Hstore _].
    rewrite Hshow in Hstore. destruct Hstore as (Hi & Hp & Hf & Hin & Hrc).
    simpl in *.
    unfold bind at 1.
    destruct (for_each_upd _ rest w st1) as [[rest'| |] st2] eqn:Hloop; try discriminate.
    unfold ret. intros [= <- <-].
    apply show_inv in Hshow as (Hsame & _ & Hnul & Hstr); [|done..].
    apply IH in Hloop as (Hsame2 & Hnul2 & Hstr2); [|by rewrite Hi].
    split; [by constructor|]. split; [by constructor|].
    constructor; [done|]. by rewrite <- Hf.
Qed.

Lemma check_loop_eq sources : ∀ w st,
  Forall (λ src, has_nul (Source.path src) = false) sources →
  Forall (λ src, is_Some (identifiers st !! Source.idn src)) sources →
  for_each main_check sources w st
  = if existsb (failsb (fs st)) sources then
      (Exit 1, mkState (identifiers st) (padding st) (fs st) (stdin st) (rsync_calls st)
                 (trace st ++ [EvStdout (error_line "one or more sources failed sanity check")]))
    else (Ok tt, st).
Proof.
  induction sources as [|src rest IH]; intros w st Hnuls Hall; simpl; [done|].
  inversion Hall as [|? ? Hreg Hrest]; subst.
  inversion Hnuls as [|? ? Hnul Hnuls']; subst.
  destruct (source_err_eq src w st Hnul Hreg) as (e & He & Hempty).
  unfold main_check at 1. unfold bind at 1 2. rewrite He.
  case_bool_decide as Hec; simpl.
  - apply Hempty in Hec. rewrite fails_failsb in Hec.
    apply not_true_is_false in Hec. rewrite Hec. simpl. by apply IH.
  - assert (failsb (fs st) src = true) as ->; [|done].
    apply fails_failsb. destruct (decide (fails (fs st) src)) as [|Hn]; [done|].
    by apply Hempty in Hn.
Qed.

(** The sources a successful [readconfig] returns are known to the
    registry, carry no extra attribute, and loading has written
    nothing. *)
Lemma readconfig_sources f w st0 sources target st1 :
  readconfig f w st0 = (Ok (sources, target), st1) →
  Forall (λ src, Source.attrs src !! "__size" = None
               ∧ is_Some (identifiers st1 !! Source.idn src)) sources
  ∧ trace st1 = trace st0 ∧ fs st1 = fs st0 ∧ stdin st1 = stdin st0
  ∧ rsync_calls st1 = rsync_calls st0.
Proof.
  intros Hread.
  apply readconfig_ok in Hread as (d & items & t & _ & _ & _ & _ & Hloop & _).
  apply readconfig_loop_ok in Hloop
    as (news & Hnews & Hf2 & _ & Hdom & _ & Hfs & Hin & Htr & Hrc).
  simpl in Hnews. subst news. repeat split; try done.
  apply Forall_forall. intros src Hsrc. split.
  - apply list_elem_of_lookup in Hsrc as [j Hj].
    destruct (Forall2_lookup_r _ _ _ _ _ Hf2 Hj) as (item & _ & p & _ & _ & _ & Hattrs).
    by rewrite Hattrs.
  - apply elem_of_dom. rewrite Hdom. apply elem_of_union_l, elem_of_list_to_set.
    apply list_elem_of_fmap. by exists src.
Qed.

(** ** Failed validation *)

(** C5, as the code has it: when a loaded source fails its readiness
    check, the run ends with status 1, writes only to stdout and runs
    only du (no directory creation, no prompt, no rsync), and leaves the
    filesystem as it was.  When no source path has a NUL character and,
    on every source that passes the check, the patterns are strings and
    du succeeds and prints a word, the run ends in [err], after one
    report per source has been printed, in the order of the
    configuration. *)
Theorem failed_sanity_exits (args : Args) (w : world) (st0 st1 : state)
    (sources : list Source.t) (target : Target.t) :
  readconfig (config args) w st0 = (Ok (sources, target), st1) →
  (∃ src, src ∈ sources ∧ fails (fs st1) src) →
  ∃ r st3 evs,
    main args w st0 = (r, st3)
    ∧ status r = 1
    ∧ trace st3 = trace st0 ++ evs
    ∧ Forall quiet evs
    ∧ input_events evs = [] ∧ makedirs_events evs = [] ∧ rsync_events evs = []
    ∧ fs st3 = fs st0
    ∧ ((∀ src, src ∈ sources → has_nul (Source.path src) = false) →
       (∀ src, src ∈ sources → ¬ fails (fs st1) src → sizing_succeeds (fs st1) src) →
       r = Exit 1
       ∧ ∃ evs0,
           evs = evs0 ++ [EvStdout (error_line "one or more sources failed sanity check")]
           ∧ Forall2 (λ src text, report_of src (padding st1) text)
               sources (stdout_events evs0)).
Proof.
  intros Hread (bad & Hbad & Hfails).
  destruct (readconfig_sources _ _ _ _ _ _ Hread) as (Hsrcs & Htr & Hfs & Hin & Hrc).
  unfold main, main_prepare.
  destruct (for_each_upd (λ source, Source.show source true) sources w st1)
    as [[sources'|c|e] st2] eqn:Hshow.
  - (* every report was printed *)
    destruct (show_loop_inv _ _ _ _ _ Hsrcs Hshow) as (Hsame & Hnuls & _).
    destruct (Reads_for_each_upd (λ source, Source.show source true) sources
                (λ x, Reads_show x true) w st1) as [Hstore (evs0 & Htr2 & Hq)].
    rewrite Hshow in Hstore, Htr2. simpl in Hstore, Htr2.
    destruct Hstore as (Hi & Hp & Hf & Hin2 & Hrc2).
    assert (existsb (failsb (fs st2)) sources' = true) as Hex.
    { apply existsb_exists. apply list_elem_of_lookup in Hbad as [j Hj].
      destruct (Forall2_lookup_l _ _ _ _ _ Hsame Hj) as (bad' & Hj' & Hsf).
      exists bad'. split; [eapply list_elem_of_In, list_elem_of_lookup_2; exact Hj'|].
      apply fails_failsb. rewrite Hf. by apply (fails_same_fields _ _ _ Hsf). }
    assert (Forall (λ src, is_Some (identifiers st2 !! Source.idn src)) sources') as Hreg.
    { apply Forall_forall. intros s' Hs'. apply list_elem_of_lookup in Hs' as [j Hj'].
      destruct (Forall2_lookup_r _ _ _ _ _ Hsame Hj') as (s0 & Hj & (_ & Hidn & _)).
      rewrite Hi, Hidn. eapply Forall_lookup_1 in Hsrcs as [_ ?]; [done|exact Hj]. }
    assert (Forall (λ src, has_nul (Source.path src) = false) sources') as Hnuls'.
    { apply Forall_forall. intros s' Hs'. apply list_elem_of_lookup in Hs' as [j Hj'].
      destruct (Forall2_lookup_r _ _ _ _ _ Hsame Hj') as (s0 & Hj & (Hpath & _)).
      rewrite Hpath. by eapply Forall_lookup_1 in Hnuls. }
    pose proof (check_loop_eq sources' w st2 Hnuls' Hreg) as Hcheck.
    rewrite Hex in Hcheck.
    eexists (Exit 1), _, (evs0 ++ [EvStdout _]).
    split.
    { erewrite bind_exit; [reflexivity|].
      rewrite (bind_ok _ _ _ _ _ _ Hread). simpl.
      rewrite (bind_ok _ _ _ _ _ _ Hshow).
      erewrite bind_exit; [reflexivity|exact Hcheck]. }
    simpl. split; [done|]. split; [by rewrite Htr2, Htr, app_assoc|].
    assert (Forall quiet (evs0 ++ [EvStdout (error_line "one or more sources failed sanity check")]))
      as Hq'.
    { apply Forall_app. split; [done|]. by repeat constructor. }
    split; [done|]. destruct (quiet_no_effects _ Hq') as (? & ? & ?).
    do 4 (split; [done || congruence|]).
    intros Hnul Hsz. split; [done|]. exists evs0. split; [done|].
    destruct (show_loop_ok sources w st1) as (s2 & st2' & evs2 & Hshow2 & _ & _ & Htr2' & _ & Hrep).
    { apply Forall_forall. intros src Hsrc.
      eapply Forall_forall in Hsrcs as [? ?]; [|exact Hsrc]. auto. }
    rewrite Hshow in Hshow2. injection Hshow2 as <- <-.
    rewrite Htr2 in Htr2'. apply app_inv_head in Htr2'. by subst evs2.
  - (* [show] does not exit *)
    exfalso.
    pose proof (Returns_for_each_upd (λ _, False) not_assertion
                  (λ source, Source.show source true) sources
                  (λ x, Returns_show x true) w st1) as Hret.
    by rewrite Hshow in Hret.
  - (* an exception in [show] *)
    destruct (Reads_for_each_upd (λ source, Source.show source true) sources
                (λ x, Reads_show x true) w st1) as [Hstore (evs0 & Htr2 & Hq)].
    rewrite Hshow in Hstore, Htr2. simpl in Hstore, Htr2.
    destruct Hstore as (Hi & Hp & Hf & Hin2 & Hrc2).
    exists (Raise e), st2, evs0.
    split.
    { erewrite bind_raise; [reflexivity|].
      rewrite (bind_ok _ _ _ _ _ _ Hread). simpl.
      erewrite bind_raise; [reflexivity|exact Hshow]. }
    split; [done|]. split; [by rewrite Htr2, Htr|].
    split; [done|]. destruct (quiet_no_effects _ Hq) as (? & ? & ?).
    do 4 (split; [done || congruence|]).
    intros Hnul Hsz. exfalso.
    destruct (show_loop_ok sources w st1) as (s2 & st2' & evs2 & Hshow2 & _).
    { apply Forall_forall. intros src Hsrc.
      eapply Forall_forall in Hsrcs as [? ?]; [|exact Hsrc]. auto. }
    by rewrite Hshow in Hshow2.
Qed.

Lemma failed_sanity_exits_witness :
  ∃ st3,
    main (mkArgs "backup.json" false) (Scenario.world_of Scenario.docC)
      (initial_state Scenario.fsA []) = (Exit 1, st3)
    ∧ length (stdout_events (trace st3)) = 3%nat.
Proof.
  destruct (failed_sanity_exits (mkArgs "backup.json" false)
              (Scenario.world_of Scenario.docC)
              (initial_state Scenario.fsA [])
              (mkState {["archive" := "/a/archive"]} 15 Scenario.fsA [] 0 [])
              [Source.mk [] "/a/archive" "archive" true ∅;
               Source.mk [PStr "tmp"] "/b/archive" "archive" false ∅]
              (Target.mk "/backup") eq_refl)
    as (r & st3 & evs & Hmain & _ & Htr & _ & _ & _ & _ & _ & H).
  - exists (Source.mk [] "/a/archive" "archive" true ∅). split; [by left|].
    by left.
  - destruct H as (-> & evs0 & -> & Hrep).
    + intros src [->|[->|[]%elem_of_nil]%elem_of_cons]%elem_of_cons; reflexivity.
    + intros src [->|[->|[]%elem_of_nil]%elem_of_cons]%elem_of_cons Hn;
        destruct Hn; by left.
    + exists st3. split; [exact Hmain|].
      rewrite Htr. simpl. rewrite stdout_events_app, length_app.
      apply Forall2_length in Hrep. rewrite <- Hrep. reflexivity.
Defined.

(** C5 fails when du exits with a non-zero status on a source that
    passes the checks: the run ends in [show] of [/ok], and no report is
    ever printed for [/bad], which is not readable. *)
Lemma du_failure_hides_reports :
  let r := main (mkArgs "backup.json" false) (Scenario.world_of Scenario.docDu)
             (initial_state Scenario.fsDu []) in
  fs_readable Scenario.fsDu "/bad" = false
  ∧ fst r = Raise CalledProcessError
  ∧ trace (snd r) = [EvDu ["du"; "-sh"; "/ok"]]
  ∧ stdout_events (trace (snd r)) = [].
Proof. vm_compute. repeat split; reflexivity. Qed.

(** ** The events of the preparation phase *)

Lemma bind_inv_ok {A B} (m : M A) (k : A → M B) w st b st' :
  bind m k w st = (Ok b, st') →
  ∃ a st1, m w st = (Ok a, st1) ∧ k a w st1 = (Ok b, st').
Proof.
  unfold bind. destruct (m w st) as [[a| |] st1]; try discriminate. eauto.
Qed.

Lemma Emits_of_Reads (P : event → Prop) {A} (m : M A) :
  (∀ e, quiet e → P e) → Reads m → Emits P m.
Proof. intros HP Hm. eapply Emits_mono; [exact HP|by apply Reads_Emits]. Qed.

Lemma quiet_not_rsync e : quiet e → not_rsync e.
Proof. by destruct e. Qed.

Lemma Emits_input P prompt : P (EvInput prompt) → Emits P (input prompt).
Proof.
  intros HP w st. unfold input. destruct (stdin st); simpl.
  - apply extends_refl.
  - exists [EvInput prompt]. split; [done|]. by constructor.
Qed.

Lemma Emits_makedirs P p : P (EvMakedirs p) → Emits P (makedirs p).
Proof.
  intros HP w st. unfold makedirs.
  destruct (w_makedirs w p); simpl; exists [EvMakedirs p];
    (split; [done|]); by constructor.
Qed.

Lemma Emits_try_except P {A} (m h : M A) :
  Emits P m → Emits P h → Emits P (try_except m h).
Proof.
  intros Hm Hh w st. unfold try_except. specialize (Hm w st).
  destruct (m w st) as [[a| |] st1]; simpl in *; try done;
    (eapply extends_trans; [exact Hm|apply Hh]).
Qed.

Lemma Emits_confirm s b : Emits not_rsync (confirm s b).
Proof.
  unfold confirm. destruct b.
  - apply Emits_of_Reads; [apply quiet_not_rsync|apply Reads_ret].
  - apply Emits_bind; [by apply Emits_input|]. intros ans.
    apply Emits_of_Reads; [apply quiet_not_rsync|]. reads.
Qed.

Lemma Reads_exists target : Reads (Target.exists_ target).
Proof. unfold Target.exists_. reads. Qed.

Lemma Reads_writable target : Reads (Target.writable target).
Proof. unfold Target.writable. reads. Qed.

Lemma Reads_sanity target : Reads (Target.sanity target).
Proof. unfold Target.sanity, Target.exists_, Target.writable. reads. Qed.

Lemma Reads_main_check source : Reads (main_check source).
Proof. unfold main_check. reads. Qed.

Lemma Emits_create target : Emits not_rsync (Target.create target).
Proof.
  unfold Target.create.
  apply Emits_bind;
    [apply Emits_of_Reads; [apply quiet_not_rsync|apply Reads_exists]|].
  intros [].
  - apply Emits_of_Reads; [apply quiet_not_rsync|apply Reads_raise].
  - apply Emits_bind; [apply Emits_confirm|]. intros _.
    apply Emits_try_except; [by apply Emits_makedirs|].
    apply Emits_of_Reads; [apply quiet_not_rsync|apply Reads_err].
Qed.

Lemma extends_rsync_events st st' :
  extends not_rsync st st' → rsync_events (trace st') = rsync_events (trace st).
Proof.
  intros (evs & -> & Hall). unfold rsync_events. rewrite omap_app.
  assert (omap (λ e, match e with EvRsync args => Some args | _ => None end) evs = [])
    as ->; [|by rewrite app_nil_r].
  induction Hall as [|e evs He _ IH]; [done|]. by destruct e.
Qed.

(** When [writable] returns, [os.access] has accepted the path. *)
Lemma writable_inv target w st b st' :
  Target.writable target w st = (Ok b, st') →
  st' = st ∧ has_nul (Target.path target) = false
  ∧ b = fs_writable (fs st) (Target.path target).
Proof.
  unfold Target.writable, os_access.
  destruct (has_nul (Target.path target)); [discriminate|].
  by intros [= <- <-].
Qed.

Lemma writable_ok target w st :
  has_nul (Target.path target) = false →
  Target.writable target w st = (Ok (fs_writable (fs st) (Target.path target)), st).
Proof. apply os_access_ok. Qed.

(** What is known once the preparation phase has returned: the sources
    are those of [readconfig] (up to attributes added by [show]), all
    of them pass the checks, all their exclusion patterns are strings,
    the target exists and is writable, and rsync has not run yet. *)
Lemma main_prepare_ok args w st0 sources target st1 :
  main_prepare args w st0 = (Ok (sources, target), st1) →
  (∃ sources0 stA,
     readconfig (config args) w st0 = (Ok (sources0, target), stA)
     ∧ Forall2 same_fields sources0 sources)
  ∧ Forall (λ src, Forall is_str (Source.excludes src)) sources
  ∧ Forall (λ src, ¬ fails (fs st0) src) sources
  ∧ fs_exists (fs st1) (Target.path target) = true
  ∧ fs_writable (fs st1) (Target.path target) = true
  ∧ extends not_rsync st0 st1.
Proof.
  unfold main_prepare. intros H.
  apply bind_inv_ok in H as ([sources0 target0] & stA & Hread & H).
  apply bind_inv_ok in H as (sources' & stB & Hshow & H).
  apply bind_inv_ok in H as ([] & stC & Hcheck & H).
  apply bind_inv_ok in H as (e & stD & Hex & H).
  apply bind_inv_ok in H as ([] & stE & Hcreate & H).
  apply bind_inv_ok in H as (wr & stF & Hwr & H).
  apply bind_inv_ok in H as ([] & stG & Herr & H).
  apply bind_inv_ok in H as (sane & stH & Hsane & H).
  apply bind_inv_ok in H as ([] & stI & Hassert & H).
  apply bind_inv_ok in H as ([] & stJ & Hprint & H).
  apply bind_inv_ok in H as ([] & stK & Hloc & H).
  apply bind_inv_ok in H as ([] & stL & Hconfirm & H).
  injection H as <- <- <-.
  destruct (readconfig_sources _ _ _ _ _ _ Hread) as (Hsrcs & HtrA & HfsA & _).
  destruct (show_loop_inv _ _ _ _ _ Hsrcs Hshow) as (Hsame & Hnuls & Hstr).
  (* the states between the steps *)
  destruct (Reads_for_each_upd (λ source, Source.show source true) sources0
              (λ x, Reads_show x true) w stA) as [HsB HeB].
  rewrite Hshow in HsB, HeB. simpl in HsB, HeB.
  destruct (Reads_for_each main_check sources' Reads_main_check w stB) as [HsC HeC].
  rewrite Hcheck in HsC, HeC. simpl in HsC, HeC.
  destruct (Reads_exists target0 w stC) as [HsD HeD].
  rewrite Hex in HsD, HeD. simpl in HsD, HeD.
  assert (extends not_rsync stD stE) as HeE.
  { destruct e; simpl in Hcreate.
    - injection Hcreate as <-. apply extends_refl.
    - pose proof (Emits_create target0 w stD) as He. by rewrite Hcreate in He. }
  destruct (Reads_writable target0 w stE) as [HsF HeF].
  rewrite Hwr in HsF, HeF. simpl in HsF, HeF.
  assert (wr = true ∧ stG = stF) as [-> ->].
  { destruct wr; simpl in Herr; [by injection Herr as <-|].
    unfold err, bind, print, print_end, emit, sys_exit in Herr. discriminate. }
  destruct (Reads_sanity target0 w stF) as [HsH HeH].
  rewrite Hsane in HsH, HeH. simpl in HsH, HeH.
  assert (sane = true ∧ stI = stH) as [-> ->].
  { destruct sane; simpl in Hassert; [by injection Hassert as <-|discriminate]. }
  destruct (Reads_print (PyStr.nl +:+ "Locations to be synced:") w stH) as [HsJ HeJ].
  rewrite Hprint in HsJ, HeJ. simpl in HsJ, HeJ.
  destruct (Reads_for_each (Target.showSource target0) sources'
              (Reads_showSource target0) w stJ) as [HsK HeK].
  rewrite Hloc in HsK, HeK. simpl in HsK, HeK.
  pose proof (Emits_confirm "Proceed?" false w stK) as HeL.
  rewrite Hconfirm in HeL. simpl in HeL.
  (* the sources pass the checks *)
  destruct HsB as (HiB & _ & HfB & _).
  assert (Forall (λ src, is_Some (identifiers stB !! Source.idn src)) sources') as Hreg.
  { apply Forall_forall. intros s' Hs'. apply list_elem_of_lookup in Hs' as [j Hj'].
    destruct (Forall2_lookup_r _ _ _ _ _ Hsame Hj') as (s0 & Hj & (_ & Hidn & _)).
    rewrite HiB, Hidn. eapply Forall_lookup_1 in Hsrcs as [_ ?]; [done|exact Hj]. }
  assert (Forall (λ src, has_nul (Source.path src) = false) sources') as Hnuls'.
  { apply Forall_forall. intros s' Hs'. apply list_elem_of_lookup in Hs' as [j Hj'].
    destruct (Forall2_lookup_r _ _ _ _ _ Hsame Hj') as (s0 & Hj & (Hpath & _)).
    rewrite Hpath. by eapply Forall_lookup_1 in Hnuls. }
  rewrite (check_loop_eq sources' w stB Hnuls' Hreg) in Hcheck.
  destruct (existsb (failsb (fs stB)) sources') eqn:Hex'; [discriminate|].
  assert (Forall (λ src, ¬ fails (fs stA) src) sources') as Hpass.
  { apply Forall_forall. intros s' Hs' Hf. rewrite <- HfB in Hf.
    apply fails_failsb in Hf. apply not_true_iff_false in Hex'. apply Hex'.
    apply existsb_exists. exists s'. split; [by apply list_elem_of_In|done]. }
  (* the target *)
  pose proof (writable_inv _ _ _ _ _ Hwr) as (_ & HnulT & _).
  unfold Target.sanity, Target.exists_, Target.writable, os_access, bind,
    get_state, ret in Hsane.
  rewrite HnulT in Hsane. simpl in Hsane.
  assert (fs stL = fs stF) as HfsL.
  { assert (fs stL = fs stK) as HfLK.
    { unfold confirm, bind, input in Hconfirm.
      destruct (stdin stK); [discriminate|]. simpl in Hconfirm.
      case_bool_decide; simpl in Hconfirm; [|discriminate].
      by injection Hconfirm as <-. }
    destruct HsH as (_ & _ & HfH & _), HsJ as (_ & _ & HfJ & _),
             HsK as (_ & _ & HfK & _).
    congruence. }
  split; [exists sources0, stA; done|].
  split.
  { apply Forall_forall. intros s' Hs'. apply list_elem_of_lookup in Hs' as [j Hj'].
    destruct (Forall2_lookup_r _ _ _ _ _ Hsame Hj') as (s0 & Hj & Hsf).
    pose proof Hsf as (_ & _ & _ & ->).
    eapply Forall_lookup_1 in Hstr; [|exact Hj]. apply Hstr.
    intros Hf. eapply Forall_lookup_1 in Hpass; [|exact Hj']. apply Hpass.
    by apply (fails_same_fields _ _ _ Hsf). }
  split; [by rewrite <- HfsA|].
  rewrite HfsL.
  destruct (fs_exists (fs stF) (Target.path target0)) eqn:Hexists; [|by inversion Hsane].
  destruct (fs_writable (fs stF) (Target.path target0)) eqn:Hwritable; [|by inversion Hsane].
  do 2 (split; [done|]).
  assert (extends not_rsync st0 stA) as He0.
  { exists []. by rewrite app_nil_r, HtrA. }
  repeat (eapply extends_trans;
          [first [exact He0 | eapply extends_mono; [apply quiet_not_rsync|eassumption]
                 | eassumption]|]);
    try apply extends_refl.
Qed.

(** ** The sync phase *)

Lemma rsync_one target src w st :
  Forall is_str (Source.excludes src) →
  ∃ line,
    Target.rsync target src w st
    = (Ok tt,
       mkState (identifiers st) (padding st) (fs st) (stdin st) (S (rsync_calls st))
         (trace st ++ [EvStdout line; EvRsync (rsync_cmd target src)])).
Proof.
  intros Hstr. unfold Target.rsync.
  unfold bind at 1, print, print_end, emit. simpl.
  unfold bind at 1. rewrite rsync_args_str by done.
  unfold bind, subprocess_call, ret. simpl.
  eexists. unfold rsync_cmd. rewrite <- !app_assoc. simpl. reflexivity.
Qed.

Lemma rsync_loop target sources : ∀ w st,
  Forall (λ src, Forall is_str (Source.excludes src)) sources →
  ∃ st',
    for_each (Target.rsync target) sources w st = (Ok tt, st')
    ∧ rsync_events (trace st') = rsync_events (trace st) ++ map (rsync_cmd target) sources
    ∧ rsync_calls st' = (rsync_calls st + length sources)%nat
    ∧ fs st' = fs st ∧ stdin st' = stdin st.
Proof.
  induction sources as [|src rest IH]; intros w st Hall; simpl.
  - exists st. rewrite app_nil_r. repeat split; try done; lia.
  - inversion Hall as [|? ? Hsrc Hrest]; subst.
    destruct (rsync_one target src w st Hsrc) as (line & Hone).
    rewrite (bind_ok _ _ _ _ _ _ Hone).
    match goal with
    | |- ∃ st', for_each _ _ _ ?s = _ ∧ _ =>
        destruct (IH w s Hrest) as (st' & Hloop & Hev & Hcalls & Hfs & Hin)
    end.
    exists st'. split; [done|]. simpl in *.
    split; [|repeat split; try done; lia].
    rewrite Hev. unfold rsync_events. rewrite omap_app. simpl.
    by rewrite <- app_assoc.
Qed.

(** C6: once the preparation phase has returned, the run completes;
    rsync is run exactly once per source, in the order of the list that
    [readconfig] built from the configuration, with the fixed options
    (among them [-a], [--links], [--delete], [--delete-excluded]), one
    [--exclude identifier/pattern] per exclusion pattern, then the
    source path and the target path.  This holds whatever exit status
    each rsync reports. *)
Theorem sync_invocations (args : Args) (w : world) (st0 st1 : state)
    (sources : list Source.t) (target : Target.t) :
  main_prepare args w st0 = (Ok (sources, target), st1) →
  ∃ st2,
    main args w st0 = (Ok tt, st2)
    ∧ rsync_events (trace st2)
      = rsync_events (trace st0) ++ map (rsync_cmd target) sources
    ∧ rsync_calls st2 = (rsync_calls st1 + length sources)%nat
    ∧ Forall (λ src, Forall is_str (Source.excludes src)) sources
    ∧ (∃ d items,
         w_json w (config args) = Loaded (PDict d)
         ∧ dict_lookup d "sources" = Some (PList items)
         ∧ Forall2 (λ item src, ∃ p, item_path item = Some p
                      ∧ Source.path src = trim_trailing_slash p
                      ∧ Source.idn src = OsPath.basename (trim_trailing_slash p))
             items sources).
Proof.
  intros Hprep.
  destruct (main_prepare_ok _ _ _ _ _ _ Hprep)
    as ((sources0 & stA & Hread & Hsame) & Hstr & _ & _ & _ & Hext).
  destruct (rsync_loop target sources w st1 Hstr) as (st' & Hloop & Hev & Hcalls & _).
  eexists. split.
  { unfold main. rewrite (bind_ok _ _ _ _ _ _ Hprep). simpl.
    unfold main_sync. rewrite (bind_ok _ _ _ _ _ _ Hloop). reflexivity. }
  simpl. split.
  { unfold rsync_events in *. rewrite omap_app. simpl. rewrite app_nil_r.
    rewrite Hev. f_equal. by apply extends_rsync_events. }
  do 2 (split; [done|]).
  destruct (readconfig_order _ _ _ _ _ _ Hread) as (d & items & Hj & Hs & Hf2).
  exists d, items. do 2 (split; [done|]).
  apply Forall2_same_length_lookup. split.
  { by rewrite (Forall2_length _ _ _ Hf2), (Forall2_length _ _ _ Hsame). }
  intros i item src Hitem Hsrc.
  destruct (Forall2_lookup_l _ _ _ _ _ Hf2 Hitem) as (src0 & Hsrc0 & p & Hp & Hpath & Hidn & _).
  destruct (Forall2_lookup_l _ _ _ _ _ Hsame Hsrc0) as (src' & Hsrc' & Hp' & Hi' & _).
  rewrite Hsrc in Hsrc'. injection Hsrc' as <-.
  exists p. rewrite Hp', Hi'. done.
Qed.

Lemma sync_invocations_witness :
  ∃ st2,
    main (mkArgs "backup.json" false) (Scenario.world_rsync_fails Scenario.docTwo)
      (initial_state Scenario.fsTwo ["y"]) = (Ok tt, st2)
    ∧ rsync_events (trace st2)
      = [ ["rsync"; "-i"; "--info=progress2"; "-a"; "--links"; "--delete";
           "--delete-excluded"; "/data/photos"; "/backup"];
          ["rsync"; "-i"; "--info=progress2"; "-a"; "--links"; "--delete";
           "--delete-excluded"; "--exclude"; "docs/*.tmp"; "--exclude"; "docs/cache";
           "/home/docs"; "/backup"] ].
Proof.
  destruct (sync_invocations (mkArgs "backup.json" false)
              (Scenario.world_rsync_fails Scenario.docTwo)
              (initial_state Scenario.fsTwo ["y"])
              (snd (main_prepare (mkArgs "backup.json" false)
                      (Scenario.world_rsync_fails Scenario.docTwo)
                      (initial_state Scenario.fsTwo ["y"])))
              [Source.mk [] "/data/photos" "photos" true {["_Source__size" := "4.0K"]};
               Source.mk [PStr "*.tmp"; PStr "cache"] "/home/docs" "docs" true
                 {["_Source__size" := "4.0K"]}]
              (Target.mk "/backup"))
    as (st2 & Hmain & Hev & _).
  - vm_compute. reflexivity.
  - exists st2. split; [exact Hmain|]. rewrite Hev. reflexivity.
Defined.

(** ** The two assertions on the target *)

Lemma Returns_mono (R R' : Z → Prop) (E E' : exn → Prop) {A} (m : M A) :
  (∀ c, R c → R' c) → (∀ e, E e → E' e) → Returns R E m → Returns R' E' m.
Proof.
  intros HR HE Hm w st. specialize (Hm w st).
  destruct (fst (m w st)); auto.
Qed.

Lemma Returns_init R E s : E AttributeError → Returns R E (Source.init s).
Proof.
  intros He. destruct s; try (by apply Returns_raise).
  intros w st. unfold Source.init, bind, Source.update_padding. simpl.
  destruct (_ <? _)%nat; simpl; by case_bool_decide.
Qed.

Lemma Returns_readconfig_item R E item :
  E AttributeError → E TypeError → (∀ k, E (KeyError k)) →
  Returns R E (readconfig_item item).
Proof.
  intros Ha Ht Hk.
  unfold readconfig_item, getpath, getexclude, dict_get, py_iter.
  returns; try done. by apply Returns_init.
Qed.

Lemma Returns_readconfig_loop R E items :
  E AttributeError → E TypeError → (∀ k, E (KeyError k)) →
  ∀ acc, Returns R E (readconfig_loop items acc).
Proof.
  intros Ha Ht Hk. induction items as [|item rest IH]; intros acc; simpl.
  - apply Returns_ret.
  - apply Returns_bind; [by apply Returns_readconfig_item|]. intros src. apply IH.
Qed.

Lemma Returns_readconfig f :
  Returns (λ _, True) not_target_assertion (readconfig f).
Proof.
  unfold readconfig, json_load, readconfig_check, subscript, dict_get, py_iter,
    Target.init.
  returns; try done. by apply Returns_readconfig_loop.
Qed.

Lemma Returns_rsync_args R E source excls :
  E TypeError → ∀ args, Returns R E (Target.rsync_args source excls args).
Proof.
  intros He. induction excls as [|v rest IH]; intros args; simpl;
    [apply Returns_ret|].
  destruct v; try (by apply Returns_raise). apply IH.
Qed.

Lemma Returns_main_sync sources target :
  Returns (λ _, True) not_target_assertion (main_sync sources target).
Proof.
  unfold main_sync, Target.rsync. returns; try done.
  by apply Returns_rsync_args.
Qed.

Lemma Returns_confirm s b : Returns (λ _, True) not_target_assertion (confirm s b).
Proof. unfold confirm. returns; done. Qed.

(** The part of [main] after the assertion on the target. *)
Lemma Returns_locations sources target :
  Returns (λ _, True) not_target_assertion
    (run print (PyStr.nl +:+ "Locations to be synced:");
     run for_each (Target.showSource target) sources;
     run confirm "Proceed?" false;
     ret (sources, target)).
Proof.
  returns; try done.
  - unfold Target.showSource, check_output. returns; done.
  - apply Returns_confirm.
Qed.

(** [create], called on a target that does not exist, passes its
    assertion; when it returns, the target exists. *)
Lemma create_result target w st :
  fs_exists (fs st) (Target.path target) = false →
  match Target.create target w st with
  | (Ok _, st') => fs_exists (fs st') (Target.path target) = true
  | (Exit _, _) => True
  | (Raise e, _) => e = EOFError
  end.
Proof.
  intros Hex. unfold Target.create.
  rewrite (bind_ok (Target.exists_ target) _ w st false st)
    by (unfold Target.exists_, bind, get_state, ret; by rewrite Hex).
  unfold confirm, bind, input. destruct (stdin st) as [|ans rest]; [done|].
  case_bool_decide; simpl; [|done].
  unfold try_except, makedirs. simpl.
  destruct (w_makedirs w (Target.path target)); simpl; [|done].
  by rewrite bool_decide_eq_true_2.
Qed.

(** C10: no run of [main] ends in the [AssertionError] of
    [Target.create] or in that of the sanity assertion of [main]:
    [create] is only called after [exists] has answered no, and the
    sanity assertion is only reached with a target that exists (found
    or just created) and is writable. *)
Theorem target_assertions_hold (args : Args) (w : world) (st : state) :
  fst (main args w st) ≠ Raise (AssertionError AssertCreate)
  ∧ fst (main args w st) ≠ Raise (AssertionError AssertSanity).
Proof.
  cut (Returns (λ _, True) not_target_assertion (main args)).
  { intros H. specialize (H w st).
    destruct (fst (main args w st)) as [| |e]; try done.
    destruct H as [H1 H2]. split; congruence. }
  clear w st. unfold main.
  apply Returns_bind; [|intros [sources target]; apply Returns_main_sync].
  unfold main_prepare.
  apply Returns_bind; [apply Returns_readconfig|]. intros [sources0 target].
  apply Returns_bind.
  { apply Returns_for_each_upd. intros src.
    eapply Returns_mono; [| |apply Returns_show]; [done|]. by intros []. }
  intros sources.
  apply Returns_bind.
  { apply Returns_for_each. intros src. unfold main_check.
    apply Returns_bind.
    - eapply Returns_mono; [| |apply Returns_source_err]; [done|].
      by intros ? [->| ->].
    - intros e. unfold err. returns; done. }
  intros _ w st.
  rewrite (bind_ok (Target.exists_ target) _ w st
             (fs_exists (fs st) (Target.path target)) st eq_refl).
  assert (Hgo : ∀ st', fs_exists (fs st') (Target.path target) = true →
    match fst ((do wr <- Target.writable target;
                run (if negb wr then err "target not writable" else ret tt);
                do sane <- Target.sanity target;
                run (if negb sane then raise (AssertionError AssertSanity) else ret tt);
                run print (PyStr.nl +:+ "Locations to be synced:");
                run for_each (Target.showSource target) sources;
                run confirm "Proceed?" false;
                ret (sources, target)) w st') with
    | Ok _ => True
    | Exit c => True
    | Raise e => not_target_assertion e
    end).
  { intros st' Hex.
    destruct (has_nul (Target.path target)) eqn:Hnul.
    { rewrite (bind_raise (Target.writable target) _ w st' ValueError st'
                 (os_access_nul _ _ w st' Hnul)).
      by split. }
    rewrite (bind_ok (Target.writable target) _ w st' _ st'
               (writable_ok target w st' Hnul)).
    destruct (fs_writable (fs st') (Target.path target)) eqn:Hwr; simpl; [|done].
    rewrite (bind_ok (ret tt) _ w st' tt st' eq_refl).
    rewrite (bind_ok (Target.sanity target) _ w st' true st')
      by (unfold Target.sanity, Target.exists_, Target.writable, os_access, bind,
            get_state, ret; simpl; by rewrite Hex, Hnul, Hwr).
    simpl. rewrite (bind_ok (ret tt) _ w st' tt st' eq_refl).
    apply (Returns_locations sources target w st'). }
  destruct (fs_exists (fs st) (Target.path target)) eqn:Hex; simpl.
  - rewrite (bind_ok (ret tt) _ w st tt st eq_refl). by apply Hgo.
  - pose proof (create_result target w st Hex) as Hc.
    destruct (Target.create target w st) as [[[]|c|e] st1] eqn:Hcreate.
    + rewrite (bind_ok _ _ _ _ _ _ Hcreate). by apply Hgo.
    + by rewrite (bind_exit _ _ _ _ _ _ Hcreate).
    + rewrite (bind_raise _ _ _ _ _ _ Hcreate). by subst e.
Qed.

(** ** The scenarios of the specification *)

(** Scenario A: the target is in place, nothing is created, rsync runs
    once with the source and the target root. *)
Example scenario_A :
  let r := main (mkArgs "backup.json" false) (Scenario.world_of Scenario.docA)
             (initial_state Scenario.fsA ["y"]) in
  fst r = Ok tt
  ∧ makedirs_events (trace (snd r)) = []
  ∧ input_events (trace (snd r)) = ["Proceed? [y/N] "]
  ∧ rsync_events (trace (snd r))
    = [["rsync"; "-i"; "--info=progress2"; "-a"; "--links"; "--delete";
        "--delete-excluded"; "/data/photos"; "/backup"]].
Proof. vm_compute. repeat split; reflexivity. Qed.

(** Scenario B: the target is missing and the creation is declined. *)
Example scenario_B_declined :
  let r := main (mkArgs "backup.json" false) (Scenario.world_creates Scenario.docA)
             (initial_state Scenario.fsMissing ["no"]) in
  fst r = Exit 3
  ∧ makedirs_events (trace (snd r)) = []
  ∧ rsync_events (trace (snd r)) = [].
Proof. vm_compute. repeat split; reflexivity. Qed.

(** The target is missing, the creation is confirmed, and the run goes
    past both assertions. *)
Example scenario_B_created :
  let r := main (mkArgs "backup.json" false) (Scenario.world_creates Scenario.docA)
             (initial_state Scenario.fsMissing ["y"; "y"]) in
  fst r = Ok tt
  ∧ makedirs_events (trace (snd r)) = ["/backup"]
  ∧ length (input_events (trace (snd r))) = 2%nat
  ∧ length (rsync_events (trace (snd r))) = 1%nat.
Proof. vm_compute. repeat split; reflexivity. Qed.

(** Scenario C: the second source named [archive] is reported and the
    run ends with status 1 before any rsync. *)
Example scenario_C :
  let r := main (mkArgs "backup.json" false) (Scenario.world_of Scenario.docC)
             (initial_state
                (mkFs (λ _, true) (fs_access_w Scenario.fsA) (fs_exists Scenario.fsA)
                      (fs_du Scenario.fsA)) ["y"]) in
  fst r = Exit 1
  ∧ rsync_events (trace (snd r)) = []
  ∧ input_events (trace (snd r)) = [].
Proof. vm_compute. repeat split; reflexivity. Qed.

(** * Further properties of the script *)

(** ** Paths and identifiers *)

(** X1: [trim_trailing_slash] removes exactly one trailing slash, and
    leaves a string that does not end in a slash as it is. *)
Theorem trim_trailing_slash_spec :
  (∀ t, trim_trailing_slash (t +:+ "/") = t)
  ∧ (∀ s, (∀ t, s ≠ t +:+ "/") → trim_trailing_slash s = s).
Proof.
  split; [apply trim_snoc_slash|].
  - intros s Hs. unfold trim_trailing_slash.
    destruct (PyStr.endswith s "/") eqn:He; [|done].
    apply endswith_slash_iff in He as [t ->]. by destruct (Hs t).
Qed.

Lemma trim_trailing_slash_spec_witness :
  trim_trailing_slash ("/data/photos" +:+ "/") = "/data/photos"
  ∧ trim_trailing_slash "/data/photos" = "/data/photos".
Proof.
  destruct trim_trailing_slash_spec as [H1 H2]. split; [apply H1|].
  apply H2. intros t Ht.
  assert (PyStr.endswith "/data/photos" "/" = true) as He
    by (apply endswith_slash_iff; eauto).
  discriminate He.
Defined.

(** X2: the identifier of a constructed [Source] contains no slash; it
    is the part of the stripped path after its last slash, and the
    whole stripped path when that has no slash. *)
Theorem identifier_spec (p : string) (w : world) (st st' : state) (src : Source.t) :
  Source.init (PStr p) w st = (Ok src, st') →
  PyStr.rfind_slash (Source.idn src) = -1
  ∧ (∀ d b, trim_trailing_slash p = d +:+ "/" +:+ b →
            PyStr.rfind_slash b = -1 → Source.idn src = b)
  ∧ (PyStr.rfind_slash (trim_trailing_slash p) = -1 →
     Source.idn src = trim_trailing_slash p).
Proof.
  intros Hinit. destruct (init_str p w st) as (u & st1 & Hi & _).
  rewrite Hi in Hinit. injection Hinit as <- <-. simpl.
  split; [apply basename_no_slash|]. split.
  - intros d b -> Hb. by apply basename_split.
  - apply basename_plain.
Qed.

Lemma identifier_spec_witness :
  Source.idn (Source.mk [] "/data/photos" "photos" true ∅) = "photos".
Proof.
  destruct (identifier_spec "/data/photos/" (Scenario.world_of Scenario.docA)
              (initial_state Scenario.fsA [])
              (mkState {["photos" := "/data/photos/"]} 18 Scenario.fsA [] 0 [])
              (Source.mk [] "/data/photos" "photos" true ∅) eq_refl)
    as (_ & H & _).
  apply (H "/data" "photos"); reflexivity.
Defined.

(** X3: a path that ends in two slashes keeps one of them and gets the
    empty identifier. *)
Theorem double_slash_identifier (t : string) (w : world) (st : state) :
  ∃ u st',
    Source.init (PStr (t +:+ "//")) w st
    = (Ok (Source.mk [] (t +:+ "/") "" u ∅), st').
Proof.
  destruct (init_str (t +:+ "//") w st) as (u & st' & Hi & _).
  exists u, st'. rewrite Hi.
  assert (trim_trailing_slash (t +:+ "//") = t +:+ "/") as ->.
  { replace (t +:+ "//") with ((t +:+ "/") +:+ "/") by by rewrite string_app_assoc.
    apply trim_snoc_slash. }
  replace (OsPath.basename (t +:+ "/")) with "";  [done|].
  symmetry. rewrite <- (string_app_nil_r (t +:+ "/")), string_app_assoc.
  by apply basename_split.
Qed.

(** ** Destinations *)

Lemma no_slash_not_prefix (b : string) :
  PyStr.rfind_slash b = -1 → String.prefix "/" b = false.
Proof.
  destruct b as [|c b]; [done|]. intros Hb.
  apply not_true_is_false. intros ->%prefix_slash_cons.
  simpl in Hb. pose proof (rfind_slash_ge b).
  destruct (0 <=? PyStr.rfind_slash b); lia.
Qed.

Lemma join_no_slash (a b : string) :
  PyStr.rfind_slash b = -1 →
  OsPath.join a b
  = a +:+ (if bool_decide (a = "") || PyStr.endswith a "/" then "" else "/") +:+ b.
Proof.
  intros Hb. unfold OsPath.join. rewrite no_slash_not_prefix by done.
  by destruct (bool_decide (a = "") || PyStr.endswith a "/").
Qed.

(** The last component of the destination of a slash-free name is that
    name. *)
Lemma basename_join (t b : string) :
  PyStr.rfind_slash b = -1 → OsPath.basename (OsPath.join t b) = b.
Proof.
  intros Hb. rewrite join_no_slash by done.
  case_bool_decide as Ht; simpl.
  - subst t. by apply basename_plain.
  - destruct (PyStr.endswith t "/") eqn:He.
    + apply endswith_slash_iff in He as [t' ->].
      rewrite (string_app_assoc t' "/" ("" +:+ b)). by apply basename_split.
    + by apply basename_split.
Qed.

(** X4: the destination of a constructed source is the target path,
    then a slash unless the target path is empty or already ends in
    one, then the identifier.  The last component of the destination is
    the identifier, so two sources whose destinations under one target
    coincide have the same identifier. *)
Theorem destinations_distinct (target : Target.t) (p1 p2 : string)
    (w1 w2 : world) (st1 st1' st2 st2' : state) (s1 s2 : Source.t) :
  Source.init (PStr p1) w1 st1 = (Ok s1, st1') →
  Source.init (PStr p2) w2 st2 = (Ok s2, st2') →
  let t := Target.path target in
  let dest := OsPath.join t (Source.idn s1) in
  (t = "" → dest = Source.idn s1)
  ∧ (∀ t', t = t' +:+ "/" → dest = t +:+ Source.idn s1)
  ∧ (t ≠ "" → (∀ t', t ≠ t' +:+ "/") → dest = t +:+ "/" +:+ Source.idn s1)
  ∧ OsPath.basename dest = Source.idn s1
  ∧ (dest = OsPath.join t (Source.idn s2) → Source.idn s1 = Source.idn s2).
Proof.
  intros H1 H2 t dest.
  destruct (init_str p1 w1 st1) as (u1 & st1'' & Hi1 & _).
  destruct (init_str p2 w2 st2) as (u2 & st2'' & Hi2 & _).
  rewrite Hi1 in H1. rewrite Hi2 in H2.
  injection H1 as <- <-. injection H2 as <- <-. subst dest. simpl.
  pose proof (basename_no_slash (trim_trailing_slash p1)) as Hb1.
  pose proof (basename_no_slash (trim_trailing_slash p2)) as Hb2.
  split; [|split; [|split; [|split]]].
  - intros Ht. by rewrite join_no_slash, Ht.
  - intros t' Ht. rewrite join_no_slash by done.
    rewrite (proj2 (endswith_slash_iff t)) by eauto. by rewrite orb_true_r.
  - intros Hne Hns. rewrite join_no_slash by done.
    rewrite bool_decide_eq_false_2 by done.
    destruct (PyStr.endswith t "/") eqn:He; [|done].
    apply endswith_slash_iff in He as [t' Ht']. by destruct (Hns t').
  - by apply basename_join.
  - intros Heq. apply (f_equal OsPath.basename) in Heq.
    by rewrite !basename_join in Heq.
Qed.

Lemma destinations_distinct_witness :
  OsPath.join "/backup" "archive" = "/backup" +:+ "/" +:+ "archive"
  ∧ OsPath.basename (OsPath.join "/backup" "archive") = "archive".
Proof.
  destruct (destinations_distinct (Target.mk "/backup") "/a/archive" "/b/archive/"
              (Scenario.world_of Scenario.docC) (Scenario.world_of Scenario.docC)
              (initial_state Scenario.fsA [])
              (snd (Source.init (PStr "/a/archive") (Scenario.world_of Scenario.docC)
                      (initial_state Scenario.fsA [])))
              (initial_state Scenario.fsA [])
              (snd (Source.init (PStr "/b/archive/") (Scenario.world_of Scenario.docC)
                      (initial_state Scenario.fsA [])))
              (Source.mk [] "/a/archive" "archive" true ∅)
              (Source.mk [] "/b/archive" "archive" true ∅))
    as (_ & _ & H & Hb & _).
  - vm_compute. reflexivity.
  - vm_compute. reflexivity.
  - split; [|exact Hb]. apply H; [discriminate|].
    intros t' Ht.
    assert (PyStr.endswith "/backup" "/" = true) as He
      by (apply endswith_slash_iff; eauto).
    discriminate He.
Defined.

(** ** The shared column width *)

Lemma spaces_length (n : nat) : String.length (PyStr.spaces n) = n.
Proof. induction n as [|n IH]; simpl; [done|by rewrite IH]. Qed.

Lemma ljust_length (s : string) (pad : nat) :
  String.length (PyStr.ljust s pad) = Nat.max (String.length s) pad.
Proof. unfold PyStr.ljust. rewrite string_length_app, spaces_length. lia. Qed.

Lemma init_padding s w st src st' :
  Source.init s w st = (Ok src, st') →
  padding st' = Nat.max (padding st) (String.length (Source.path src) * 3 / 2).
Proof.
  destruct s; try discriminate.
  unfold Source.init, bind, Source.update_padding. simpl.
  destruct (_ <? _)%nat eqn:Hlt; simpl; case_bool_decide; intros [= <- <-]; simpl;
    (apply Nat.ltb_lt in Hlt || apply Nat.ltb_ge in Hlt); lia.
Qed.

Lemma Reads_getpath item : Reads (getpath item).
Proof. unfold getpath, dict_get. reads. Qed.

Lemma Reads_getexclude item : Reads (getexclude item).
Proof. unfold getexclude, dict_get. reads. Qed.

Lemma Reads_py_iter v : Reads (py_iter v).
Proof. unfold py_iter. reads. Qed.

Lemma readconfig_item_padding item w st src st' :
  readconfig_item item w st = (Ok src, st') →
  padding st' = Nat.max (padding st) (String.length (Source.path src) * 3 / 2).
Proof.
  unfold readconfig_item. intros H.
  apply bind_inv_ok in H as (p & st1 & Hp & H).
  apply bind_inv_ok in H as (src0 & st2 & Hinit & H).
  apply bind_inv_ok in H as (ex & st3 & Hex & H).
  apply bind_inv_ok in H as (exl & st4 & Hit & H).
  injection H as <- <-.
  destruct (Reads_getpath item w st) as [(_ & Hp1 & _) _]. rewrite Hp in Hp1.
  destruct (Reads_getexclude item w st2) as [(_ & Hp3 & _) _]. rewrite Hex in Hp3.
  destruct (Reads_py_iter ex w st3) as [(_ & Hp4 & _) _]. rewrite Hit in Hp4.
  simpl in *. rewrite fold_exclude. simpl.
  rewrite Hp4, Hp3, (init_padding _ _ _ _ _ Hinit). by rewrite Hp1.
Qed.

Lemma readconfig_loop_padding items : ∀ acc w st sources st',
  readconfig_loop items acc w st = (Ok sources, st') →
  ∃ news, sources = acc ++ news
    ∧ padding st'
      = Nat.max (padding st)
          (max_list ((λ src, String.length (Source.path src) * 3 / 2)%nat <$> news)).
Proof.
  induction items as [|item rest IH]; intros acc w st sources st'; simpl.
  - intros [= <- <-]. exists []. rewrite app_nil_r. simpl.
    split; [done|by rewrite Nat.max_0_r].
  - intros H. apply bind_inv_ok in H as (src & st1 & Hitem & Hloop).
    apply IH in Hloop as (news & -> & Hpad).
    apply readconfig_item_padding in Hitem.
    exists (src :: news). rewrite <- app_assoc. split; [done|].
    rewrite Hpad, Hitem, fmap_cons. cbn [max_list].
    symmetry. apply Nat.max_assoc.
Qed.

(** X5: after loading, [Source.padding] is the larger of its old value
    and [int(1.5 * len(path))] over the sources; it is never smaller
    than a path, so the path column that [show] prints has the same
    width for every source. *)
Theorem padding_after_load (f : string) (w : world) (st0 st1 : state)
    (sources : list Source.t) (target : Target.t) :
  readconfig f w st0 = (Ok (sources, target), st1) →
  padding st1
  = Nat.max (padding st0)
      (max_list ((λ src, String.length (Source.path src) * 3 / 2)%nat <$> sources))
  ∧ ∀ src, src ∈ sources →
      String.length (PyStr.ljust (Source.path src) (padding st1)) = padding st1.
Proof.
  intros Hread.
  apply readconfig_ok in Hread as (d & items & t & _ & _ & _ & _ & Hloop & _).
  apply readconfig_loop_padding in Hloop as (news & Hnews & Hpad).
  simpl in Hnews. subst news. split; [done|].
  intros src Hsrc. rewrite ljust_length.
  assert (String.length (Source.path src) * 3 / 2
          ≤ max_list ((λ src, String.length (Source.path src) * 3 / 2) <$> sources))%nat
    as Hle.
  { apply max_list_elem_of_le, list_elem_of_fmap. by exists src. }
  assert (String.length (Source.path src)
          ≤ String.length (Source.path src) * 3 / 2)%nat
    by (apply Nat.div_le_lower_bound; lia).
  lia.
Qed.

Lemma padding_after_load_witness :
  String.length (PyStr.ljust "/b/archive" 15) = 15%nat.
Proof.
  destruct (padding_after_load "backup.json" (Scenario.world_of Scenario.docC)
              (initial_state Scenario.fsA [])
              (mkState {["archive" := "/a/archive"]} 15 Scenario.fsA [] 0 [])
              [Source.mk [] "/a/archive" "archive" true ∅;
               Source.mk [PStr "tmp"] "/b/archive" "archive" false ∅]
              (Target.mk "/backup") eq_refl) as [_ H].
  apply (H (Source.mk [PStr "tmp"] "/b/archive" "archive" false ∅)).
  apply list_elem_of_In. right. by left.
Defined.

(** ** Reports *)

Lemma size_args_bad self excls : ∀ args w st,
  Exists (λ v, ¬ is_str v) excls →
  Source.size_args self excls args w st = (Raise TypeError, st).
Proof.
  induction excls as [|v rest IH]; intros args w st Hex.
  - by apply Exists_nil in Hex.
  - apply Exists_cons in Hex as [Hv|Hrest]; destruct v; simpl; try done;
      try (by destruct Hv). by apply IH.
Qed.

(** X6: for a source that fails a check and whose path has no NUL
    character (on which [os.access] raises), [show] prints one report
    made of the path column and the reasons in red, runs no du, and
    leaves the object as it is, whatever its [size] argument. *)
Theorem show_of_failing (self : Source.t) (b : bool) (w : world) (st : state) :
  has_nul (Source.path self) = false →
  is_Some (identifiers st !! Source.idn self) →
  fails (fs st) self →
  ∃ e rest,
    Source.err self w st = (Ok e, st)
    ∧ e ≠ ""
    ∧ Source.show self b w st
      = (Ok self,
         mkState (identifiers st) (padding st) (fs st) (stdin st) (rsync_calls st)
           (trace st
            ++ [EvStdout (Color.yellow (PyStr.ljust (Source.path self) (padding st))
                          +:+ Color.red e +:+ rest)])).
Proof.
  intros Hnul Hreg Hfails.
  destruct (source_err_eq self w st Hnul Hreg) as (e & He & Hempty).
  assert (e ≠ "") as Hne by (intros He0; by apply Hempty in He0).
  unfold Source.show.
  rewrite (bind_ok get_state _ w st st st eq_refl).
  rewrite (bind_ok _ _ w st e st He).
  rewrite bool_decide_eq_false_2 by done. simpl.
  unfold bind, Source.show_excludes, get_world, ret, print_end, emit. simpl.
  eexists e, _. split; [done|]. split; [done|].
  rewrite !string_app_assoc. reflexivity.
Qed.

Lemma show_of_failing_witness :
  ∃ e rest,
    Source.show (Source.mk [] "/b/archive" "archive" false ∅) true
      (Scenario.world_of Scenario.docC)
      (mkState {["archive" := "/a/archive"]} 15 Scenario.fsA [] 0 [])
    = (Ok (Source.mk [] "/b/archive" "archive" false ∅),
       mkState {["archive" := "/a/archive"]} 15 Scenario.fsA [] 0
         [EvStdout (Color.yellow (PyStr.ljust "/b/archive" 15)
                    +:+ Color.red e +:+ rest)]).
Proof.
  destruct (show_of_failing (Source.mk [] "/b/archive" "archive" false ∅) true
              (Scenario.world_of Scenario.docC)
              (mkState {["archive" := "/a/archive"]} 15 Scenario.fsA [] 0 []))
    as (e & rest & _ & _ & H).
  - reflexivity.
  - by exists "/a/archive".
  - by left.
  - by exists e, rest.
Defined.

(** X7: for a source that passes both checks but has an exclusion
    pattern that is not a string, [show] raises [TypeError] before du is
    run and before anything is printed. *)
Theorem show_non_string_pattern (self : Source.t) (w : world) (st : state) :
  is_Some (identifiers st !! Source.idn self) →
  ¬ fails (fs st) self →
  Source.attrs self !! "__size" = None →
  Exists (λ v, ¬ is_str v) (Source.excludes self) →
  Source.show self true w st = (Raise TypeError, st).
Proof.
  intros Hreg Hpass Hno Hex.
  destruct (source_err_eq self w st (not_fails_no_nul _ _ Hpass) Hreg)
    as (e & He & Hempty).
  apply Hempty in Hpass as ->.
  unfold Source.show.
  rewrite (bind_ok get_state _ w st st st eq_refl).
  rewrite (bind_ok _ _ w st "" st He). simpl.
  erewrite bind_raise; [reflexivity|].
  erewrite bind_raise; [reflexivity|].
  unfold Source.size. rewrite hasattr_size, Hno. simpl.
  erewrite bind_raise; [reflexivity|].
  erewrite bind_raise; [reflexivity|]. by apply size_args_bad.
Qed.

Lemma show_non_string_pattern_witness :
  Source.show (Source.mk [PInt 1] "/data/photos" "photos" true ∅) true
    (Scenario.world_of Scenario.docA)
    (mkState {["photos" := "/data/photos"]} 18 Scenario.fsA [] 0 [])
  = (Raise TypeError, mkState {["photos" := "/data/photos"]} 18 Scenario.fsA [] 0 []).
Proof.
  apply show_non_string_pattern.
  - by exists "/data/photos".
  - intros [H|H]; discriminate H.
  - reflexivity.
  - apply Exists_cons_hd. simpl. tauto.
Defined.



(** X9: [showSource] prints "to be created" and runs no du when the
    destination does not exist.  When it exists and [Source.padding] is
    below 4, the width [padding - 4] given to the format is negative,
    and the call ends in [ValueError] after du has run. *)
Theorem showSource_edges (target : Target.t) (source : Source.t) (w : world) (st : state) :
  let location := OsPath.join (Target.path target) (Source.idn source) in
  (fs_exists (fs st) location = false →
   Target.showSource target source w st
   = (Ok tt,
      mkState (identifiers st) (padding st) (fs st) (stdin st) (rsync_calls st)
        (trace st
         ++ [EvStdout ((Color.blue (PyStr.ljust location (padding st))
                        +:+ Color.green "to be created") +:+ PyStr.nl)])))
  ∧ (fs_exists (fs st) location = true →
     (padding st < 4)%nat →
     ∀ out size, fs_du (fs st) ["du"; "-sh"; location] = Some out →
       PyStr.first_word out = Some size →
       Target.showSource target source w st
       = (Raise ValueError,
          mkState (identifiers st) (padding st) (fs st) (stdin st) (rsync_calls st)
            (trace st ++ [EvDu ["du"; "-sh"; location]]))).
Proof.
  intros location. unfold Target.showSource. fold location.
  rewrite (bind_ok get_state _ w st st st eq_refl). split.
  - intros ->. reflexivity.
  - intros -> Hpad out size Hdu Hword. simpl.
    unfold bind, check_output, bind, emit, get_state. simpl.
    rewrite Hdu. simpl. rewrite Hword.
    apply Nat.ltb_lt in Hpad. by rewrite Hpad.
Qed.

Lemma showSource_edges_witness :
  fst (Target.showSource (Target.mk "/backup") (Source.mk [] "/a" "a" true ∅)
         (Scenario.world_of Scenario.docA)
         (mkState {["a" := "/a"]} 3
            (mkFs (λ _, true) (λ _, true) (λ _, true) (λ _, Some Scenario.du_line))
            [] 0 []))
  = Raise ValueError.
Proof.
  destruct (showSource_edges (Target.mk "/backup") (Source.mk [] "/a" "a" true ∅)
              (Scenario.world_of Scenario.docA)
              (mkState {["a" := "/a"]} 3
                 (mkFs (λ _, true) (λ _, true) (λ _, true) (λ _, Some Scenario.du_line))
                 [] 0 [])) as [_ H].
  rewrite (H eq_refl ltac:(simpl; lia) Scenario.du_line "4.0K" eq_refl eq_refl).
  reflexivity.
Defined.

(** ** What the loader accepts *)

(** X10: how loading one entry fails.  An entry that is neither a
    string nor an object, or an object whose [path] is not a string,
    raises [AttributeError], and an object without [path] raises
    [KeyError], all with the state untouched.  An object whose
    [exclude] is missing, null, a boolean or a number raises
    ([KeyError] or [TypeError]) only after its [Source] has been
    constructed, so its identifier stays in the registry. *)
Theorem readconfig_item_errors (item : PyVal) (w : world) (st : state) :
  match item with
  | PStr _ => True
  | PDict d =>
      match dict_lookup d "path" with
      | None => readconfig_item item w st = (Raise (KeyError "path"), st)
      | Some (PStr p) =>
          match dict_lookup d "exclude" with
          | Some (PStr _ | PList _ | PDict _) => True
          | e =>
              ∃ src st',
                Source.init (PStr p) w st = (Ok src, st')
                ∧ readconfig_item item w st
                  = (Raise (match e with None => KeyError "exclude" | _ => TypeError end),
                     st')
                ∧ is_Some (identifiers st' !! Source.idn src)
          end
      | Some _ => readconfig_item item w st = (Raise AttributeError, st)
      end
  | _ => readconfig_item item w st = (Raise AttributeError, st)
  end.
Proof.
  destruct item as [| | | |p|l|d]; try done.
  unfold readconfig_item, getpath, getexclude, dict_get.
  destruct (dict_lookup d "path") as [[| | | |p| |]|]; try done.
  destruct (init_str p w st) as (u & st' & Hi & Hu & Hf & Ht & _).
  assert (is_Some (identifiers st' !! OsPath.basename (trim_trailing_slash p))) as Hreg.
  { destruct u.
    - rewrite (Ht eq_refl), lookup_insert_eq. eauto.
    - rewrite (Hf eq_refl). symmetry in Hu.
      by apply negb_false_iff, bool_decide_eq_true_1 in Hu. }
  destruct (dict_lookup d "exclude") as [[| | | | | |]|]; try done;
    (eexists _, st'; split; [exact Hi|]; split; [|exact Hreg]);
    unfold bind, ret, raise, py_iter, makelist; by rewrite Hi.
Qed.

Lemma readconfig_item_accepts item w st :
  (∃ src st', readconfig_item item w st = (Ok src, st'))
  ↔ well_formed_item item = true.
Proof.
  split.
  - intros (src & st' & H). unfold readconfig_item in H.
    apply bind_inv_ok in H as (p & st1 & Hp & H).
    apply bind_inv_ok in H as (src0 & st2 & Hinit & H).
    apply bind_inv_ok in H as (ex & st3 & Hex & H).
    apply bind_inv_ok in H as (exl & st4 & Hit & _).
    destruct item as [| | | |?|?|d]; simpl in *; unfold ret in Hp;
      try (injection Hp as <- <-; discriminate Hinit); [done|].
    unfold dict_get, bind in Hp, Hex.
    destruct (dict_lookup d "path") as [[]|]; try discriminate;
      injection Hp as <- <-; try discriminate Hinit.
    destruct (dict_lookup d "exclude") as [[]|]; try discriminate;
      injection Hex as <- <-; try discriminate Hit; done.
  - intros Hwf. destruct item as [| | | |p|?|d]; try discriminate.
    + destruct (init_str p w st) as (u & st' & Hi & _).
      unfold readconfig_item, bind, getpath, getexclude, py_iter, ret.
      rewrite Hi. simpl. eauto.
    + simpl in Hwf. unfold readconfig_item, getpath, getexclude, dict_get.
      destruct (dict_lookup d "path") as [[| | | |p| |]|]; try discriminate.
      destruct (init_str p w st) as (u & st' & Hi & _).
      destruct (dict_lookup d "exclude") as [[]|]; try discriminate;
        unfold bind, ret, py_iter, makelist; rewrite Hi; eauto.
Qed.

Lemma readconfig_loop_accepts items : ∀ acc w st,
  (∃ sources st', readconfig_loop items acc w st = (Ok sources, st'))
  ↔ forallb well_formed_item items = true.
Proof.
  induction items as [|item rest IH]; intros acc w st; simpl.
  - split; [done|]. intros _. by exists acc, st.
  - rewrite andb_true_iff, <- (readconfig_item_accepts item w st). split.
    + intros (sources & st' & H).
      apply bind_inv_ok in H as (src & st1 & Hitem & Hloop).
      split; [eauto|]. apply (IH (acc ++ [src]) w st1). eauto.
    + intros [(src & st1 & Hitem) Hrest].
      apply (IH (acc ++ [src]) w st1) in Hrest as (sources & st' & Hloop).
      exists sources, st'. by rewrite (bind_ok _ _ _ _ _ _ Hitem).
Qed.

Lemma accepts_conforming f w st d items t :
  w_json w f = Loaded (PDict d) →
  conforms (PDict d) →
  dict_lookup d "sources" = Some (PList items) →
  dict_lookup d "target" = Some (PStr t) →
  forallb well_formed_item items = true →
  ∃ sources st', readconfig f w st = (Ok (sources, Target.mk (PyStr.strip t)), st').
Proof.
  intros Hj Hconf Hs Ht Hwf.
  apply (readconfig_loop_accepts items [] w st) in Hwf as (sources & st' & Hloop).
  exists sources, st'.
  unfold readconfig, json_load, get_world. unfold bind at 1 2. rewrite Hj.
  unfold ret at 1. unfold bind at 1. rewrite (conforms_check _ w st Hconf). simpl.
  unfold bind, dict_get. rewrite Hs. unfold ret at 1. simpl. unfold ret at 1.
  rewrite Hloop, Ht. reflexivity.
Qed.

(** X11: [readconfig] returns exactly on the documents that have the
    two keys [sources] (a list) and [target] (a string) and whose
    entries are all strings or objects with a string [path] and an
    [exclude] that is a string, a list or an object.  When it returns,
    there is one [Source] per entry, the target path is the [target]
    string stripped of surrounding whitespace, and nothing has been
    written. *)
Theorem readconfig_accepts (f : string) (w : world) (st : state) :
  ((∃ sources target st', readconfig f w st = (Ok (sources, target), st'))
   ↔ (∃ d items t,
        w_json w f = Loaded (PDict d)
        ∧ conforms (PDict d)
        ∧ dict_lookup d "sources" = Some (PList items)
        ∧ dict_lookup d "target" = Some (PStr t)
        ∧ forallb well_formed_item items = true))
  ∧ (∀ sources target st',
       readconfig f w st = (Ok (sources, target), st') →
       trace st' = trace st ∧ fs st' = fs st ∧ stdin st' = stdin st
       ∧ ∃ d items t,
           w_json w f = Loaded (PDict d)
           ∧ dict_lookup d "sources" = Some (PList items)
           ∧ dict_lookup d "target" = Some (PStr t)
           ∧ length sources = length items
           ∧ target = Target.mk (PyStr.strip t)).
Proof.
  split; [split|].
  - intros (sources & target & st' & Hread).
    apply readconfig_ok in Hread as (d & items & t & Hj & Hconf & Hs & Ht & Hloop & ->).
    exists d, items, t. do 4 (split; [done|]).
    apply (readconfig_loop_accepts items [] w st). eauto.
  - intros (d & items & t & Hj & Hconf & Hs & Ht & Hwf).
    destruct (accepts_conforming f w st d items t) as (sources & st' & H); eauto.
  - intros sources target st' Hread.
    apply readconfig_ok in Hread as (d & items & t & Hj & Hconf & Hs & Ht & Hloop & ->).
    apply readconfig_loop_ok in Hloop
      as (news & Hnews & Hf2 & _ & _ & _ & Hfs & Hin & Htr & _).
    simpl in Hnews. subst news. do 3 (split; [done|]).
    exists d, items, t. by rewrite (Forall2_length _ _ _ Hf2).
Qed.

Lemma readconfig_accepts_witness :
  ∃ sources target st',
    readconfig "backup.json" (Scenario.world_of Scenario.docTwo)
      (initial_state Scenario.fsTwo []) = (Ok (sources, target), st').
Proof.
  apply (readconfig_accepts "backup.json" (Scenario.world_of Scenario.docTwo)
           (initial_state Scenario.fsTwo [])).
  eexists _, _, _. split; [reflexivity|]. split.
  { eexists _, _, _. split; [reflexivity|]. split; [reflexivity|].
    split; reflexivity. }
  split; [reflexivity|]. split; reflexivity.
Defined.

(** X12: the registry is never cleared.  After a successful load, a
    second load of the same file in the same process flags every
    source as non-unique. *)
Theorem second_load_all_duplicates (f : string) (w : world)
    (st0 st1 st st2 : state) (sources1 sources2 : list Source.t)
    (target1 target2 : Target.t) :
  readconfig f w st0 = (Ok (sources1, target1), st1) →
  identifiers st1 ⊆ identifiers st →
  readconfig f w st = (Ok (sources2, target2), st2) →
  Forall (λ src, Source.unique src = false) sources2.
Proof.
  intros H1 Hsub H2.
  apply readconfig_ok in H1 as (d & items & t & Hj & _ & Hs & _ & Hloop1 & _).
  apply readconfig_ok in H2 as (d' & items' & t' & Hj' & _ & Hs' & _ & Hloop2 & _).
  rewrite Hj in Hj'. injection Hj' as <-. rewrite Hs in Hs'. injection Hs' as <-.
  apply readconfig_loop_ok in Hloop1 as (news1 & Hn1 & Hf1 & _ & Hdom1 & _).
  apply readconfig_loop_ok in Hloop2 as (news2 & Hn2 & Hf2 & Hflags & _).
  simpl in Hn1, Hn2. subst news1 news2.
  apply Forall_lookup. intros j s2 Hs2.
  destruct (Source.unique s2) eqn:Hu; [|done]. exfalso.
  apply (flags_ok_lookup _ _ _ _ Hflags Hs2) in Hu as [Hnot _]. apply Hnot.
  destruct (Forall2_lookup_r _ _ _ _ _ Hf2 Hs2) as (item & Hitem & p & Hp & _ & Hidn & _).
  destruct (Forall2_lookup_l _ _ _ _ _ Hf1 Hitem) as (s1 & Hs1 & p' & Hp' & _ & Hidn' & _).
  rewrite Hp in Hp'. injection Hp' as <-.
  apply (subseteq_dom (identifiers st1)); [done|].
  rewrite Hdom1. apply elem_of_union_l, elem_of_list_to_set, list_elem_of_fmap.
  exists s1. split; [congruence|]. by eapply list_elem_of_lookup_2.
Qed.

Lemma second_load_all_duplicates_witness :
  Forall (λ src, Source.unique src = false)
    (fst (match fst (readconfig "backup.json" (Scenario.world_of Scenario.docA)
                       (snd (readconfig "backup.json" (Scenario.world_of Scenario.docA)
                               (initial_state Scenario.fsA [])))) with
          | Ok r => r
          | _ => ([], Target.mk "")
          end)).
Proof.
  eapply (second_load_all_duplicates "backup.json" (Scenario.world_of Scenario.docA)
            (initial_state Scenario.fsA [])
            (snd (readconfig "backup.json" (Scenario.world_of Scenario.docA)
                    (initial_state Scenario.fsA [])))
            (snd (readconfig "backup.json" (Scenario.world_of Scenario.docA)
                    (initial_state Scenario.fsA [])))
            (snd (readconfig "backup.json" (Scenario.world_of Scenario.docA)
                    (snd (readconfig "backup.json" (Scenario.world_of Scenario.docA)
                            (initial_state Scenario.fsA [])))))
            [Source.mk [] "/data/photos" "photos" true ∅] _
            (Target.mk "/backup") (Target.mk "/backup")).
  - vm_compute. reflexivity.
  - reflexivity.
  - vm_compute. reflexivity.
Defined.

(** ** Exits *)

Lemma Exits_bind P {A B} (m : M A) (k : A → M B) :
  Exits P m → (∀ a, Exits P (k a)) → Exits P (bind m k).
Proof.
  intros Hm Hk w st. unfold bind. specialize (Hm w st).
  destruct (m w st) as [[a| |] st1]; try done. apply Hk.
Qed.

Lemma Exits_of_Returns P E {A} (m : M A) :
  Returns (λ _, False) E m → Exits P m.
Proof.
  intros Hm w st. specialize (Hm w st).
  by destruct (m w st) as [[a| |] st1].
Qed.

Lemma Exits_for_each P {A} (f : A → M unit) l :
  (∀ x, Exits P (f x)) → Exits P (for_each f l).
Proof.
  intros Hf. induction l as [|x l IH]; simpl; [done|].
  apply Exits_bind; [apply Hf|done].
Qed.

Lemma Exits_err {A} msg : Exits announced (@err A msg).
Proof. intros w st. left. split; [done|]. by exists msg, (trace st). Qed.

Lemma Exits_confirm s b : Exits announced (confirm s b).
Proof.
  intros w st. unfold confirm. destruct b; [done|].
  unfold bind, input. destruct (stdin st); [done|]. simpl.
  case_bool_decide; simpl; [done|]. right. split; [done|]. by eexists.
Qed.

Lemma Exits_create target : Exits announced (Target.create target).
Proof.
  unfold Target.create.
  apply Exits_bind.
  { apply (Exits_of_Returns _ (λ _, True)). unfold Target.exists_. returns. }
  intros [].
  - apply (Exits_of_Returns _ (λ _, True)). returns. done.
  - apply Exits_bind; [apply Exits_confirm|]. intros _ w st.
    unfold try_except. destruct (makedirs (Target.path target) w st) as [[[]| |] st1];
      try done; apply (@Exits_err unit).
Qed.

Lemma no_exit_readconfig f : Returns (λ _, False) (λ _, True) (readconfig f).
Proof.
  unfold readconfig, json_load, readconfig_check, subscript, dict_get, py_iter,
    Target.init.
  returns; try done. by apply Returns_readconfig_loop.
Qed.

Lemma no_exit_showSource target source :
  Returns (λ _, False) (λ _, True) (Target.showSource target source).
Proof. unfold Target.showSource, check_output. returns; done. Qed.

Lemma no_exit_rsync target source :
  Returns (λ _, False) (λ _, True) (Target.rsync target source).
Proof. unfold Target.rsync. returns; try done. by apply Returns_rsync_args. Qed.

(** X13: once [getargs] has returned the namespace, [main] only exits
    with status 1 or 3; the last thing written before an exit with 1 is
    an "Error:" line of [err], and before an exit with 3 the line
    "Operation aborted.".  (The exits of argparse itself, inside
    [getargs], come before and are not part of this statement.) *)
Theorem main_exits_announced (args : Args) (w : world) (st : state) :
  match main args w st with
  | (Exit code, st') => announced code (trace st')
  | _ => True
  end.
Proof.
  revert w st. change (Exits announced (main args)).
  unfold main, main_prepare, main_sync.
  apply Exits_bind.
  2:{ intros [sources target]. apply (Exits_of_Returns _ (λ _, True)).
      returns; try done. apply no_exit_rsync. }
  apply Exits_bind; [apply (Exits_of_Returns _ (λ _, True)), no_exit_readconfig|].
  intros [sources0 target].
  apply Exits_bind.
  { apply (Exits_of_Returns _ not_assertion).
    apply Returns_for_each_upd. intros src. apply Returns_show. }
  intros sources.
  apply Exits_bind.
  { apply Exits_for_each. intros src. unfold main_check.
    apply Exits_bind; [eapply Exits_of_Returns, Returns_source_err|].
    intros e. destruct (negb _); [apply Exits_err|done]. }
  intros _.
  apply Exits_bind.
  { apply (Exits_of_Returns _ (λ _, True)). unfold Target.exists_. returns. }
  intros e.
  apply Exits_bind; [destruct (negb e); [apply Exits_create|done]|]. intros _.
  apply Exits_bind.
  { apply (Exits_of_Returns _ (λ _, True)). unfold Target.writable. returns; done. }
  intros wr.
  apply Exits_bind; [destruct (negb wr); [apply Exits_err|done]|]. intros _.
  apply Exits_bind.
  { apply (Exits_of_Returns _ (λ _, True)).
    unfold Target.sanity, Target.exists_, Target.writable. returns; done. }
  intros sane.
  apply Exits_bind.
  { apply (Exits_of_Returns _ (λ _, True)). returns. done. }
  intros _.
  apply Exits_bind; [apply (Exits_of_Returns _ (λ _, True)); returns|]. intros _.
  apply Exits_bind.
  { apply (Exits_of_Returns _ (λ _, True)).
    apply Returns_for_each. intros src. apply no_exit_showSource. }
  intros _.
  apply Exits_bind; [apply Exits_confirm|]. intros _. done.
Qed.

(** ** What precedes the sync phase *)

Lemma Silent_ret {A} (a : A) : Silent (ret a).
Proof. by intros w st. Qed.

Lemma Silent_raise {A} e : Silent (@raise A e).
Proof. by intros w st. Qed.

Lemma Silent_get_world : Silent get_world.
Proof. by intros w st. Qed.

Lemma Silent_bind {A B} (m : M A) (k : A → M B) :
  Silent m → (∀ a, Silent (k a)) → Silent (bind m k).
Proof.
  intros Hm Hk w st. unfold bind. specialize (Hm w st).
  destruct (m w st) as [[a| |] st1]; simpl in *; try done.
  by rewrite Hk.
Qed.

Lemma Silent_init s : Silent (Source.init s).
Proof.
  destruct s; try apply Silent_raise.
  intros w st. unfold Source.init, bind, Source.update_padding. simpl.
  destruct (_ <? _)%nat; simpl; by case_bool_decide.
Qed.

Ltac silent :=
  repeat
    match goal with
    | |- Silent (ret _) => apply Silent_ret
    | |- Silent (raise _) => apply Silent_raise
    | |- Silent get_world => apply Silent_get_world
    | |- Silent (Source.init _) => apply Silent_init
    | |- Silent (bind _ _) => apply Silent_bind; [|intros ?]
    | |- Silent (match ?x with _ => _ end) => destruct x
    end.

Lemma Silent_readconfig_loop items : ∀ acc, Silent (readconfig_loop items acc).
Proof.
  induction items as [|item rest IH]; intros acc; simpl; [apply Silent_ret|].
  apply Silent_bind; [|intros src; apply IH].
  unfold readconfig_item, getpath, getexclude, dict_get, py_iter. silent.
Qed.

Lemma Silent_readconfig f : Silent (readconfig f).
Proof.
  unfold readconfig, json_load, readconfig_check, subscript, dict_get, py_iter,
    Target.init.
  silent; apply Silent_readconfig_loop.
Qed.

Lemma Emits_of_Silent P {A} (m : M A) : Silent m → Emits P m.
Proof. intros Hm w st. exists []. by rewrite app_nil_r, Hm. Qed.

(** No rsync runs during the preparation phase, however it ends. *)
Lemma Emits_main_prepare args : Emits not_rsync (main_prepare args).
Proof.
  assert (Hr : ∀ A (m : M A), Reads m → Emits not_rsync m).
  { intros A m. apply Emits_of_Reads, quiet_not_rsync. }
  unfold main_prepare.
  apply Emits_bind; [apply Emits_of_Silent, Silent_readconfig|].
  intros [sources0 target].
  apply Emits_bind.
  { apply Hr, Reads_for_each_upd. intros x. apply Reads_show. }
  intros sources.
  apply Emits_bind; [apply Hr, Reads_for_each, Reads_main_check|]. intros _.
  apply Emits_bind; [apply Hr, Reads_exists|]. intros e.
  apply Emits_bind.
  { destruct (negb e); [apply Emits_create|apply Hr, Reads_ret]. }
  intros _.
  apply Emits_bind; [apply Hr, Reads_writable|]. intros wr.
  apply Emits_bind; [destruct (negb wr); apply Hr; [apply Reads_err|apply Reads_ret]|].
  intros _.
  apply Emits_bind; [apply Hr, Reads_sanity|]. intros sane.
  apply Emits_bind; [destruct (negb sane); apply Hr; [apply Reads_raise|apply Reads_ret]|].
  intros _.
  apply Emits_bind; [apply Hr, Reads_print|]. intros _.
  apply Emits_bind; [apply Hr, Reads_for_each, Reads_showSource|]. intros _.
  apply Emits_bind; [apply Emits_confirm|]. intros _.
  apply Hr, Reads_ret.
Qed.

(** The preparation phase returns right after the final prompt has
    been answered. *)
Lemma main_prepare_confirmed args w st0 sources target st1 :
  main_prepare args w st0 = (Ok (sources, target), st1) →
  ∃ tr, trace st1 = tr ++ [EvInput "Proceed? [y/N] "].
Proof.
  unfold main_prepare. intros H.
  apply bind_inv_ok in H as ([sources0 target0] & ? & _ & H).
  do 10 (apply bind_inv_ok in H as (? & ? & _ & H)).
  apply bind_inv_ok in H as ([] & stL & Hconfirm & H).
  injection H as <- <- <-.
  unfold confirm, bind, input in Hconfirm.
  destruct (stdin _); [discriminate|]. simpl in Hconfirm.
  case_bool_decide; simpl in Hconfirm; [|discriminate].
  injection Hconfirm as <-. by eexists.
Qed.

(** X14: rsync only runs after the whole preparation phase: if a run
    of [main] contains an rsync call, then every source passed its
    checks, the target exists and is writable, and the final prompt was
    read and answered "y" just before the sync phase. *)
Theorem rsync_only_after_confirmation (args : Args) (w : world) (st0 : state) :
  rsync_events (trace (snd (main args w st0))) ≠ rsync_events (trace st0) →
  ∃ sources target st1,
    main_prepare args w st0 = (Ok (sources, target), st1)
    ∧ Forall (λ src, ¬ fails (fs st0) src) sources
    ∧ fs_exists (fs st1) (Target.path target) = true
    ∧ fs_writable (fs st1) (Target.path target) = true
    ∧ ∃ tr, trace st1 = tr ++ [EvInput "Proceed? [y/N] "].
Proof.
  intros Hrsync.
  pose proof (Emits_main_prepare args w st0) as Hext.
  destruct (main_prepare args w st0) as [[[sources target]|c|e] st1] eqn:Hprep.
  - exists sources, target, st1. split; [done|].
    destruct (main_prepare_ok _ _ _ _ _ _ Hprep) as (_ & _ & Hpass & Hex & Hwr & _).
    do 3 (split; [done|]). by eapply main_prepare_confirmed.
  - exfalso. apply Hrsync. unfold main. rewrite (bind_exit _ _ _ _ _ _ Hprep).
    by apply extends_rsync_events.
  - exfalso. apply Hrsync. unfold main. rewrite (bind_raise _ _ _ _ _ _ Hprep).
    by apply extends_rsync_events.
Qed.

Lemma rsync_only_after_confirmation_witness :
  ∃ sources target st1,
    main_prepare (mkArgs "backup.json" false) (Scenario.world_of Scenario.docA)
      (initial_state Scenario.fsA ["y"]) = (Ok (sources, target), st1)
    ∧ fs_writable (fs st1) (Target.path target) = true.
Proof.
  destruct (rsync_only_after_confirmation (mkArgs "backup.json" false)
              (Scenario.world_of Scenario.docA) (initial_state Scenario.fsA ["y"]))
    as (sources & target & st1 & Hprep & _ & _ & Hwr & _).
  - vm_compute. discriminate.
  - by exists sources, target, st1.
Defined.

(** ** Directory creation *)

Lemma quiet_not_makedirs e : quiet e → not_makedirs e.
Proof. by destruct e. Qed.

Lemma extends_makedirs_events st st' :
  extends not_makedirs st st' → makedirs_events (trace st') = makedirs_events (trace st).
Proof.
  intros (evs & -> & Hall). unfold makedirs_events. rewrite omap_app.
  assert (omap (λ e, match e with EvMakedirs p => Some p | _ => None end) evs = [])
    as ->; [|by rewrite app_nil_r].
  induction Hall as [|e evs He _ IH]; [done|]. by destruct e.
Qed.

Lemma Emits_call P args : P (EvRsync args) → Emits P (subprocess_call args).
Proof. intros HP w st. exists [EvRsync args]. split; [done|]. by constructor. Qed.

Lemma Reads_rsync_args source excls : ∀ args, Reads (Target.rsync_args source excls args).
Proof. induction excls as [|[] rest IH]; intros args; simpl; reads; apply IH. Qed.

Lemma Keeps_of_Reads {A} (m : M A) : Reads m → Keeps m.
Proof. intros Hm w st. by destruct (Hm w st) as [(_ & _ & ? & ? & _) _]. Qed.

Lemma Keeps_bind {A B} (m : M A) (k : A → M B) :
  Keeps m → (∀ a, Keeps (k a)) → Keeps (bind m k).
Proof.
  intros Hm Hk w st. unfold bind. specialize (Hm w st).
  destruct (m w st) as [[a| |] st1]; simpl in *; try done.
  destruct Hm as [Hf Hi], (Hk a w st1) as [Hf' Hi']. split; congruence.
Qed.

Lemma Keeps_for_each {A} (f : A → M unit) l :
  (∀ x, Keeps (f x)) → Keeps (for_each f l).
Proof.
  intros Hf. induction l as [|x l IH]; simpl; [by intros w st|].
  apply Keeps_bind; [apply Hf|done].
Qed.

Lemma Keeps_rsync target source : Keeps (Target.rsync target source).
Proof.
  unfold Target.rsync.
  apply Keeps_bind; [apply Keeps_of_Reads, Reads_print|]. intros _.
  apply Keeps_bind; [apply Keeps_of_Reads, Reads_rsync_args|]. intros args.
  apply Keeps_bind; [by intros w st|]. intros _. by intros w st.
Qed.

Lemma Keeps_main_sync sources target : Keeps (main_sync sources target).
Proof.
  unfold main_sync.
  apply Keeps_bind; [apply Keeps_for_each, Keeps_rsync|]. intros _.
  apply Keeps_of_Reads, Reads_print.
Qed.

Lemma Emits_main_sync sources target : Emits not_makedirs (main_sync sources target).
Proof.
  assert (Hr : ∀ A (m : M A), Reads m → Emits not_makedirs m).
  { intros A m. apply Emits_of_Reads, quiet_not_makedirs. }
  unfold main_sync. apply Emits_bind; [|intros _; apply Hr, Reads_print].
  induction sources as [|src rest IH]; simpl; [apply Hr, Reads_ret|].
  apply Emits_bind; [|intros _; apply IH].
  unfold Target.rsync.
  apply Emits_bind; [apply Hr, Reads_print|]. intros _.
  apply Emits_bind; [apply Hr, Reads_rsync_args|]. intros args.
  apply Emits_bind; [by apply Emits_call|]. intros _. apply Hr, Reads_ret.
Qed.

Lemma Emits_confirm_nm s b : Emits not_makedirs (confirm s b).
Proof.
  unfold confirm. destruct b.
  - apply Emits_of_Reads; [apply quiet_not_makedirs|apply Reads_ret].
  - apply Emits_bind; [by apply Emits_input|]. intros ans.
    apply Emits_of_Reads; [apply quiet_not_makedirs|]. reads.
Qed.

Lemma AtMost_after p {A B} (m : M A) (k : A → M B) :
  Emits not_makedirs m → (∀ a, AtMost p (k a)) → AtMost p (bind m k).
Proof.
  intros Hm Hk w st. unfold bind. specialize (Hm w st).
  apply extends_makedirs_events in Hm.
  destruct (m w st) as [[a| |] st1]; simpl in *;
    try (exists []; rewrite app_nil_r; by auto).
  destruct (Hk a w st1) as (l & Hl & Hev). exists l. by rewrite Hev, Hm.
Qed.

Lemma AtMost_before p {A B} (m : M A) (k : A → M B) :
  AtMost p m → (∀ a, Emits not_makedirs (k a)) → AtMost p (bind m k).
Proof.
  intros Hm Hk w st. unfold bind. specialize (Hm w st).
  destruct (m w st) as [[a| |] st1]; simpl in *; try done.
  destruct Hm as (l & Hl & Hev). exists l. split; [done|].
  by rewrite (extends_makedirs_events _ _ (Hk a w st1)).
Qed.

Lemma AtMost_create target : AtMost (Target.path target) (Target.create target).
Proof.
  intros w st. unfold Target.create, bind, Target.exists_, get_state, ret. simpl.
  destruct (fs_exists _ _); simpl; [exists []; rewrite app_nil_r; by auto|].
  unfold confirm, bind, input.
  destruct (stdin st); simpl; [exists []; rewrite app_nil_r; by auto|].
  case_bool_decide; simpl.
  - unfold try_except, makedirs. simpl.
    destruct (w_makedirs w (Target.path target)); simpl;
      exists [Target.path target]; (split; [by auto|]);
      unfold makedirs_events; rewrite !omap_app; simpl; by rewrite ?app_nil_r.
  - exists []. split; [by auto|].
    unfold makedirs_events. rewrite !omap_app. simpl. by rewrite !app_nil_r.
Qed.

Lemma Guarded_bind p {A B} (m : M A) (k : A → M B) :
  Guarded p m → (∀ a, Guarded p (k a)) → Guarded p (bind m k).
Proof.
  intros Hm Hk w st Hex. unfold bind. specialize (Hm w st Hex).
  destruct (m w st) as [[a| |] st1]; simpl in *; try done.
  destruct Hm as [Hev Hfs].
  destruct (Hk a w st1) as [Hev' Hfs']; [by rewrite Hfs|].
  split; congruence.
Qed.

Lemma Guarded_of_Reads p {A} (m : M A) : Reads m → Guarded p m.
Proof.
  intros Hm w st _. destruct (Hm w st) as [(_ & _ & Hfs & _) Hext].
  split; [|done]. apply extends_makedirs_events.
  eapply extends_mono; [apply quiet_not_makedirs|done].
Qed.

Lemma Guarded_create target : Guarded (Target.path target) (Target.create target).
Proof.
  intros w st Hex. unfold Target.create, bind, Target.exists_, get_state, ret. simpl.
  by rewrite Hex.
Qed.

Lemma Guarded_confirm p s b : Guarded p (confirm s b).
Proof.
  intros w st _. split.
  - apply extends_makedirs_events, Emits_confirm_nm.
  - unfold confirm. destruct b; [done|]. unfold bind, input.
    destruct (stdin st); [done|]. simpl. by case_bool_decide.
Qed.

Lemma Guarded_main_sync p sources target : Guarded p (main_sync sources target).
Proof.
  intros w st _. split; [apply extends_makedirs_events, Emits_main_sync|].
  apply Keeps_main_sync.
Qed.

Lemma bind_bind_ok {A B C} (m : M A) (k1 : A → M B) (k2 : B → M C) w st a st' :
  m w st = (Ok a, st') → bind (bind m k1) k2 w st = bind (k1 a) k2 w st'.
Proof. intros H. unfold bind. by rewrite H. Qed.

Lemma AtMost_of_Emits p {A} (m : M A) : Emits not_makedirs m → AtMost p m.
Proof.
  intros Hm w st. exists []. rewrite app_nil_r. split; [by auto|].
  apply extends_makedirs_events, Hm.
Qed.

(** The part of the preparation phase that follows the preparation of
    the target writes no [EvMakedirs]. *)
Lemma Emits_after_target sources target :
  Emits not_makedirs
    (do wr <- Target.writable target;
     run (if negb wr then err "target not writable" else ret tt);
     do sane <- Target.sanity target;
     run (if negb sane then raise (AssertionError AssertSanity) else ret tt);
     run print (PyStr.nl +:+ "Locations to be synced:");
     run for_each (Target.showSource target) sources;
     run confirm "Proceed?" false;
     ret (sources, target)).
Proof.
  assert (Hr : ∀ A (m : M A), Reads m → Emits not_makedirs m).
  { intros A m. apply Emits_of_Reads, quiet_not_makedirs. }
  apply Emits_bind; [apply Hr, Reads_writable|]. intros wr.
  apply Emits_bind; [destruct (negb wr); apply Hr; [apply Reads_err|apply Reads_ret]|].
  intros _.
  apply Emits_bind; [apply Hr, Reads_sanity|]. intros sane.
  apply Emits_bind; [destruct (negb sane); apply Hr; [apply Reads_raise|apply Reads_ret]|].
  intros _.
  apply Emits_bind; [apply Hr, Reads_print|]. intros _.
  apply Emits_bind; [apply Hr, Reads_for_each, Reads_showSource|]. intros _.
  apply Emits_bind; [apply Emits_confirm_nm|]. intros _.
  apply Hr, Reads_ret.
Qed.

(** X15: a run of [main] calls [os.makedirs] at most once, and only on
    the target path; when the target exists after loading, it does not
    call it at all. *)
Theorem makedirs_only_for_missing_target (args : Args) (w : world) (st0 st1 : state)
    (sources : list Source.t) (target : Target.t) :
  readconfig (config args) w st0 = (Ok (sources, target), st1) →
  (∃ l, (l = [] ∨ l = [Target.path target])
        ∧ makedirs_events (trace (snd (main args w st0)))
          = makedirs_events (trace st0) ++ l)
  ∧ (fs_exists (fs st0) (Target.path target) = true →
     makedirs_events (trace (snd (main args w st0))) = makedirs_events (trace st0)).
Proof.
  intros Hread.
  destruct (readconfig_sources _ _ _ _ _ _ Hread) as (_ & Htr & Hfs & _).
  unfold main, main_prepare. rewrite (bind_bind_ok _ _ _ _ _ _ _ Hread).
  cbv beta iota. rewrite <- Htr, <- Hfs.
  assert (Hr : ∀ A (m : M A), Reads m → Emits not_makedirs m).
  { intros A m. apply Emits_of_Reads, quiet_not_makedirs. }
  match goal with
  | |- context [snd (?m w st1)] =>
      assert (AtMost (Target.path target) m) as HA;
      [|assert (Guarded (Target.path target) m) as HG]
  end.
  - apply AtMost_before; [|intros [s t]; apply Emits_main_sync].
    apply AtMost_after.
    { apply Hr, Reads_for_each_upd. intros x. apply Reads_show. }
    intros sources'.
    apply AtMost_after; [apply Hr, Reads_for_each, Reads_main_check|]. intros _.
    apply AtMost_after; [apply Hr, Reads_exists|]. intros e.
    apply AtMost_before; [|intros _; apply Emits_after_target].
    destruct e; simpl; [apply AtMost_of_Emits, Hr, Reads_ret|apply AtMost_create].
  - apply Guarded_bind; [|intros [s t]; apply Guarded_main_sync].
    apply Guarded_bind.
    { apply Guarded_of_Reads, Reads_for_each_upd. intros x. apply Reads_show. }
    intros sources'.
    apply Guarded_bind; [apply Guarded_of_Reads, Reads_for_each, Reads_main_check|].
    intros _.
    apply Guarded_bind; [apply Guarded_of_Reads, Reads_exists|]. intros e.
    apply Guarded_bind.
    { destruct e; simpl; [apply Guarded_of_Reads, Reads_ret|apply Guarded_create]. }
    intros _.
    apply Guarded_bind; [apply Guarded_of_Reads, Reads_writable|]. intros wr.
    apply Guarded_bind.
    { destruct (negb wr); apply Guarded_of_Reads; [apply Reads_err|apply Reads_ret]. }
    intros _.
    apply Guarded_bind; [apply Guarded_of_Reads, Reads_sanity|]. intros sane.
    apply Guarded_bind.
    { destruct (negb sane); apply Guarded_of_Reads; [apply Reads_raise|apply Reads_ret]. }
    intros _.
    apply Guarded_bind; [apply Guarded_of_Reads, Reads_print|]. intros _.
    apply Guarded_bind; [apply Guarded_of_Reads, Reads_for_each, Reads_showSource|].
    intros _.
    apply Guarded_bind; [apply Guarded_confirm|]. intros _.
    apply Guarded_of_Reads, Reads_ret.
  - split; [apply HA|]. intros Hex. by apply HG.
Qed.

Lemma makedirs_only_for_missing_target_witness :
  makedirs_events
    (trace (snd (main (mkArgs "backup.json" false) (Scenario.world_of Scenario.docA)
                   (initial_state Scenario.fsA ["y"]))))
  = [].
Proof.
  destruct (makedirs_only_for_missing_target (mkArgs "backup.json" false)
              (Scenario.world_of Scenario.docA) (initial_state Scenario.fsA ["y"])
              (mkState {["photos" := "/data/photos"]} 18 Scenario.fsA ["y"] 0 [])
              [Source.mk [] "/data/photos" "photos" true ∅] (Target.mk "/backup")
              eq_refl) as [_ H].
  by apply H.
Defined.

(** ** Whole runs *)

Lemma bind_bind_exit {A B C} (m : M A) (k1 : A → M B) (k2 : B → M C) w st c st' :
  m w st = (Exit c, st') → bind (bind m k1) k2 w st = (Exit c, st').
Proof. intros H. unfold bind. by rewrite H. Qed.

Lemma none_fails f sources :
  Forall (λ src, ¬ fails f src) sources → existsb (failsb f) sources = false.
Proof.
  induction 1 as [|src rest Hsrc _ IH]; [done|]. simpl. rewrite IH, orb_false_r.
  apply not_true_is_false. by rewrite <- fails_failsb.
Qed.

(** With sources that all pass and a du that works on them, the two
    loops over the sources complete. *)
Lemma validation_passes f w st0 sources target st1 :
  readconfig f w st0 = (Ok (sources, target), st1) →
  Forall (λ src, ¬ fails (fs st0) src ∧ sizing_succeeds (fs st0) src) sources →
  ∃ sources' st2,
    for_each_upd (λ source, Source.show source true) sources w st1 = (Ok sources', st2)
    ∧ for_each main_check sources' w st2 = (Ok tt, st2)
    ∧ Forall2 same_fields sources sources'
    ∧ same_store st1 st2 ∧ extends quiet st1 st2
    ∧ trace st1 = trace st0 ∧ fs st1 = fs st0 ∧ stdin st1 = stdin st0.
Proof.
  intros Hread Hall.
  destruct (readconfig_sources _ _ _ _ _ _ Hread) as (Hsrcs & Htr & Hfs & Hin & _).
  destruct (show_loop_ok sources w st1)
    as (sources' & st2 & evs & Hshow & Hsame & Hstore & Htr2 & Hq & _).
  { apply Forall_forall. intros src Hsrc.
    eapply Forall_forall in Hsrcs as [? ?]; [|exact Hsrc].
    eapply Forall_forall in Hall as [Hnf ?]; [|exact Hsrc].
    rewrite Hfs. do 2 (split; [done|]).
    split; [by apply not_fails_no_nul in Hnf|]. auto. }
  exists sources', st2. split; [done|].
  destruct Hstore as (Hi & Hp & Hf & Hin2 & Hrc).
  assert (Forall (λ src, is_Some (identifiers st2 !! Source.idn src)) sources') as Hreg.
  { apply Forall_forall. intros s' Hs'. apply list_elem_of_lookup in Hs' as [j Hj'].
    destruct (Forall2_lookup_r _ _ _ _ _ Hsame Hj') as (s0 & Hj & (_ & Hidn & _)).
    rewrite Hi, Hidn. eapply Forall_lookup_1 in Hsrcs as [_ ?]; [done|exact Hj]. }
  assert (Forall (λ src, has_nul (Source.path src) = false) sources') as Hnuls.
  { apply Forall_forall. intros s' Hs'. apply list_elem_of_lookup in Hs' as [j Hj'].
    destruct (Forall2_lookup_r _ _ _ _ _ Hsame Hj') as (s0 & Hj & (Hpath & _)).
    rewrite Hpath. eapply Forall_lookup_1 in Hall as [Hnf _]; [|exact Hj].
    by apply not_fails_no_nul in Hnf. }
  split.
  { rewrite (check_loop_eq sources' w st2 Hnuls Hreg), none_fails; [done|].
    apply Forall_forall. intros s' Hs'. apply list_elem_of_lookup in Hs' as [j Hj'].
    destruct (Forall2_lookup_r _ _ _ _ _ Hsame Hj') as (s0 & Hj & Hsf).
    rewrite (fails_same_fields _ _ _ Hsf), Hf, Hfs.
    eapply Forall_lookup_1 in Hall as [? _]; [done|exact Hj]. }
  split; [done|]. split; [by repeat split|]. split; [by exists evs|]. done.
Qed.

(** X16: with sources that all pass, a missing target and a first
    input line other than "y", the run ends with status 3 at the
    creation prompt: no directory is created, rsync is not run, the
    filesystem is as before and exactly one line was read. *)
Theorem declined_creation (args : Args) (w : world) (st0 st1 : state)
    (sources : list Source.t) (target : Target.t) (line : string) (rest : list string) :
  readconfig (config args) w st0 = (Ok (sources, target), st1) →
  Forall (λ src, ¬ fails (fs st0) src ∧ sizing_succeeds (fs st0) src) sources →
  fs_exists (fs st0) (Target.path target) = false →
  stdin st0 = line :: rest →
  line ≠ "y" →
  ∃ st,
    main args w st0 = (Exit 3, st)
    ∧ makedirs_events (trace st) = makedirs_events (trace st0)
    ∧ rsync_events (trace st) = rsync_events (trace st0)
    ∧ input_events (trace st)
      = input_events (trace st0)
        ++ ["Target " +:+ Color.cyan (Target.path target)
            +:+ " does not exist - create?" +:+ " [y/N] "]
    ∧ fs st = fs st0
    ∧ stdin st = rest.
Proof.
  intros Hread Hall Hex Hin Hline.
  destruct (validation_passes _ _ _ _ _ _ Hread Hall)
    as (sources' & st2 & Hshow & Hcheck & _ & Hstore & (evs & Htr2 & Hq) & Htr & Hfs & Hin1).
  destruct Hstore as (_ & _ & Hf & Hin2 & _).
  destruct (quiet_no_effects _ Hq) as (Hqi & Hqm & Hqr).
  eexists. split.
  { unfold main, main_prepare.
    rewrite (bind_bind_ok _ _ _ _ _ _ _ Hread). cbv beta iota.
    rewrite (bind_bind_ok _ _ _ _ _ _ _ Hshow).
    rewrite (bind_bind_ok _ _ _ _ _ _ _ Hcheck).
    rewrite (bind_bind_ok (Target.exists_ target) _ _ w st2
               (fs_exists (fs st2) (Target.path target)) st2 eq_refl).
    rewrite Hf, Hfs, Hex. simpl.
    apply bind_bind_exit.
    unfold Target.create.
    rewrite (bind_ok (Target.exists_ target) _ w st2 false st2)
      by (unfold Target.exists_, bind, get_state, ret; by rewrite Hf, Hfs, Hex).
    apply bind_exit. unfold confirm, bind, input.
    rewrite Hin2, Hin1, Hin. simpl.
    rewrite bool_decide_eq_false_2 by done. reflexivity. }
  simpl. rewrite Htr2, Htr.
  unfold makedirs_events, rsync_events, input_events in *.
  rewrite !omap_app, Hqi, Hqm, Hqr. simpl. rewrite !app_nil_r.
  by rewrite !string_app_assoc, Hf.
Qed.

Lemma declined_creation_witness :
  ∃ st,
    main (mkArgs "backup.json" false) (Scenario.world_creates Scenario.docA)
      (initial_state Scenario.fsMissing ["no"]) = (Exit 3, st)
    ∧ makedirs_events (trace st) = [].
Proof.
  destruct (declined_creation (mkArgs "backup.json" false)
              (Scenario.world_creates Scenario.docA)
              (initial_state Scenario.fsMissing ["no"])
              (mkState {["photos" := "/data/photos"]} 18 Scenario.fsMissing ["no"] 0 [])
              [Source.mk [] "/data/photos" "photos" true ∅] (Target.mk "/backup")
              "no" [] eq_refl)
    as (st & Hmain & Hmk & _).
  - repeat constructor.
    + intros [H|H]; discriminate H.
    + by exists Scenario.du_line, "4.0K".
  - reflexivity.
  - reflexivity.
  - discriminate.
  - by exists st.
Defined.

Lemma showSource_ok target src w st :
  destination_ok (fs st) (padding st) target src →
  ∃ st', Target.showSource target src w st = (Ok tt, st').
Proof.
  unfold destination_ok, Target.showSource. intros Hd.
  rewrite (bind_ok get_state _ w st st st eq_refl).
  destruct Hd as [Hex|(out & size & Hdu & Hword & Hpad)].
  - rewrite Hex. simpl. eauto.
  - destruct (fs_exists _ _); simpl; [|eauto].
    unfold bind, check_output, bind, emit, get_state. simpl.
    rewrite Hdu. simpl. rewrite Hword.
    apply Nat.ltb_ge in Hpad. rewrite Hpad. simpl. eauto.
Qed.

Lemma showSource_loop_ok target sources : ∀ w st,
  Forall (destination_ok (fs st) (padding st) target) sources →
  ∃ st', for_each (Target.showSource target) sources w st = (Ok tt, st')
         ∧ same_store st st' ∧ extends quiet st st'.
Proof.
  induction sources as [|src rest IH]; intros w st Hall; simpl.
  - exists st. split; [done|]. split; [apply same_store_refl|apply extends_refl].
  - inversion Hall as [|? ? Hsrc Hrest]; subst.
    destruct (showSource_ok target src w st Hsrc) as (st1 & Hone).
    destruct (Reads_showSource target src w st) as [Hs1 He1].
    rewrite Hone in Hs1, He1. simpl in Hs1, He1.
    destruct (IH w st1) as (st' & Hloop & Hs2 & He2).
    { destruct Hs1 as (_ & -> & -> & _). exact Hrest. }
    exists st'. rewrite (bind_ok _ _ _ _ _ _ Hone). split; [done|].
    split; [by eapply same_store_trans|by eapply extends_trans].
Qed.

Lemma rsync_cmd_same_fields target s s' :
  same_fields s s' → rsync_cmd target s' = rsync_cmd target s.
Proof. intros (Hp & Hi & _ & He). unfold rsync_cmd. by rewrite Hp, Hi, He. Qed.

(** X17: with sources that all pass, a target that exists and is
    writable, destinations that can be reported and "y" as the next
    input line, the run completes: it creates nothing, reads that one
    line, and runs rsync once per source, in order. *)
Theorem run_completes (args : Args) (w : world) (st0 st1 : state)
    (sources : list Source.t) (target : Target.t) (rest : list string) :
  readconfig (config args) w st0 = (Ok (sources, target), st1) →
  Forall (λ src, ¬ fails (fs st0) src ∧ sizing_succeeds (fs st0) src) sources →
  fs_exists (fs st0) (Target.path target) = true →
  fs_writable (fs st0) (Target.path target) = true →
  Forall (destination_ok (fs st0) (padding st1) target) sources →
  stdin st0 = "y" :: rest →
  ∃ st,
    main args w st0 = (Ok tt, st)
    ∧ rsync_events (trace st)
      = rsync_events (trace st0) ++ map (rsync_cmd target) sources
    ∧ makedirs_events (trace st) = makedirs_events (trace st0)
    ∧ input_events (trace st) = input_events (trace st0) ++ ["Proceed? [y/N] "]
    ∧ stdin st = rest.
Proof.
  intros Hread Hall Hex Hwr Hdest Hin.
  destruct (validation_passes _ _ _ _ _ _ Hread Hall)
    as (sources' & st2 & Hshow & Hcheck & Hsame & Hstore & (evs & Htr2 & Hq) & Htr & Hfs & Hin1).
  destruct Hstore as (_ & Hp & Hf & Hin2 & _).
  destruct (quiet_no_effects _ Hq) as (Hqi & Hqm & Hqr).
  set (stJ := snd (print (PyStr.nl +:+ "Locations to be synced:") w st2)).
  destruct (showSource_loop_ok target sources' w stJ)
    as (stK & Hloc & HsK & (evsK & HtrK & HqK)).
  { simpl. rewrite Hf, Hp, Hfs.
    apply Forall_forall. intros s' Hs'. apply list_elem_of_lookup in Hs' as [j Hj'].
    destruct (Forall2_lookup_r _ _ _ _ _ Hsame Hj') as (s0 & Hj & (_ & Hidn & _)).
    eapply Forall_lookup_1 in Hdest; [|exact Hj].
    unfold destination_ok in *. by rewrite Hidn. }
  destruct HsK as (_ & _ & HfK & HinK & _).
  destruct (quiet_no_effects _ HqK) as (HqiK & HqmK & HqrK).
  assert (Hprep : ∃ stL,
    main_prepare args w st0 = (Ok (sources', target), stL)
    ∧ trace stL = trace stK ++ [EvInput "Proceed? [y/N] "]
    ∧ stdin stL = rest).
  { exists (mkState (identifiers stK) (padding stK) (fs stK) rest (rsync_calls stK)
              (trace stK ++ [EvInput "Proceed? [y/N] "])).
    split; [|split; reflexivity].
    assert (fs_exists (fs st2) (Target.path target) = true) as Hex2
      by (by rewrite Hf, Hfs).
    assert (fs_writable (fs st2) (Target.path target) = true) as Hwr2
      by (by rewrite Hf, Hfs).
    unfold main_prepare.
    rewrite (bind_ok _ _ _ _ _ _ Hread). cbv beta iota.
    rewrite (bind_ok _ _ _ _ _ _ Hshow).
    rewrite (bind_ok _ _ _ _ _ _ Hcheck).
    rewrite (bind_ok (Target.exists_ target) _ w st2
               (fs_exists (fs st2) (Target.path target)) st2 eq_refl).
    rewrite Hex2. simpl negb. cbv iota.
    rewrite (bind_ok (ret tt) _ w st2 tt st2 eq_refl).
    pose proof (writable_no_nul _ _ Hwr2) as HnulT.
    rewrite (bind_ok (Target.writable target) _ w st2 _ st2
               (writable_ok target w st2 HnulT)).
    rewrite Hwr2. simpl negb. cbv iota.
    rewrite (bind_ok (ret tt) _ w st2 tt st2 eq_refl).
    rewrite (bind_ok (Target.sanity target) _ w st2 true st2)
      by (unfold Target.sanity, Target.exists_, Target.writable, os_access, bind,
            get_state, ret; simpl; by rewrite Hex2, HnulT, Hwr2).
    simpl negb. cbv iota.
    rewrite (bind_ok (ret tt) _ w st2 tt st2 eq_refl).
    rewrite (bind_ok (print (PyStr.nl +:+ "Locations to be synced:")) _ w st2 tt stJ eq_refl).
    rewrite (bind_ok _ _ _ _ _ _ Hloc).
    erewrite bind_ok; [reflexivity|].
    unfold confirm, bind, input. rewrite HinK. simpl. rewrite Hin2, Hin1, Hin.
    simpl. reflexivity. }
  destruct Hprep as (stL & Hprep & HtrL & HinL).
  destruct (main_prepare_ok _ _ _ _ _ _ Hprep) as (_ & Hstr & _).
  destruct (rsync_loop target sources' w stL Hstr) as (st' & Hloop & Hev & _ & _ & Hin').
  eexists. split.
  { unfold main. rewrite (bind_ok _ _ _ _ _ _ Hprep). simpl.
    unfold main_sync. rewrite (bind_ok _ _ _ _ _ _ Hloop). reflexivity. }
  simpl.
  assert (map (rsync_cmd target) sources' = map (rsync_cmd target) sources) as Hmap.
  { apply list_eq. intros j. rewrite !list_lookup_fmap.
    destruct (sources !! j) as [s0|] eqn:Hj.
    - destruct (Forall2_lookup_l _ _ _ _ _ Hsame Hj) as (s' & -> & Hsf). simpl.
      by rewrite (rsync_cmd_same_fields _ _ _ Hsf).
    - apply lookup_ge_None in Hj. rewrite (Forall2_length _ _ _ Hsame) in Hj.
      apply lookup_ge_None in Hj. by rewrite Hj. }
  assert (∃ evsS, trace st' = trace stL ++ evsS
                  ∧ makedirs_events evsS = [] ∧ input_events evsS = []) as (evsS & HtrS & HmS & HiS).
  { pose proof (Emits_bind not_makedirs (for_each (Target.rsync target) sources')
                  (λ _, ret tt)) as He.
    assert (Emits (λ e, not_makedirs e ∧ match e with EvInput _ => False | _ => True end)
              (for_each (Target.rsync target) sources')) as Hem.
    { clear. induction sources' as [|src r IH]; simpl.
      - intros w st. apply extends_refl.
      - apply Emits_bind; [|intros _; apply IH]. unfold Target.rsync.
        apply Emits_bind.
        { apply Emits_of_Reads; [by intros []|apply Reads_print]. }
        intros _. apply Emits_bind.
        { apply Emits_of_Reads; [by intros []|apply Reads_rsync_args]. }
        intros a. apply Emits_bind; [by apply Emits_call|]. intros _.
        apply Emits_of_Reads; [by intros []|apply Reads_ret]. }
    specialize (Hem w stL). rewrite Hloop in Hem. destruct Hem as (evsS & HtrS & HS).
    exists evsS. split; [done|]. clear -HS.
    induction HS as [|e l [He1 He2] _ [IH1 IH2]]; [done|]. by destruct e. }
  assert (HtrJ : ∃ line, trace stJ = trace st2 ++ [EvStdout line]) by (by eexists).
  destruct HtrJ as (lineJ & HtrJ). clearbody stJ. simpl.
  unfold rsync_events, makedirs_events, input_events in *.
  rewrite !omap_app. simpl. rewrite !app_nil_r. split.
  { rewrite Hev, HtrL, HtrK, HtrJ, Htr2, Htr, !omap_app, Hqr, HqrK, Hmap.
    simpl. by rewrite !app_nil_r. }
  rewrite HtrS, HtrL, HtrK, HtrJ, Htr2, Htr, !omap_app, HmS, HiS, HqmK, HqiK, Hqm, Hqi.
  simpl. rewrite !app_nil_r. split; [done|]. split; [done|]. by rewrite Hin', HinL.
Qed.

Lemma run_completes_witness :
  ∃ st,
    main (mkArgs "backup.json" false) (Scenario.world_rsync_fails Scenario.docTwo)
      (initial_state Scenario.fsTwo ["y"]) = (Ok tt, st)
    ∧ stdin st = [].
Proof.
  assert (∀ src, Forall is_str (Source.excludes src) →
            Source.unique src = true →
            fs_readable Scenario.fsTwo (Source.path src) = true →
            ¬ fails Scenario.fsTwo src ∧ sizing_succeeds Scenario.fsTwo src) as Hok.
  { intros src Hstr Hu Hr. split.
    - intros [H|H]; congruence.
    - split; [done|]. by exists Scenario.du_line, "4.0K". }
  destruct (run_completes (mkArgs "backup.json" false)
              (Scenario.world_rsync_fails Scenario.docTwo)
              (initial_state Scenario.fsTwo ["y"])
              (mkState {["photos" := "/data/photos"; "docs" := "/home/docs/"]} 18
                 Scenario.fsTwo ["y"] 0 [])
              [Source.mk [] "/data/photos" "photos" true ∅;
               Source.mk [PStr "*.tmp"; PStr "cache"] "/home/docs" "docs" true ∅]
              (Target.mk "/backup") [])
    as (st & Hmain & _ & _ & _ & Hin).
  - vm_compute. reflexivity.
  - apply Forall_cons. split; [apply Hok; [by constructor|done..]|].
    apply Forall_cons. split; [apply Hok; [by repeat constructor|done..]|].
    apply Forall_nil_2.
  - reflexivity.
  - reflexivity.
  - apply Forall_cons. split; [by left|].
    apply Forall_cons. split; [by left|]. apply Forall_nil_2.
  - reflexivity.
  - exists st. split; [exact Hmain|exact Hin].
Defined.

(** ** The target path *)

Lemma lstrip_spaces (ws s : string) :
  all_space ws = true → PyStr.lstrip (ws +:+ s) = PyStr.lstrip s.
Proof.
  induction ws as [|c ws IH]; [done|]. simpl. intros [Hc Hws]%andb_true_iff.
  change (PyStr.lstrip (String c (ws +:+ s)) = PyStr.lstrip s).
  simpl. rewrite Hc. by apply IH.
Qed.

Lemma all_space_rev_app (s acc : string) :
  all_space (String.rev_app s acc) = all_space s && all_space acc.
Proof.
  revert acc. induction s as [|c s IH]; intros acc; [done|].
  simpl. rewrite IH. simpl. by destruct (PyStr.isspace c), (all_space s).
Qed.

Lemma rev_app_distr (s1 s2 : string) :
  String.rev (s1 +:+ s2) = String.rev s2 +:+ String.rev s1.
Proof. unfold String.rev at 1. rewrite rev_app_app. apply rev_app_rev. Qed.

Lemma rstrip_spaces (s ws : string) :
  all_space ws = true → PyStr.rstrip (s +:+ ws) = PyStr.rstrip s.
Proof.
  intros Hws. unfold PyStr.rstrip. rewrite rev_app_distr, lstrip_spaces; [done|].
  unfold String.rev. by rewrite all_space_rev_app, Hws.
Qed.

Lemma rstrip_nonspace (t : string) (b : ascii) :
  PyStr.isspace b = false → PyStr.rstrip (t +:+ String b "") = t +:+ String b "".
Proof.
  intros Hb. unfold PyStr.rstrip. rewrite rev_app_distr.
  change (String.rev (String b "") +:+ String.rev t) with (String b (String.rev t)).
  simpl. rewrite Hb. unfold String.rev at 1. simpl.
  by rewrite rev_app_rev, rev_involutive.
Qed.

(** X18: [Target] strips the whitespace around the configured path and
    nothing else: a path that begins and ends with characters that are
    not whitespace is kept whole, a trailing slash included (unlike the
    path of a [Source]). *)
Theorem target_path_stripped (ws1 ws2 r t : string) (a b : ascii) (w : world) (st : state) :
  all_space ws1 = true →
  all_space ws2 = true →
  PyStr.isspace a = false →
  PyStr.isspace b = false →
  String a r = t +:+ String b "" →
  Target.init (PStr (ws1 +:+ String a r +:+ ws2)) w st
  = (Ok (Target.mk (String a r)), st).
Proof.
  intros H1 H2 Ha Hb Hcore. unfold Target.init, ret. do 2 f_equal.
  unfold PyStr.strip. rewrite lstrip_spaces by done.
  change (String a r +:+ ws2) with (String a (r +:+ ws2)).
  simpl PyStr.lstrip. rewrite Ha.
  change (String a (r +:+ ws2)) with (String a r +:+ ws2).
  rewrite rstrip_spaces by done. rewrite Hcore. by rewrite rstrip_nonspace.
Qed.

Lemma target_path_stripped_witness :
  Target.init (PStr ("  " +:+ "/mnt/backup/" +:+ " ")) (Scenario.world_of Scenario.docA)
    (initial_state Scenario.fsA [])
  = (Ok (Target.mk "/mnt/backup/"), initial_state Scenario.fsA []).
Proof.
  apply (target_path_stripped "  " " " "mnt/backup/" "/mnt/backup" "/" "/");
    reflexivity.
Defined.
